(** * Single-decree Paxos of [algorithms/paxos.py]: a shallow embedding

    The Python classes [ProposalNumber], [Acceptor], [Proposer] and [Learner]
    are rendered as records with explicit state passing.  A method that
    mutates [self] returns the new object next to its result.  Python's
    [None] result of a method returning [Optional[Message]] is [None] of
    [option]; a Python value of type [Any] is a [Value], whose constructor
    [VNone] is Python's [None].  Calls to [print] have no effect on the state
    and are left out. *)

From Stdlib Require Import ZArith Lia.
From stdpp Require Import base list strings pretty gmap sorting.

Local Open Scope Z_scope.

(** ** Python values *)

(** The dynamically typed values ([Any]) that are proposed and learnt:
    [None], strings and integers, compared with structural equality. *)
Inductive Value : Type :=
| VNone
| VStr (s : string)
| VInt (z : Z).

Global Instance Value_eq_dec : EqDecision Value.
Proof. solve_decision. Defined.

(** [x is not None] *)
Definition is_not_None (x : Value) : bool :=
  match x with
  | VNone => false
  | _ => true
  end.

(** ** Comparison of pairs of integers, as Python compares tuples

    The first position where the components differ decides; two equal
    pairs are [<=], [>=] and [==] but neither [<] nor [>]. *)
Module Tuple.
Definition lt (a b : Z * Z) : bool :=
  if negb (a.1 =? b.1) then a.1 <? b.1
  else if negb (a.2 =? b.2) then a.2 <? b.2
  else false.

Definition le (a b : Z * Z) : bool :=
  if negb (a.1 =? b.1) then a.1 <=? b.1
  else if negb (a.2 =? b.2) then a.2 <=? b.2
  else true.

Definition gt (a b : Z * Z) : bool :=
  if negb (a.1 =? b.1) then a.1 >? b.1
  else if negb (a.2 =? b.2) then a.2 >? b.2
  else false.

Definition ge (a b : Z * Z) : bool :=
  if negb (a.1 =? b.1) then a.1 >=? b.1
  else if negb (a.2 =? b.2) then a.2 >=? b.2
  else true.

Definition eq (a b : Z * Z) : bool :=
  (a.1 =? b.1) && (a.2 =? b.2).
End Tuple.

(** ** class Message *)
Module Message.
Record t : Type := mk {
  msg_type : string;
  sender : Z;
  receiver : Z;
  proposal_num : Z;
  value : Value;
  prev_accepted : option (Z * Value)
}.

Global Instance eq_dec : EqDecision t.
Proof. solve_decision. Defined.
End Message.

(** ** class ProposalNumber *)
Module ProposalNumber.
Record t : Type := mk {
  seq : Z;
  node_id : Z
}.

Global Instance eq_dec : EqDecision t.
Proof. solve_decision. Defined.

Definition __lt__ (self other : t) : bool :=
  Tuple.lt (seq self, node_id self) (seq other, node_id other).
Definition __le__ (self other : t) : bool :=
  Tuple.le (seq self, node_id self) (seq other, node_id other).
Definition __gt__ (self other : t) : bool :=
  Tuple.gt (seq self, node_id self) (seq other, node_id other).
Definition __ge__ (self other : t) : bool :=
  Tuple.ge (seq self, node_id self) (seq other, node_id other).
Definition __eq__ (self other : t) : bool :=
  Tuple.eq (seq self, node_id self) (seq other, node_id other).

(** The lexicographic order on [(seq, node_id)], as propositions. *)
Definition lt (a b : t) : Prop :=
  seq a < seq b ∨ (seq a = seq b ∧ node_id a < node_id b).
Definition le (a b : t) : Prop :=
  seq a < seq b ∨ (seq a = seq b ∧ node_id a <= node_id b).
End ProposalNumber.

(** ** class Acceptor *)
Module Acceptor.
Record t : Type := mk {
  node_id : Z;
  name : string;
  highest_prepare : option ProposalNumber.t;
  accepted : option (ProposalNumber.t * Value)
}.

Global Instance eq_dec : EqDecision t.
Proof. solve_decision. Defined.

(** [Acceptor(node_id, name)]; an empty [name] is replaced by
    ["Acceptor-<node_id>"]. *)
Definition __init__ (node_id : Z) (name : string) : t :=
  {| node_id := node_id;
     name := if decide (name = EmptyString) then "Acceptor-" +:+ pretty node_id else name;
     highest_prepare := None;
     accepted := None |}.

(** The guard of [prepare]:
    [self.highest_prepare is None or proposal_num > self.highest_prepare]. *)
Definition may_promise (self : t) (proposal_num : ProposalNumber.t) : bool :=
  match highest_prepare self with
  | None => true
  | Some hp => ProposalNumber.__gt__ proposal_num hp
  end.

Definition prepare (self : t) (proposal_num : ProposalNumber.t)
  : option Message.t * t :=
  if may_promise self proposal_num then
    let self' := {| node_id := node_id self;
                    name := name self;
                    highest_prepare := Some proposal_num;
                    accepted := accepted self |} in
    let prev_accepted :=
      match accepted self' with
      | Some (prev_proposal_num, prev_value) =>
          Some (ProposalNumber.seq prev_proposal_num, prev_value)
      | None => None
      end in
    (Some (Message.mk "PROMISE" (node_id self') 0
             (ProposalNumber.seq proposal_num) VNone prev_accepted),
     self')
  else (None, self).

(** The guard of [accept]:
    [self.highest_prepare is None or proposal_num >= self.highest_prepare]. *)
Definition may_accept (self : t) (proposal_num : ProposalNumber.t) : bool :=
  match highest_prepare self with
  | None => true
  | Some hp => ProposalNumber.__ge__ proposal_num hp
  end.

Definition accept (self : t) (proposal_num : ProposalNumber.t) (value : Value)
  : option Message.t * t :=
  if may_accept self proposal_num then
    let self' := {| node_id := node_id self;
                    name := name self;
                    highest_prepare := highest_prepare self;
                    accepted := Some (proposal_num, value) |} in
    (Some (Message.mk "ACCEPTED" (node_id self') 0
             (ProposalNumber.seq proposal_num) value None),
     self')
  else (None, self).

(** A call an acceptor can receive, and the state after a sequence of
    calls. *)
Inductive call : Type :=
| Prepare (proposal_num : ProposalNumber.t)
| Accept (proposal_num : ProposalNumber.t) (value : Value).

Definition step (self : t) (c : call) : option Message.t * t :=
  match c with
  | Prepare n => prepare self n
  | Accept n v => accept self n v
  end.

Definition run (self : t) (calls : list call) : t :=
  fold_left (λ a c, (step a c).2) calls self.

(** Invariant A1 of the specification: when both fields are set, the
    accepted proposal number is at most the promised one. *)
Definition A1 (self : t) : Prop :=
  ∀ p m v, highest_prepare self = Some p → accepted self = Some (m, v) →
           ProposalNumber.le m p.

(** The accepted number, if any, is under a promise that is set.  This is
    A1 together with: an acceptor that has accepted has promised. *)
Definition covered (self : t) : Prop :=
  ∀ m v, accepted self = Some (m, v) →
         ∃ p, highest_prepare self = Some p ∧ ProposalNumber.le m p.

(** The promise is set and is at least [n]. *)
Definition promised_from (n : ProposalNumber.t) (self : t) : Prop :=
  ∃ p, highest_prepare self = Some p ∧ ProposalNumber.le n p.

(** A sequence of calls in which every [accept(n, v)] reaches the acceptor
    while its promise is set and [n] is not above it.  [Proposer.propose]
    calls this way: its [accept(n, _)] follows its own [prepare(n)] on the
    same acceptor with no call in between. *)
Fixpoint within_promise (self : t) (calls : list call) : bool :=
  match calls with
  | [] => true
  | c :: rest =>
      match c with
      | Prepare _ => true
      | Accept n _ =>
          match highest_prepare self with
          | Some p => ProposalNumber.__le__ n p
          | None => false
          end
      end && within_promise (step self c).2 rest
  end.
End Acceptor.

(** ** class Proposer *)

(** The acceptor objects live in a store; a Python list of acceptors is a
    list of references (positions in the store), so that one object listed
    twice is one state.  A reference outside the store does not exist in
    Python; the loops skip it. *)
Abbreviation heap := (list Acceptor.t).

Module Proposer.
Record t : Type := mk {
  node_id : Z;
  name : string;
  seq : Z
}.

Definition __init__ (node_id : Z) (name : string) : t :=
  {| node_id := node_id;
     name := if decide (name = EmptyString) then "Node-" +:+ pretty node_id else name;
     seq := 0 |}.

(** One iteration of the loop over [promises]; the accumulator is
    [(highest_proposal_num, highest_accepted_value)]. *)
Definition scan (acc : Z * Value) (promise : Message.t) : Z * Value :=
  match Message.prev_accepted promise with
  | Some (prev_proposal_num, prev_value) =>
      if prev_proposal_num >? acc.1 then (prev_proposal_num, prev_value)
      else acc
  | None => acc
  end.

Definition _choose_value_following_paxos_constraint
    (original_value : Value) (promises : list Message.t) : Value :=
  let '(highest_proposal_num, highest_accepted_value) :=
    fold_left scan promises (-1, VNone) in
  if is_not_None highest_accepted_value then highest_accepted_value
  else original_value.

(** The previously accepted pairs [(number, value)] that the promises
    carry, in the order of the promises. *)
Definition reported (promises : list Message.t) : list (Z * Value) :=
  omap Message.prev_accepted promises.

(** Phase 1: [for acceptor in acceptors: response = acceptor.prepare(n)]. *)
Fixpoint phase1 (proposal_num : ProposalNumber.t) (acceptors : list nat)
    (σ : heap) (promises : list Message.t) : list Message.t * heap :=
  match acceptors with
  | [] => (promises, σ)
  | r :: rest =>
      match σ !! r with
      | Some acceptor =>
          let '(response, acceptor') := Acceptor.prepare acceptor proposal_num in
          phase1 proposal_num rest (<[r := acceptor']> σ)
            (match response with
             | Some m => promises ++ [m]
             | None => promises
             end)
      | None => phase1 proposal_num rest σ promises
      end
  end.

(** [acceptor.node_id in [p.sender for p in promises]] *)
Definition promised_by (promises : list Message.t) (acceptor : Acceptor.t) : bool :=
  existsb (Z.eqb (Acceptor.node_id acceptor)) (map Message.sender promises).

(** Phase 2: [acceptor.accept(n, final_value)] for the acceptors whose
    [node_id] is the sender of some promise. *)
Fixpoint phase2 (proposal_num : ProposalNumber.t) (final_value : Value)
    (promises : list Message.t) (acceptors : list nat)
    (σ : heap) (accepts : list Message.t) : list Message.t * heap :=
  match acceptors with
  | [] => (accepts, σ)
  | r :: rest =>
      match σ !! r with
      | Some acceptor =>
          if promised_by promises acceptor then
            let '(response, acceptor') :=
              Acceptor.accept acceptor proposal_num final_value in
            phase2 proposal_num final_value promises rest (<[r := acceptor']> σ)
              (match response with
               | Some m => accepts ++ [m]
               | None => accepts
               end)
          else phase2 proposal_num final_value promises rest σ accepts
      | None => phase2 proposal_num final_value promises rest σ accepts
      end
  end.

(** What Phase 1 with number [n] can do to one acceptor: it keeps the
    node id, the name and the accepted pair, and either keeps the promise
    or raises it to [n]. *)
Definition promised_more (n : ProposalNumber.t) (a a' : Acceptor.t) : Prop :=
  Acceptor.node_id a' = Acceptor.node_id a ∧
  Acceptor.name a' = Acceptor.name a ∧
  Acceptor.accepted a' = Acceptor.accepted a ∧
  (Acceptor.highest_prepare a' = Acceptor.highest_prepare a ∨
   (Acceptor.highest_prepare a' = Some n ∧ Acceptor.may_promise a n = true)).

(** What Phase 2 with number [n] and value [v] can do to one acceptor: it
    keeps the node id, the name and the promise, and either keeps the
    accepted pair or sets it to [(n, v)]. *)
Definition accepted_more (n : ProposalNumber.t) (v : Value)
    (a a' : Acceptor.t) : Prop :=
  Acceptor.node_id a' = Acceptor.node_id a ∧
  Acceptor.name a' = Acceptor.name a ∧
  Acceptor.highest_prepare a' = Acceptor.highest_prepare a ∧
  (Acceptor.accepted a' = Acceptor.accepted a ∨
   Acceptor.accepted a' = Some (n, v)).

(** The number of entries of the list [acceptors] whose acceptor holds
    the accepted pair [(n, v)] in the store. *)
Definition holding (n : ProposalNumber.t) (v : Value) (σ : heap)
    (acceptors : list nat) : nat :=
  length (filter (λ r, Acceptor.accepted <$> σ !! r = Some (Some (n, v)))
            acceptors).

(** The response and the state of one acceptor in each phase. *)
Definition promise_from (n : ProposalNumber.t) (σ : heap) (r : nat)
  : option Message.t :=
  acceptor ← σ !! r; (Acceptor.prepare acceptor n).1.

Definition accepted_from (n : ProposalNumber.t) (v : Value)
    (promises : list Message.t) (σ : heap) (r : nat) : option Message.t :=
  acceptor ← σ !! r;
  if promised_by promises acceptor then (Acceptor.accept acceptor n v).1
  else None.

(** [propose] returns the consensus value or Python's [None], together
    with the proposer and the store after the round. *)
Definition propose (self : t) (value : Value) (acceptors : list nat) (σ : heap)
  : Value * t * heap :=
  let self' := {| node_id := node_id self; name := name self; seq := seq self + 1 |} in
  let proposal_num := ProposalNumber.mk (seq self') (node_id self') in
  let majority := Z.of_nat (length acceptors) / 2 + 1 in
  let '(promises, σ1) := phase1 proposal_num acceptors σ [] in
  if Z.of_nat (length promises) <? majority then (VNone, self', σ1)
  else
    let final_value := _choose_value_following_paxos_constraint value promises in
    let '(accepts, σ2) :=
      phase2 proposal_num final_value promises acceptors σ1 [] in
    if Z.of_nat (length accepts) >=? majority then (final_value, self', σ2)
    else (VNone, self', σ2).

(** Rounds run one after another against the same list of acceptors, each
    by some proposer with some candidate: the results, and the store at
    the end. *)
Fixpoint rounds (calls : list (t * Value)) (acceptors : list nat) (σ : heap)
  : list Value * heap :=
  match calls with
  | [] => ([], σ)
  | (self, value) :: rest =>
      let '(result, _, σ') := propose self value acceptors σ in
      let '(results, σ'') := rounds rest acceptors σ' in
      (result :: results, σ'')
  end.
End Proposer.

(** ** Python dictionaries in insertion order *)

(** A [dict] is the list of its items in insertion order, with at most one
    item per key: assigning to a key that is present replaces the value in
    place, assigning to a new key appends the item. *)
Section dict.
Context {K V : Type} `{!EqDecision K}.

Fixpoint dict_get (d : list (K * V)) (k : K) : option V :=
  match d with
  | [] => None
  | (k', v) :: rest => if decide (k' = k) then Some v else dict_get rest k
  end.

Fixpoint dict_set (d : list (K * V)) (k : K) (v : V) : list (K * V) :=
  match d with
  | [] => [(k, v)]
  | (k', v') :: rest =>
      if decide (k' = k) then (k', v) :: rest
      else (k', v') :: dict_set rest k v
  end.
End dict.

(** ** class Learner *)
Module Learner.
Record t : Type := mk {
  node_id : Z;
  values : list (Z * Value)
}.

Definition __init__ (node_id : Z) : t :=
  {| node_id := node_id; values := [] |}.

Definition learn (self : t) (acceptor_id : Z) (value : Value) : t :=
  {| node_id := node_id self;
     values := dict_set (values self) acceptor_id value |}.

(** The body of [for acceptor_id, value in self.values.items()]. *)
Definition tally (value_counts : list (Value * Z)) (item : Z * Value)
  : list (Value * Z) :=
  match dict_get value_counts item.2 with
  | Some count => dict_set value_counts item.2 (count + 1)
  | None => dict_set value_counts item.2 1
  end.

(** The loop [for value, count in value_counts.items()], which returns at
    the first value whose count reaches the threshold, and [None] when the
    loop ends. *)
Fixpoint first_majority (value_counts : list (Value * Z))
    (majority_threshold : Z) : Value :=
  match value_counts with
  | [] => VNone
  | (value, count) :: rest =>
      if count >=? majority_threshold then value
      else first_majority rest majority_threshold
  end.

Definition get_consensus (self : t) (total_acceptors : Z) : Value :=
  match values self with
  | [] => VNone
  | _ =>
      let value_counts := fold_left tally (values self) [] in
      let majority_threshold := total_acceptors / 2 + 1 in
      first_majority value_counts majority_threshold
  end.

(** The learner after a sequence of [learn] calls on a new learner. *)
Definition observe (node_id : Z) (reports : list (Z * Value)) : t :=
  fold_left (λ l r, learn l r.1 r.2) reports (__init__ node_id).

(** The number of items of the map whose value is [v]: the number of
    acceptors that the map sends to [v]. *)
Definition mapped_to (items : list (Z * Value)) (v : Value) : Z :=
  Z.of_nat (length (filter (λ item, item.2 = v) items)).

Definition votes (self : t) (v : Value) : Z :=
  mapped_to (values self) v.

(** The sum of the counts of a tally. *)
Definition total (value_counts : list (Value * Z)) : Z :=
  foldr Z.add 0 value_counts.*2.
End Learner.

(** ** demo_database_leader_election *)
Module Demo.
(** The loop that reports the coordinators' accepted values to the
    learner: [if coordinator.accepted: learner.learn(coordinator.node_id,
    accepted_value)]. *)
Definition learn_accepted (learner : Learner.t) (coordinators : list nat)
    (σ : heap) : Learner.t :=
  fold_left
    (λ l r,
       match σ !! r with
       | Some coordinator =>
           match Acceptor.accepted coordinator with
           | Some (_, accepted_value) =>
               Learner.learn l (Acceptor.node_id coordinator) accepted_value
           | None => l
           end
       | None => l
       end)
    coordinators learner.

(** The node ids of the coordinators of the list, and the report that
    the loop makes for one of them. *)
Definition node_ids (σ : heap) (coordinators : list nat) : list Z :=
  omap (λ r, Acceptor.node_id <$> σ !! r) coordinators.

Definition report (σ : heap) (r : nat) : option (Z * Value) :=
  coordinator ← σ !! r;
  pair ← Acceptor.accepted coordinator;
  Some (Acceptor.node_id coordinator, pair.2).

(** The demonstration: two proposers, five coordinators and a learner.
    The results that it prints are returned: the two election results and
    the learner's consensus. *)
Definition demo_database_leader_election : Value * Value * Value :=
  let db_node_east := Proposer.__init__ 1 "MySQL-Primary-East" in
  let db_node_west := Proposer.__init__ 2 "MySQL-Primary-West" in
  let σ0 : heap :=
    [Acceptor.__init__ 10 "ClusterCoord-DC1";
     Acceptor.__init__ 11 "ClusterCoord-DC2";
     Acceptor.__init__ 12 "ClusterCoord-DC3";
     Acceptor.__init__ 13 "ClusterCoord-DC4";
     Acceptor.__init__ 14 "ClusterCoord-DC5"] in
  let coordinators := [0; 1; 2; 3; 4]%nat in
  let learner := Learner.__init__ 20 in
  let '(elected_leader1, _, σ1) :=
    Proposer.propose db_node_east (VStr "MySQL-Primary-East") coordinators σ0 in
  let '(elected_leader2, _, σ2) :=
    Proposer.propose db_node_west (VStr "MySQL-Primary-West") coordinators σ1 in
  let learner := learn_accepted learner coordinators σ2 in
  let consensus_leader :=
    Learner.get_consensus learner (Z.of_nat (length coordinators)) in
  (elected_leader1, elected_leader2, consensus_leader).
End Demo.

(** * The hash ring of [algorithms/consistent_hashing.py]

    [hashlib.sha256] is not part of the repository: [_hash], the SHA-256
    digest of the UTF-8 bytes of a key read as an integer, is a parameter
    of the model, and what is proved of the ring holds for every hash
    function.  [bisect.bisect_right] and [bisect.insort] are rendered by
    their contract on a sorted list, which [sorted_hashes] always is.  A
    method that can raise returns an [option]: [None] is the exception. *)
Module ConsistentHashing.
Section ring.
Variable _hash : string → Z.

Record t : Type := mk {
  replicas : Z;
  ring : gmap Z string;
  sorted_hashes : list Z;
  nodes : gset string
}.

(** [bisect.bisect_right(a, x)]: the index after the entries [<= x]. *)
Fixpoint bisect_right (a : list Z) (x : Z) : nat :=
  match a with
  | [] => 0%nat
  | y :: rest => if x <? y then 0%nat else S (bisect_right rest x)
  end.

(** [bisect.insort(a, x)]: [a.insert(bisect_right(a, x), x)]. *)
Definition insort (a : list Z) (x : Z) : list Z :=
  take (bisect_right a x) a ++ x :: drop (bisect_right a x) a.

(** [a.remove(x)]: the first occurrence goes; [ValueError] without one. *)
Fixpoint remove (a : list Z) (x : Z) : option (list Z) :=
  match a with
  | [] => None
  | y :: rest => if decide (y = x) then Some rest else (y ::.) <$> remove rest x
  end.

(** [f"{node}:{replica_index}"] *)
Definition virtual_key (node : string) (replica_index : nat) : string :=
  node +:+ ":" +:+ pretty replica_index.

(** [range(self.replicas)] *)
Definition replica_indices (self : t) : list nat :=
  seq 0 (Z.to_nat (replicas self)).

(** One turn of the loop of [add_node]. *)
Definition add_replica (node : string) (s : t) (replica_index : nat) : t :=
  let hash_position := _hash (virtual_key node replica_index) in
  {| replicas := replicas s;
     ring := <[hash_position := node]> (ring s);
     sorted_hashes := insort (sorted_hashes s) hash_position;
     nodes := nodes s |}.

Definition add_node (self : t) (node : string) : t :=
  fold_left (add_replica node) (replica_indices self)
    {| replicas := replicas self;
       ring := ring self;
       sorted_hashes := sorted_hashes self;
       nodes := {[node]} ∪ nodes self |}.

(** One turn of the loop of [remove_node]. *)
Definition remove_replica (node : string) (s : t) (replica_index : nat)
    : option t :=
  let hash_position := _hash (virtual_key node replica_index) in
  if decide (is_Some (ring s !! hash_position)) then
    sorted ← remove (sorted_hashes s) hash_position;
    Some {| replicas := replicas s;
            ring := delete hash_position (ring s);
            sorted_hashes := sorted;
            nodes := nodes s |}
  else Some s.

(** The loop of [remove_node]; it ends at the first exception. *)
Definition remove_loop (node : string) (state : option t)
    (indices : list nat) : option t :=
  fold_left (λ state replica_index, s ← state; remove_replica node s replica_index)
    indices state.

Definition remove_node (self : t) (node : string) : option t :=
  if decide (node ∈ nodes self) then
    remove_loop node
      (Some {| replicas := replicas self;
               ring := ring self;
               sorted_hashes := sorted_hashes self;
               nodes := nodes self ∖ {[node]} |})
      (replica_indices self)
  else Some self.

(** [get_node]: [Some None] is the result [None]; [None] is an
    [IndexError] or a [KeyError]. *)
Definition get_node (self : t) (key : string) : option (option string) :=
  if decide (ring self = ∅) then Some None
  else
    let key_hash := _hash key in
    let server_index := bisect_right (sorted_hashes self) key_hash in
    let server_index :=
      if decide (server_index = length (sorted_hashes self)) then 0%nat
      else server_index in
    server_hash_position ← sorted_hashes self !! server_index;
    responsible_server ← ring self !! server_hash_position;
    Some (Some responsible_server).

(** [ConsistentHashing(nodes, replicas)] *)
Definition __init__ (nodes : list string) (replicas : Z) : t :=
  fold_left add_node nodes
    {| replicas := replicas; ring := ∅; sorted_hashes := []; nodes := ∅ |}.

(** A call that changes the ring, and a sequence of such calls; [None]
    when one of them raises. *)
Inductive call : Type :=
| AddNode (node : string)
| RemoveNode (node : string).

Definition step (self : t) (c : call) : option t :=
  match c with
  | AddNode node => Some (add_node self node)
  | RemoveNode node => remove_node self node
  end.

Definition run (self : t) (calls : list call) : option t :=
  fold_left (λ state c, s ← state; step s c) calls (Some self).

(** The position that serves the hash [h]: the first position above
    [h], and the first position of all when none is above. *)
Fixpoint first_above (a : list Z) (h : Z) : option Z :=
  match a with
  | [] => None
  | y :: rest => if h <? y then Some y else first_above rest h
  end.

Definition successor (a : list Z) (h : Z) : option Z :=
  match first_above a h with
  | Some y => Some y
  | None => head a
  end.

(** [p] is the position of [a] that serves [h], said without the order
    of the list: the least position above [h], or the least position
    when none is above [h]. *)
Definition serves (a : list Z) (h p : Z) : Prop :=
  p ∈ a ∧
  ((h < p ∧ ∀ q, q ∈ a → h < q → p <= q) ∨
   ((∀ q, q ∈ a → q <= h) ∧ ∀ q, q ∈ a → p <= q)).

(** The ring positions of the virtual nodes of [node]. *)
Definition positions (node : string) (indices : list nat) : list Z :=
  (λ replica_index, _hash (virtual_key node replica_index)) <$> indices.

(** What the methods keep of a ring: the positions are in order, and an
    entry of [ring] sits at a listed position, which is the position of
    a virtual node of its server, a server of [nodes]. *)
Definition well_formed (self : t) : Prop :=
  StronglySorted Z.le (sorted_hashes self) ∧
  ∀ h node, ring self !! h = Some node →
    h ∈ sorted_hashes self ∧ node ∈ nodes self ∧
    h ∈ positions node (replica_indices self).
End ring.

(** A hash function for the worked examples: the bytes of the key read
    as a number, modulo 1000. *)
Definition sample_hash (key : string) : Z :=
  fold_left (λ acc c, acc * 256 + Z.of_N (Ascii.N_of_ascii c))
    (String.list_ascii_of_string key) 0 `mod` 1000.
End ConsistentHashing.

(** * The cache of [practical_example_cache_system]

    Each server has a dictionary of its own; [None] is an exception of
    [get_node] or the [KeyError] of [local_caches[server]]. *)
Module DistributedCache.
Section cache.
Variable _hash : string → Z.

Record t : Type := mk {
  ch : ConsistentHashing.t;
  local_caches : gmap string (gmap string string);
  total_operations : Z
}.

(** [DistributedCache(cache_servers)] *)
Definition __init__ (cache_servers : list string) : t :=
  {| ch := ConsistentHashing.__init__ _hash cache_servers 5;
     local_caches :=
       fold_left (λ caches server, <[server := ∅]> caches) cache_servers ∅;
     total_operations := 0 |}.

(** [if server:] on the result of [get_node]: neither [None] nor the
    empty string. *)
Definition truthy (server : option string) : option string :=
  match server with
  | Some name => if decide (name = EmptyString) then None else Some name
  | None => None
  end.

Definition put (self : t) (key value : string) : option (bool * t) :=
  server ← ConsistentHashing.get_node _hash (ch self) key;
  match truthy server with
  | Some server =>
      cache ← local_caches self !! server;
      Some (true,
            {| ch := ch self;
               local_caches := <[server := <[key := value]> cache]> (local_caches self);
               total_operations := total_operations self + 1 |})
  | None => Some (false, self)
  end.

Definition get (self : t) (key : string) : option (option string) :=
  server ← ConsistentHashing.get_node _hash (ch self) key;
  match truthy server with
  | Some server =>
      cache ← local_caches self !! server;
      Some (cache !! key)
  | None => Some None
  end.

Definition add_cache_server (self : t) (server : string) : t :=
  {| ch := ConsistentHashing.add_node _hash (ch self) server;
     local_caches := <[server := ∅]> (local_caches self);
     total_operations := total_operations self |}.

(** A call that changes the cache, and a sequence of such calls. *)
Inductive call : Type :=
| Put (key value : string)
| AddCacheServer (server : string).

Definition step (self : t) (c : call) : option t :=
  match c with
  | Put key value => snd <$> put self key value
  | AddCacheServer server => Some (add_cache_server self server)
  end.

Definition run (self : t) (calls : list call) : option t :=
  fold_left (λ state c, s ← state; step s c) calls (Some self).

(** What the calls keep of a cache: the ring is well formed, every
    listed position has its entry in [ring] (no server is ever removed),
    and every server of the ring has its dictionary. *)
Definition well_formed (self : t) : Prop :=
  ConsistentHashing.well_formed _hash (ch self) ∧
  (∀ q, q ∈ ConsistentHashing.sorted_hashes (ch self) →
        is_Some (ConsistentHashing.ring (ch self) !! q)) ∧
  ∀ node, node ∈ ConsistentHashing.nodes (ch self) →
          is_Some (local_caches self !! node).
End cache.
End DistributedCache.

(** * Properties *)

(** ** The order on proposal numbers *)

Section proposal_order.
Implicit Types a b c : ProposalNumber.t.

Lemma gt_spec a b : ProposalNumber.__gt__ a b = true ↔ ProposalNumber.lt b a.
Proof.
  unfold ProposalNumber.__gt__, ProposalNumber.lt, Tuple.gt; simpl.
  destruct (Z.eqb_spec (ProposalNumber.seq a) (ProposalNumber.seq b));
    destruct (Z.eqb_spec (ProposalNumber.node_id a) (ProposalNumber.node_id b));
    simpl; rewrite ?Z.gtb_ltb, ?Z.ltb_lt; lia.
Qed.

Lemma ge_spec a b : ProposalNumber.__ge__ a b = true ↔ ProposalNumber.le b a.
Proof.
  unfold ProposalNumber.__ge__, ProposalNumber.le, Tuple.ge; simpl.
  destruct (Z.eqb_spec (ProposalNumber.seq a) (ProposalNumber.seq b));
    destruct (Z.eqb_spec (ProposalNumber.node_id a) (ProposalNumber.node_id b));
    simpl; rewrite ?Z.geb_leb, ?Z.leb_le; lia.
Qed.

Lemma le_spec a b : ProposalNumber.__le__ a b = true ↔ ProposalNumber.le a b.
Proof.
  unfold ProposalNumber.__le__, ProposalNumber.le, Tuple.le; simpl.
  destruct (Z.eqb_spec (ProposalNumber.seq a) (ProposalNumber.seq b));
    destruct (Z.eqb_spec (ProposalNumber.node_id a) (ProposalNumber.node_id b));
    simpl; rewrite ?Z.leb_le; lia.
Qed.

Lemma gt_false a b : ProposalNumber.__gt__ a b = false ↔ ProposalNumber.le a b.
Proof.
  rewrite <- not_true_iff_false, gt_spec.
  unfold ProposalNumber.lt, ProposalNumber.le. lia.
Qed.

Lemma ge_false a b : ProposalNumber.__ge__ a b = false ↔ ProposalNumber.lt a b.
Proof.
  rewrite <- not_true_iff_false, ge_spec.
  unfold ProposalNumber.lt, ProposalNumber.le. lia.
Qed.

Lemma pn_le_refl a : ProposalNumber.le a a.
Proof. unfold ProposalNumber.le. lia. Qed.

Lemma pn_le_trans a b c :
  ProposalNumber.le a b → ProposalNumber.le b c → ProposalNumber.le a c.
Proof. unfold ProposalNumber.le. lia. Qed.

Lemma pn_lt_le a b : ProposalNumber.lt a b → ProposalNumber.le a b.
Proof. unfold ProposalNumber.lt, ProposalNumber.le. lia. Qed.

Lemma pn_le_antisym a b :
  ProposalNumber.le a b → ProposalNumber.le b a → a = b.
Proof.
  destruct a as [sa ia], b as [sb ib].
  unfold ProposalNumber.le; simpl. intros H1 H2.
  assert (sa = sb) by lia. assert (ia = ib) by lia. congruence.
Qed.

Lemma pn_lt_not_le a b : ProposalNumber.lt a b → ¬ ProposalNumber.le b a.
Proof. unfold ProposalNumber.lt, ProposalNumber.le. lia. Qed.
End proposal_order.

(** ** The acceptor *)

(** What [prepare] and [accept] do, by the case of their guard. *)
Section acceptor_calls.
Implicit Types (a : Acceptor.t) (n p : ProposalNumber.t) (v : Value).

Lemma may_promise_spec a n :
  Acceptor.may_promise a n = true ↔
  (Acceptor.highest_prepare a = None ∨
   ∃ p, Acceptor.highest_prepare a = Some p ∧ ProposalNumber.lt p n).
Proof.
  unfold Acceptor.may_promise.
  destruct (Acceptor.highest_prepare a) as [p|].
  - rewrite gt_spec. split.
    + intros H. right. by exists p.
    + by intros [? | (q & [= <-] & H)].
  - split; [by left | done].
Qed.

Lemma may_accept_spec a n :
  Acceptor.may_accept a n = true ↔
  (Acceptor.highest_prepare a = None ∨
   ∃ p, Acceptor.highest_prepare a = Some p ∧ ProposalNumber.le p n).
Proof.
  unfold Acceptor.may_accept.
  destruct (Acceptor.highest_prepare a) as [p|].
  - rewrite ge_spec. split.
    + intros H. right. by exists p.
    + by intros [? | (q & [= <-] & H)].
  - split; [by left | done].
Qed.

Lemma prepare_rejects a n :
  (Acceptor.prepare a n).1 = None ↔ Acceptor.may_promise a n = false.
Proof. unfold Acceptor.prepare. by destruct (Acceptor.may_promise a n). Qed.

Lemma accept_rejects a n v :
  (Acceptor.accept a n v).1 = None ↔ Acceptor.may_accept a n = false.
Proof. unfold Acceptor.accept. by destruct (Acceptor.may_accept a n). Qed.

Lemma prepare_highest_prepare a n :
  Acceptor.highest_prepare (Acceptor.prepare a n).2 =
  if Acceptor.may_promise a n then Some n else Acceptor.highest_prepare a.
Proof. unfold Acceptor.prepare. by destruct (Acceptor.may_promise a n). Qed.

Lemma prepare_accepted a n :
  Acceptor.accepted (Acceptor.prepare a n).2 = Acceptor.accepted a.
Proof. unfold Acceptor.prepare. by destruct (Acceptor.may_promise a n). Qed.

Lemma accept_highest_prepare a n v :
  Acceptor.highest_prepare (Acceptor.accept a n v).2 = Acceptor.highest_prepare a.
Proof. unfold Acceptor.accept. by destruct (Acceptor.may_accept a n). Qed.

Lemma accept_accepted a n v :
  Acceptor.accepted (Acceptor.accept a n v).2 =
  if Acceptor.may_accept a n then Some (n, v) else Acceptor.accepted a.
Proof. unfold Acceptor.accept. by destruct (Acceptor.may_accept a n). Qed.

Lemma run_snoc a calls c :
  Acceptor.run a (calls ++ [c]) = (Acceptor.step (Acceptor.run a calls) c).2.
Proof. unfold Acceptor.run. by rewrite fold_left_app. Qed.

Lemma run_cons a c calls :
  Acceptor.run a (c :: calls) = Acceptor.run (Acceptor.step a c).2 calls.
Proof. done. Qed.
End acceptor_calls.

(** ** Claims on [Acceptor.accept] and [Acceptor.prepare] *)

(** C3, as stated, fails: [accept] does not set the promised number.  An
    acceptor that promised [(1, 1)] accepts [(2, 1)] and still holds the
    promise [(1, 1)]; a new acceptor accepts [(2, 1)] and still holds no
    promise. *)
Lemma accept_sets_promise_counterexample :
  let n1 := ProposalNumber.mk 1 1 in
  let n := ProposalNumber.mk 2 1 in
  let a0 := Acceptor.__init__ 10 "X" in
  let a := (Acceptor.prepare a0 n1).2 in
  (Acceptor.highest_prepare a = Some n1 ∧ ProposalNumber.le n1 n ∧
   (Acceptor.accept a n (VStr "A")).1 =
     Some (Message.mk "ACCEPTED" 10 0 2 (VStr "A") None) ∧
   Acceptor.highest_prepare (Acceptor.accept a n (VStr "A")).2 = Some n1 ∧
   Acceptor.highest_prepare (Acceptor.accept a n (VStr "A")).2 ≠ Some n) ∧
  (Acceptor.highest_prepare a0 = None ∧
   Acceptor.highest_prepare (Acceptor.accept a0 n (VStr "A")).2 = None).
Proof.
  cbv zeta. repeat split; try reflexivity.
  - unfold ProposalNumber.le; simpl; lia.
  - discriminate.
Qed.

(** C3, amended: if no promise is set or [n] is at least the promised
    number, [accept(n, v)] sets [accepted := (n, v)], leaves the promised
    number as it is, and returns an ACCEPTED message from this acceptor
    that carries the sequence number of [n] and [v]; if [n] is below the
    promised number it returns [None] and changes nothing. *)
Theorem accept_spec (a : Acceptor.t) (n : ProposalNumber.t) (v : Value) :
  ((Acceptor.highest_prepare a = None ∨
    ∃ p, Acceptor.highest_prepare a = Some p ∧ ProposalNumber.le p n) →
   Acceptor.accept a n v =
     (Some (Message.mk "ACCEPTED" (Acceptor.node_id a) 0
              (ProposalNumber.seq n) v None),
      Acceptor.mk (Acceptor.node_id a) (Acceptor.name a)
        (Acceptor.highest_prepare a) (Some (n, v)))) ∧
  ((∃ p, Acceptor.highest_prepare a = Some p ∧ ProposalNumber.lt n p) →
   Acceptor.accept a n v = (None, a)).
Proof.
  split.
  - intros H. apply may_accept_spec in H.
    unfold Acceptor.accept. by rewrite H.
  - intros (p & Hp & Hlt).
    assert (Acceptor.may_accept a n = false) as H.
    { unfold Acceptor.may_accept. rewrite Hp. by apply ge_false. }
    unfold Acceptor.accept. by rewrite H.
Qed.

Lemma accept_spec_witness :
  let a := Acceptor.mk 10 "X" (Some (ProposalNumber.mk 5 2)) None in
  Acceptor.accept a (ProposalNumber.mk 6 1) (VStr "A") =
    (Some (Message.mk "ACCEPTED" 10 0 6 (VStr "A") None),
     Acceptor.mk 10 "X" (Some (ProposalNumber.mk 5 2))
       (Some (ProposalNumber.mk 6 1, VStr "A"))) ∧
  Acceptor.accept a (ProposalNumber.mk 3 1) (VStr "A") = (None, a).
Proof.
  cbv zeta. split.
  - apply (proj1 (accept_spec (Acceptor.mk 10 "X" (Some (ProposalNumber.mk 5 2)) None)
                    (ProposalNumber.mk 6 1) (VStr "A"))).
    right. exists (ProposalNumber.mk 5 2). split; [reflexivity|].
    unfold ProposalNumber.le; simpl; lia.
  - apply (proj2 (accept_spec (Acceptor.mk 10 "X" (Some (ProposalNumber.mk 5 2)) None)
                    (ProposalNumber.mk 3 1) (VStr "A"))).
    exists (ProposalNumber.mk 5 2). split; [reflexivity|].
    unfold ProposalNumber.lt; simpl; lia.
Defined.

(** C4, as stated, fails: after [prepare((1, 1))] and [accept((2, 1), "A")]
    on a new acceptor both fields are set and the accepted number [(2, 1)]
    is above the promised number [(1, 1)]. *)
Lemma A1_counterexample :
  let a := Acceptor.run (Acceptor.__init__ 10 "X")
             [Acceptor.Prepare (ProposalNumber.mk 1 1);
              Acceptor.Accept (ProposalNumber.mk 2 1) (VStr "A")] in
  Acceptor.highest_prepare a = Some (ProposalNumber.mk 1 1) ∧
  Acceptor.accepted a = Some (ProposalNumber.mk 2 1, VStr "A") ∧
  ProposalNumber.lt (ProposalNumber.mk 1 1) (ProposalNumber.mk 2 1) ∧
  (Acceptor.A1 a → False).
Proof.
  cbv zeta. repeat split.
  - unfold ProposalNumber.lt; simpl; lia.
  - intros H.
    specialize (H (ProposalNumber.mk 1 1) (ProposalNumber.mk 2 1) (VStr "A")
                  eq_refl eq_refl).
    unfold ProposalNumber.le in H; simpl in H; lia.
Qed.

(** A call within the promise keeps every accepted number under a set
    promise. *)
Lemma within_promise_step (a : Acceptor.t) (c : Acceptor.call) :
  Acceptor.covered a →
  Acceptor.within_promise a [c] = true →
  Acceptor.covered (Acceptor.step a c).2.
Proof.
  intros Hcov Hc m v. unfold Acceptor.covered in Hcov.
  destruct c as [n | n w]; simpl in *.
  - rewrite prepare_accepted, prepare_highest_prepare.
    intros Hacc. destruct (Hcov m v Hacc) as (p & Hp & Hle).
    destruct (Acceptor.may_promise a n) eqn:Hg.
    + exists n. split; [done|].
      apply may_promise_spec in Hg as [Hg | (q & Hq & Hlt)]; [congruence|].
      assert (q = p) as -> by congruence.
      eauto using pn_le_trans, pn_lt_le.
    + by exists p.
  - rewrite accept_accepted, accept_highest_prepare.
    destruct (Acceptor.highest_prepare a) as [p|] eqn:Hp; [|done].
    rewrite andb_true_r in Hc. apply le_spec in Hc.
    destruct (Acceptor.may_accept a n) eqn:Hg.
    + intros [= <- <-]. by exists p.
    + intros Hacc. destruct (Hcov m v Hacc) as (q & [= <-] & Hle). by exists p.
Qed.

Lemma within_promise_run (calls : list Acceptor.call) :
  ∀ a : Acceptor.t,
    Acceptor.covered a →
    Acceptor.within_promise a calls = true →
    Acceptor.covered (Acceptor.run a calls).
Proof.
  induction calls as [|c calls IH]; intros a Hcov Hw; [done|].
  rewrite run_cons. simpl in Hw. apply andb_true_iff in Hw as [Hc Hw].
  apply IH; [|done].
  apply within_promise_step; [done|]. simpl. by rewrite Hc.
Qed.

(** C4, amended: after any finite sequence of [prepare] and [accept] calls
    on a new acceptor in which every [accept(n, v)] arrives while the
    promise is set and [n] is not above it, the accepted number is at most
    the promised number whenever both are set. *)
Theorem A1_within_promise (node_id : Z) (name : string)
    (calls : list Acceptor.call) :
  Acceptor.within_promise (Acceptor.__init__ node_id name) calls = true →
  Acceptor.A1 (Acceptor.run (Acceptor.__init__ node_id name) calls).
Proof.
  intros Hw p m v Hp Hacc.
  assert (Acceptor.covered (Acceptor.run (Acceptor.__init__ node_id name) calls))
    as Hcov by (by apply within_promise_run).
  destruct (Hcov m v Hacc) as (q & Hq & Hle). congruence.
Qed.

Lemma A1_within_promise_witness :
  let calls := [Acceptor.Prepare (ProposalNumber.mk 1 1);
                Acceptor.Accept (ProposalNumber.mk 1 1) (VStr "A");
                Acceptor.Prepare (ProposalNumber.mk 1 2);
                Acceptor.Accept (ProposalNumber.mk 1 1) (VStr "B");
                Acceptor.Accept (ProposalNumber.mk 1 2) (VStr "A")] in
  Acceptor.within_promise (Acceptor.__init__ 10 "X") calls = true ∧
  Acceptor.accepted (Acceptor.run (Acceptor.__init__ 10 "X") calls) =
    Some (ProposalNumber.mk 1 2, VStr "A") ∧
  Acceptor.A1 (Acceptor.run (Acceptor.__init__ 10 "X") calls).
Proof.
  cbv zeta. split; [reflexivity|]. split; [reflexivity|].
  apply (A1_within_promise 10 "X"). reflexivity.
Defined.

(** One call never lowers a promise that is set. *)
Lemma step_promised_mono (a : Acceptor.t) (c : Acceptor.call)
    (p : ProposalNumber.t) :
  Acceptor.highest_prepare a = Some p →
  ∃ p', Acceptor.highest_prepare (Acceptor.step a c).2 = Some p' ∧
        ProposalNumber.le p p'.
Proof.
  intros Hp. destruct c as [n | n v]; simpl.
  - rewrite prepare_highest_prepare.
    destruct (Acceptor.may_promise a n) eqn:Hg.
    + exists n. split; [done|].
      apply may_promise_spec in Hg as [Hg | (q & Hq & Hlt)]; [congruence|].
      assert (q = p) as -> by congruence. by apply pn_lt_le.
    + exists p. split; [done | apply pn_le_refl].
  - rewrite accept_highest_prepare. exists p. split; [done | apply pn_le_refl].
Qed.

(** C5: across any finite sequence of [prepare] and [accept] calls (a
    single call included), a promised number that is set stays set and
    never decreases. *)
Theorem promised_never_decreases (calls : list Acceptor.call) :
  ∀ (a : Acceptor.t) (p : ProposalNumber.t),
    Acceptor.highest_prepare a = Some p →
    ∃ p', Acceptor.highest_prepare (Acceptor.run a calls) = Some p' ∧
          ProposalNumber.le p p'.
Proof.
  induction calls as [|c calls IH]; intros a p Hp.
  - exists p. split; [done | apply pn_le_refl].
  - rewrite run_cons.
    destruct (step_promised_mono a c p Hp) as (q & Hq & Hpq).
    destruct (IH _ q Hq) as (r & Hr & Hqr).
    exists r. split; [done|]. by eapply pn_le_trans.
Qed.

Lemma promised_never_decreases_witness :
  let a := Acceptor.mk 10 "X" (Some (ProposalNumber.mk 2 1)) None in
  let calls := [Acceptor.Prepare (ProposalNumber.mk 1 7);
                Acceptor.Accept (ProposalNumber.mk 9 1) (VStr "A");
                Acceptor.Prepare (ProposalNumber.mk 2 3)] in
  Acceptor.highest_prepare (Acceptor.run a calls) = Some (ProposalNumber.mk 2 3) ∧
  ∃ p', Acceptor.highest_prepare (Acceptor.run a calls) = Some p' ∧
        ProposalNumber.le (ProposalNumber.mk 2 1) p'.
Proof.
  cbv zeta. split; [reflexivity|].
  apply (promised_never_decreases
           [Acceptor.Prepare (ProposalNumber.mk 1 7);
            Acceptor.Accept (ProposalNumber.mk 9 1) (VStr "A");
            Acceptor.Prepare (ProposalNumber.mk 2 3)]
           (Acceptor.mk 10 "X" (Some (ProposalNumber.mk 2 1)) None)
           (ProposalNumber.mk 2 1)).
  reflexivity.
Defined.

(** C6, as stated, fails for [prepare]: on a new acceptor the first
    [prepare((1, 1))] returns a PROMISE and the same call repeated at once
    returns [None]. *)
Lemma prepare_twice_counterexample :
  let n := ProposalNumber.mk 1 1 in
  let a := Acceptor.__init__ 10 "X" in
  (Acceptor.prepare a n).1 = Some (Message.mk "PROMISE" 10 0 1 VNone None) ∧
  (Acceptor.prepare (Acceptor.prepare a n).2 n).1 = None ∧
  (Acceptor.prepare (Acceptor.prepare a n).2 n).1 ≠ (Acceptor.prepare a n).1.
Proof. cbv zeta. repeat split. discriminate. Qed.

(** A number is never above itself, so a repeated [prepare(n)] is refused. *)
Lemma may_promise_again (a : Acceptor.t) (n : ProposalNumber.t) :
  Acceptor.may_promise (Acceptor.prepare a n).2 n = false.
Proof.
  unfold Acceptor.may_promise at 1. rewrite prepare_highest_prepare.
  destruct (Acceptor.may_promise a n) eqn:Hg.
  - apply gt_false, pn_le_refl.
  - unfold Acceptor.may_promise in Hg.
    by destruct (Acceptor.highest_prepare a).
Qed.

(** [accept] leaves the promise, so its guard holds again. *)
Lemma may_accept_again (a : Acceptor.t) (n : ProposalNumber.t) (v : Value) :
  Acceptor.may_accept (Acceptor.accept a n v).2 n = Acceptor.may_accept a n.
Proof. unfold Acceptor.may_accept. by rewrite accept_highest_prepare. Qed.

(** C6, amended: [accept(n, v)] repeated at once returns the same response
    as the first call and leaves the state of the first call; [prepare(n)]
    repeated at once leaves the state of the first call and returns [None],
    which is the first response only when the first call was refused. *)
Theorem duplicate_delivery (a : Acceptor.t) (n : ProposalNumber.t) (v : Value) :
  Acceptor.accept (Acceptor.accept a n v).2 n v = Acceptor.accept a n v ∧
  Acceptor.prepare (Acceptor.prepare a n).2 n = (None, (Acceptor.prepare a n).2) ∧
  ((Acceptor.prepare (Acceptor.prepare a n).2 n).1 = (Acceptor.prepare a n).1 ↔
   (Acceptor.prepare a n).1 = None).
Proof.
  assert (Acceptor.prepare (Acceptor.prepare a n).2 n
          = (None, (Acceptor.prepare a n).2)) as Hp.
  { unfold Acceptor.prepare at 1. by rewrite may_promise_again. }
  split; [|split; [done|]].
  - unfold Acceptor.accept at 1. rewrite may_accept_again.
    unfold Acceptor.accept. by destruct (Acceptor.may_accept a n).
  - rewrite Hp; simpl. split; intros H; by rewrite H.
Qed.

(** C7, as stated, fails: two acceptors that promised [(5, 1)] and [(7, 1)]
    refuse [prepare((1, 1))] and [accept((1, 1), "A")] with the same
    response, [None], which therefore carries no promised number and is the
    absence of a message. *)
Lemma rejection_carries_promise_counterexample :
  let n := ProposalNumber.mk 1 1 in
  let a1 := Acceptor.run (Acceptor.__init__ 10 "X")
              [Acceptor.Prepare (ProposalNumber.mk 5 1)] in
  let a2 := Acceptor.run (Acceptor.__init__ 10 "X")
              [Acceptor.Prepare (ProposalNumber.mk 7 1)] in
  Acceptor.highest_prepare a1 = Some (ProposalNumber.mk 5 1) ∧
  Acceptor.highest_prepare a2 = Some (ProposalNumber.mk 7 1) ∧
  (Acceptor.prepare a1 n).1 = None ∧ (Acceptor.prepare a2 n).1 = None ∧
  (Acceptor.accept a1 n (VStr "A")).1 = None ∧
  (Acceptor.accept a2 n (VStr "A")).1 = None.
Proof. cbv zeta. repeat split. Qed.

(** C7, amended: an acceptor refuses [prepare(n)] exactly when its promise
    is set and [n] is not above it, and refuses [accept(n, v)] exactly when
    its promise is set and [n] is below it; the response is then [None],
    the absence of a message, the same whatever the promised number.  A
    message that is returned is a PROMISE or an ACCEPTED and carries the
    sequence number of [n]. *)
Theorem rejection_is_None (a : Acceptor.t) (n : ProposalNumber.t) (v : Value) :
  ((Acceptor.prepare a n).1 = None ↔
   ∃ p, Acceptor.highest_prepare a = Some p ∧ ProposalNumber.le n p) ∧
  ((Acceptor.accept a n v).1 = None ↔
   ∃ p, Acceptor.highest_prepare a = Some p ∧ ProposalNumber.lt n p) ∧
  (∀ m, (Acceptor.prepare a n).1 = Some m →
        Message.msg_type m = "PROMISE" ∧
        Message.proposal_num m = ProposalNumber.seq n) ∧
  (∀ m, (Acceptor.accept a n v).1 = Some m →
        Message.msg_type m = "ACCEPTED" ∧
        Message.proposal_num m = ProposalNumber.seq n).
Proof.
  repeat split.
  - rewrite prepare_rejects. unfold Acceptor.may_promise.
    destruct (Acceptor.highest_prepare a) as [p|]; [|done].
    intros H. exists p. split; [done|]. by apply gt_false.
  - intros (p & Hp & Hle). rewrite prepare_rejects.
    unfold Acceptor.may_promise. rewrite Hp. by apply gt_false.
  - rewrite accept_rejects. unfold Acceptor.may_accept.
    destruct (Acceptor.highest_prepare a) as [p|]; [|done].
    intros H. exists p. split; [done|]. by apply ge_false.
  - intros (p & Hp & Hlt). rewrite accept_rejects.
    unfold Acceptor.may_accept. rewrite Hp. by apply ge_false.
  - revert H. unfold Acceptor.prepare.
    destruct (Acceptor.may_promise a n); simpl; [|done]. by intros [= <-].
  - revert H. unfold Acceptor.prepare.
    destruct (Acceptor.may_promise a n); simpl; [|done]. by intros [= <-].
  - revert H. unfold Acceptor.accept.
    destruct (Acceptor.may_accept a n); simpl; [|done]. by intros [= <-].
  - revert H. unfold Acceptor.accept.
    destruct (Acceptor.may_accept a n); simpl; [|done]. by intros [= <-].
Qed.

(** C9: when [prepare(n)] returns a rejection the acceptor is exactly as
    before the call, its promised number and its accepted pair included;
    likewise when [accept(n, v)] returns a rejection. *)
Theorem rejection_changes_nothing (a : Acceptor.t) (n : ProposalNumber.t)
    (v : Value) :
  ((Acceptor.prepare a n).1 = None →
   (Acceptor.prepare a n).2 = a ∧
   Acceptor.highest_prepare (Acceptor.prepare a n).2 = Acceptor.highest_prepare a ∧
   Acceptor.accepted (Acceptor.prepare a n).2 = Acceptor.accepted a) ∧
  ((Acceptor.accept a n v).1 = None →
   (Acceptor.accept a n v).2 = a ∧
   Acceptor.highest_prepare (Acceptor.accept a n v).2 = Acceptor.highest_prepare a ∧
   Acceptor.accepted (Acceptor.accept a n v).2 = Acceptor.accepted a).
Proof.
  split.
  - unfold Acceptor.prepare. by destruct (Acceptor.may_promise a n).
  - unfold Acceptor.accept. by destruct (Acceptor.may_accept a n).
Qed.

Lemma rejection_changes_nothing_witness :
  let a := Acceptor.mk 10 "X" (Some (ProposalNumber.mk 5 2))
             (Some (ProposalNumber.mk 5 2, VStr "A")) in
  ((Acceptor.prepare a (ProposalNumber.mk 5 2)).1 = None ∧
   (Acceptor.prepare a (ProposalNumber.mk 5 2)).2 = a) ∧
  ((Acceptor.accept a (ProposalNumber.mk 5 1) (VStr "B")).1 = None ∧
   (Acceptor.accept a (ProposalNumber.mk 5 1) (VStr "B")).2 = a).
Proof.
  cbv zeta. split.
  - split; [reflexivity|].
    apply (proj1 (rejection_changes_nothing
                    (Acceptor.mk 10 "X" (Some (ProposalNumber.mk 5 2))
                       (Some (ProposalNumber.mk 5 2, VStr "A")))
                    (ProposalNumber.mk 5 2) VNone)).
    reflexivity.
  - split; [reflexivity|].
    apply (proj2 (rejection_changes_nothing
                    (Acceptor.mk 10 "X" (Some (ProposalNumber.mk 5 2))
                       (Some (ProposalNumber.mk 5 2, VStr "A")))
                    (ProposalNumber.mk 5 1) (VStr "B"))).
    reflexivity.
Defined.

(** ** Claims on [Proposer._choose_value_following_paxos_constraint] *)

(** The loop over the promises ends on the accumulator it started from, if
    no reported number is above it, and otherwise on a reported pair; its
    number is at least every reported number. *)
Lemma scan_fold (promises : list Message.t) :
  ∀ acc : Z * Value,
    acc.1 <= (fold_left Proposer.scan promises acc).1 ∧
    (∀ m v, (m, v) ∈ Proposer.reported promises →
            m <= (fold_left Proposer.scan promises acc).1) ∧
    (fold_left Proposer.scan promises acc = acc ∨
     (fold_left Proposer.scan promises acc ∈ Proposer.reported promises ∧
      acc.1 < (fold_left Proposer.scan promises acc).1)).
Proof.
  unfold Proposer.reported.
  induction promises as [|promise promises IH]; intros acc; simpl.
  - split; [lia|]. split; [|by left]. intros m v H. by apply elem_of_nil in H.
  - destruct (IH (Proposer.scan acc promise)) as (Hge & Hmax & Hsel).
    unfold Proposer.scan in *.
    destruct (Message.prev_accepted promise) as [[n w]|]; [|done].
    destruct (Z.gtb_spec n acc.1) as [Hgt | Hle]; simpl in *.
    + split; [lia|]. split.
      * intros m v [[= -> ->] | H]%elem_of_cons; [lia | by eapply Hmax].
      * right. destruct Hsel as [-> | [Hin Hlt]].
        -- split; [apply elem_of_cons; by left | simpl; lia].
        -- split; [apply elem_of_cons; by right | lia].
    + split; [lia|]. split.
      * intros m v [[= -> ->] | H]%elem_of_cons; [lia | by eapply Hmax].
      * destruct Hsel as [-> | [Hin Hlt]]; [by left|].
        right. split; [apply elem_of_cons; by right | lia].
Qed.

(** The value chosen, from the pair the loop ends on. *)
Lemma choose_unfold (original_value : Value) (promises : list Message.t) :
  Proposer._choose_value_following_paxos_constraint original_value promises =
  if is_not_None (fold_left Proposer.scan promises (-1, VNone)).2
  then (fold_left Proposer.scan promises (-1, VNone)).2
  else original_value.
Proof.
  unfold Proposer._choose_value_following_paxos_constraint.
  by destruct (fold_left Proposer.scan promises (-1, VNone)).
Qed.

Lemma is_not_None_true (v : Value) : v ≠ VNone → is_not_None v = true.
Proof. by destruct v. Qed.

Lemma scan_selects (promises : list Message.t) (m : Z) (v : Value) :
  (m, v) ∈ Proposer.reported promises →
  (∀ m' v', (m', v') ∈ Proposer.reported promises →
            m' < m ∨ (m' = m ∧ v' = v)) →
  -1 < m →
  fold_left Proposer.scan promises (-1, VNone) = (m, v).
Proof.
  intros Hin Hmax Hm.
  destruct (scan_fold promises (-1, VNone)) as (_ & Hge & Hsel).
  specialize (Hge m v Hin).
  destruct (fold_left Proposer.scan promises (-1, VNone)) as [h hv].
  simpl in *. destruct Hsel as [[= -> ->] | [Hr _]]; [lia|].
  destruct (Hmax h hv Hr) as [? | [-> ->]]; [lia | done].
Qed.

Lemma scan_none_above (promises : list Message.t) :
  (∀ m v, (m, v) ∈ Proposer.reported promises → m <= -1) →
  fold_left Proposer.scan promises (-1, VNone) = (-1, VNone).
Proof.
  intros Hlow.
  destruct (scan_fold promises (-1, VNone)) as (_ & _ & [Hsel | [Hr Hlt]]); [done|].
  destruct (fold_left Proposer.scan promises (-1, VNone)) as [h hv].
  specialize (Hlow h hv Hr). simpl in Hlt. lia.
Qed.

(** C1, as stated, fails: a first round that gets the value [None] accepted
    under number [(1, 1)] makes all three acceptors report the pair
    [(1, None)] to the next proposer; this highest-numbered pair is not
    used, the candidate ["B"] is sent in Phase 2 and returned. *)
Lemma choose_highest_counterexample :
  let σ0 := [Acceptor.__init__ 10 "X"; Acceptor.__init__ 11 "Y";
             Acceptor.__init__ 12 "Z"] in
  let σ1 := (Proposer.propose (Proposer.__init__ 1 "P1") VNone
               [0; 1; 2]%nat σ0).2 in
  let promises :=
    (Proposer.phase1 (ProposalNumber.mk 1 2) [0; 1; 2]%nat σ1 []).1 in
  Proposer.reported promises = [(1, VNone); (1, VNone); (1, VNone)] ∧
  Proposer._choose_value_following_paxos_constraint (VStr "B") promises
    = VStr "B" ∧
  (Proposer.propose (Proposer.__init__ 2 "P2") (VStr "B")
     [0; 1; 2]%nat σ1).1.1 = VStr "B".
Proof. cbv zeta. repeat split. Qed.

(** C1, amended: if no promise carries an accepted pair, the candidate is
    used unchanged; if a promise reports a value [v] other than [None]
    under a sequence number [m >= 0] that is the highest reported, and no
    promise reports another value under [m], the Phase 2 value is [v]. *)
Theorem choose_value_spec (original_value : Value) (promises : list Message.t) :
  (Proposer.reported promises = [] →
   Proposer._choose_value_following_paxos_constraint original_value promises
   = original_value) ∧
  (∀ m v,
     (m, v) ∈ Proposer.reported promises →
     (∀ m' v', (m', v') ∈ Proposer.reported promises →
               m' < m ∨ (m' = m ∧ v' = v)) →
     0 <= m → v ≠ VNone →
     Proposer._choose_value_following_paxos_constraint original_value promises
     = v).
Proof.
  split.
  - intros Hnil. rewrite choose_unfold, scan_none_above; [done|].
    intros m v H. rewrite Hnil in H. by apply elem_of_nil in H.
  - intros m v Hin Hmax Hm Hv.
    rewrite choose_unfold, (scan_selects promises m v) by (done || lia).
    simpl. by rewrite is_not_None_true.
Qed.

Lemma choose_value_spec_witness :
  let promises := [Message.mk "PROMISE" 10 0 3 VNone (Some (1, VStr "A"));
                   Message.mk "PROMISE" 11 0 3 VNone None;
                   Message.mk "PROMISE" 12 0 3 VNone (Some (2, VStr "C"))] in
  Proposer._choose_value_following_paxos_constraint (VStr "B") [] = VStr "B" ∧
  Proposer._choose_value_following_paxos_constraint (VStr "B") promises
    = VStr "C".
Proof.
  cbv zeta. split.
  - apply (proj1 (choose_value_spec (VStr "B") [])). reflexivity.
  - apply (proj2 (choose_value_spec (VStr "B")
                    [Message.mk "PROMISE" 10 0 3 VNone (Some (1, VStr "A"));
                     Message.mk "PROMISE" 11 0 3 VNone None;
                     Message.mk "PROMISE" 12 0 3 VNone (Some (2, VStr "C"))])
             2 (VStr "C")).
    + unfold Proposer.reported; simpl. apply list_elem_of_In; simpl; tauto.
    + unfold Proposer.reported; simpl. intros m' v' H.
      apply list_elem_of_In in H; simpl in H.
      destruct H as [[= <- <-] | [[= <- <-] | []]]; [left; lia | right; done].
    + lia.
    + discriminate.
Defined.

(** A promise carries the sequence number of the accepted proposal without
    its node id.  Two acceptors that accepted ["A"] under [(1, 1)] and
    ["B"] under [(1, 2)] both report the number 1, and the scan keeps the
    first of them: the amended C1 says nothing on such ties. *)
Example choose_tie_takes_first :
  let X := (Acceptor.accept (Acceptor.__init__ 10 "X")
              (ProposalNumber.mk 1 1) (VStr "A")).2 in
  let Y := (Acceptor.accept (Acceptor.__init__ 11 "Y")
              (ProposalNumber.mk 1 2) (VStr "B")).2 in
  let promises :=
    (Proposer.phase1 (ProposalNumber.mk 2 3) [0; 1]%nat [X; Y] []).1 in
  Proposer.reported promises = [(1, VStr "A"); (1, VStr "B")] ∧
  Proposer._choose_value_following_paxos_constraint (VStr "C") promises
    = VStr "A".
Proof. cbv zeta. by split. Qed.

(** C10: if the highest sequence number reported in the promises is
    reported with the value [None] only, the candidate value is returned:
    an accepted value [None] counts as no accepted value. *)
Theorem choose_value_None (original_value : Value) (promises : list Message.t)
    (m : Z) :
  (m, VNone) ∈ Proposer.reported promises →
  (∀ m' v', (m', v') ∈ Proposer.reported promises →
            m' < m ∨ (m' = m ∧ v' = VNone)) →
  Proposer._choose_value_following_paxos_constraint original_value promises
  = original_value.
Proof.
  intros Hin Hmax. rewrite choose_unfold.
  destruct (Z.lt_ge_cases (-1) m) as [Hm | Hm].
  - by rewrite (scan_selects promises m VNone).
  - rewrite scan_none_above; [done|].
    intros m' v' H. destruct (Hmax m' v' H); lia.
Qed.

Lemma choose_value_None_witness :
  let promises := [Message.mk "PROMISE" 10 0 3 VNone (Some (1, VStr "A"));
                   Message.mk "PROMISE" 11 0 3 VNone (Some (2, VNone))] in
  (2, VNone) ∈ Proposer.reported promises ∧
  Proposer._choose_value_following_paxos_constraint (VStr "B") promises
    = VStr "B".
Proof.
  cbv zeta.
  assert ((2, VNone) ∈ Proposer.reported
            [Message.mk "PROMISE" 10 0 3 VNone (Some (1, VStr "A"));
             Message.mk "PROMISE" 11 0 3 VNone (Some (2, VNone))]) as Hin.
  { unfold Proposer.reported; simpl. apply list_elem_of_In; simpl; tauto. }
  split; [exact Hin|].
  apply (choose_value_None (VStr "B") _ 2 Hin).
  unfold Proposer.reported; simpl. intros m' v' H.
  apply list_elem_of_In in H; simpl in H.
  destruct H as [[= <- <-] | [[= <- <-] | []]]; [left; lia | right; done].
Defined.

(** ** The scenario of two competing proposers *)

Lemma ge_refl (n : ProposalNumber.t) : ProposalNumber.__ge__ n n = true.
Proof. apply ge_spec, pn_le_refl. Qed.

Section competing_proposers.
Variables (x y z : Z) (nx ny nz : string).
Variables (p1 p2 : Proposer.t) (a b : Value).

Let n1 := ProposalNumber.mk (Proposer.seq p1 + 1) (Proposer.node_id p1).
Let n2 := ProposalNumber.mk (Proposer.seq p2 + 1) (Proposer.node_id p2).

(** The counter of a proposer starts at 0 and only grows. *)
Hypothesis Hseq : 0 <= Proposer.seq p1.
(** The number of the second round exceeds the number of the first. *)
Hypothesis Hlt : ProposalNumber.lt n1 n2.
Hypothesis Ha : a ≠ VNone.

Local Arguments ProposalNumber.__ge__ : simpl never.
Local Arguments ProposalNumber.__gt__ : simpl never.
Local Arguments Z.add : simpl never.
Local Arguments Z.gtb : simpl never.
Local Arguments Z.eqb : simpl never.
Local Arguments is_not_None : simpl never.

(** Three new acceptors, and the store in which all three have promised
    [n] and accepted [(n, a)]. *)
Let σ0 : heap :=
  [Acceptor.__init__ x nx; Acceptor.__init__ y ny; Acceptor.__init__ z nz].
Let voted (n : ProposalNumber.t) : heap :=
  [Acceptor.mk x (Acceptor.name (Acceptor.__init__ x nx)) (Some n) (Some (n, a));
   Acceptor.mk y (Acceptor.name (Acceptor.__init__ y ny)) (Some n) (Some (n, a));
   Acceptor.mk z (Acceptor.name (Acceptor.__init__ z nz)) (Some n) (Some (n, a))].

Lemma first_round :
  Proposer.propose p1 a [0; 1; 2]%nat σ0 =
  (a, Proposer.mk (Proposer.node_id p1) (Proposer.name p1) (Proposer.seq p1 + 1),
   voted n1).
Proof using Type.
  unfold Proposer.propose, σ0, voted. cbn.
  rewrite !Z.eqb_refl, ?orb_true_r. cbn.
  unfold Acceptor.accept, Acceptor.may_accept. cbn.
  rewrite !ge_refl. cbn.
  by destruct (is_not_None a).
Qed.

Lemma second_round :
  Proposer.propose p2 b [0; 1; 2]%nat (voted n1) =
  (a, Proposer.mk (Proposer.node_id p2) (Proposer.name p2) (Proposer.seq p2 + 1),
   voted n2).
Proof using Hseq Hlt Ha.
  assert (ProposalNumber.__gt__ n2 n1 = true) as Hgt by by apply gt_spec.
  assert ((Proposer.seq p1 + 1 >? -1) = true) as H1
    by (rewrite Z.gtb_ltb; apply Z.ltb_lt; lia).
  assert ((Proposer.seq p1 + 1 >? Proposer.seq p1 + 1) = false) as H2
    by (rewrite Z.gtb_ltb; apply Z.ltb_irrefl).
  unfold Proposer.propose, voted. cbn.
  unfold Acceptor.prepare, Acceptor.may_promise. cbn.
  fold n1 n2. rewrite !Hgt. cbn.
  unfold Proposer._choose_value_following_paxos_constraint.
  repeat (progress (rewrite ?H1, ?H2; cbn)).
  rewrite !(is_not_None_true a Ha).
  rewrite !Z.eqb_refl, ?orb_true_r. cbn.
  unfold Acceptor.accept, Acceptor.may_accept. cbn.
  fold n2. rewrite !ge_refl. by cbn.
Qed.

(** C2: on three new acceptors the first proposer's [propose(a)] runs both
    phases and returns [a]; a second, distinct proposer whose proposal
    number exceeds the first one's then runs [propose(b)] against the same
    acceptors and returns [a], not its candidate [b], and all three
    acceptors hold [a] as accepted.  With [a = "A"] and [b = "B"] and the
    proposers 1 and 2 this is the scenario of the specification. *)
Theorem competing_proposers :
  let round1 := Proposer.propose p1 a [0; 1; 2]%nat σ0 in
  let round2 := Proposer.propose p2 b [0; 1; 2]%nat round1.2 in
  round1.1.1 = a ∧ round2.1.1 = a ∧
  map Acceptor.accepted round2.2 = [Some (n2, a); Some (n2, a); Some (n2, a)].
Proof using Hseq Hlt Ha.
  cbv zeta. rewrite first_round. cbn [fst snd].
  rewrite second_round. by cbn.
Qed.
End competing_proposers.

Lemma competing_proposers_witness :
  let σ0 := [Acceptor.__init__ 10 "X"; Acceptor.__init__ 11 "Y";
             Acceptor.__init__ 12 "Z"] in
  let P1 := Proposer.__init__ 1 "P1" in
  let P2 := Proposer.__init__ 2 "P2" in
  let round1 := Proposer.propose P1 (VStr "A") [0; 1; 2]%nat σ0 in
  let round2 := Proposer.propose P2 (VStr "B") [0; 1; 2]%nat round1.2 in
  ProposalNumber.lt (ProposalNumber.mk 1 1) (ProposalNumber.mk 1 2) ∧
  round1.1.1 = VStr "A" ∧ round2.1.1 = VStr "A" ∧
  map Acceptor.accepted round2.2 =
    [Some (ProposalNumber.mk 1 2, VStr "A");
     Some (ProposalNumber.mk 1 2, VStr "A");
     Some (ProposalNumber.mk 1 2, VStr "A")].
Proof.
  cbv zeta.
  assert (ProposalNumber.lt (ProposalNumber.mk 1 1) (ProposalNumber.mk 1 2)) as Hlt
    by (unfold ProposalNumber.lt; simpl; lia).
  split; [exact Hlt|].
  apply (competing_proposers 10 11 12 "X" "Y" "Z"
           (Proposer.__init__ 1 "P1") (Proposer.__init__ 2 "P2")
           (VStr "A") (VStr "B")).
  - simpl; lia.
  - exact Hlt.
  - discriminate.
Defined.

(** ** Dictionaries *)

Section dict_facts.
Context {K V : Type} `{!EqDecision K}.
Implicit Types (d : list (K * V)) (k : K) (x : V).

Lemma dict_get_set d k x k' :
  dict_get (dict_set d k x) k' = if decide (k = k') then Some x else dict_get d k'.
Proof.
  induction d as [|[k0 x0] d IH]; simpl.
  - by destruct (decide (k = k')).
  - destruct (decide (k0 = k)) as [->|Hne]; simpl.
    + by destruct (decide (k = k')).
    + destruct (decide (k0 = k')) as [->|Hne'].
      * by destruct (decide (k = k')); [congruence|].
      * done.
Qed.

Lemma dict_get_elem_of d k x : dict_get d k = Some x → (k, x) ∈ d.
Proof.
  induction d as [|[k0 x0] d IH]; simpl; [done|].
  destruct (decide (k0 = k)) as [->|Hne].
  - intros [= ->]. apply elem_of_cons. by left.
  - intros H. apply elem_of_cons. right. by apply IH.
Qed.

Lemma dict_get_None d k : dict_get d k = None → k ∉ d.*1.
Proof.
  induction d as [|[k0 x0] d IH]; simpl.
  - intros _ H. by apply elem_of_nil in H.
  - destruct (decide (k0 = k)) as [->|Hne]; [done|].
    intros H [->|Hin]%elem_of_cons; [done|]. by apply IH.
Qed.

Lemma elem_of_dict_get d k x : NoDup d.*1 → (k, x) ∈ d → dict_get d k = Some x.
Proof.
  induction d as [|[k0 x0] d IH]; simpl.
  - intros _ H. by apply elem_of_nil in H.
  - intros [Hk0 Hnd]%NoDup_cons [[= -> ->]|Hin]%elem_of_cons.
    + by destruct (decide (k0 = k0)).
    + destruct (decide (k0 = k)) as [->|Hne]; [|by apply IH].
      exfalso. apply Hk0. apply list_elem_of_fmap. by exists (k, x).
Qed.

Lemma dict_set_keys d k x :
  (dict_set d k x).*1 = if decide (k ∈ d.*1) then d.*1 else d.*1 ++ [k].
Proof.
  induction d as [|[k0 x0] d IH].
  - done.
  - cbn [dict_set]. rewrite !fmap_cons. cbn [fst].
    destruct (decide (k0 = k)) as [->|Hne].
    + rewrite fmap_cons. cbn [fst].
      destruct (decide (k ∈ k :: d.*1)) as [_|H]; [done|].
      exfalso. apply H, elem_of_cons. by left.
    + rewrite fmap_cons, IH. cbn [fst].
      destruct (decide (k ∈ d.*1)) as [Hin|Hnin];
        destruct (decide (k ∈ k0 :: d.*1)) as [Hin'|Hnin']; try done.
      * exfalso. apply Hnin', elem_of_cons. by right.
      * apply elem_of_cons in Hin' as [->|Hin']; done.
Qed.

Lemma dict_set_NoDup d k x : NoDup d.*1 → NoDup (dict_set d k x).*1.
Proof.
  intros Hnd. rewrite dict_set_keys.
  destruct (decide (k ∈ d.*1)) as [Hin|Hnin]; [done|].
  apply NoDup_app. split; [done|]. split.
  - intros k' Hk' ->%list_elem_of_singleton. done.
  - apply NoDup_singleton.
Qed.
End dict_facts.

(** ** The learner *)

Section learner_facts.
Implicit Types (items : list (Z * Value)) (vc : list (Value * Z)).
Implicit Types (item : Z * Value) (v w : Value).

Lemma mapped_to_cons item items v :
  Learner.mapped_to (item :: items) v =
  (if decide (item.2 = v) then 1 else 0) + Learner.mapped_to items v.
Proof.
  unfold Learner.mapped_to. rewrite filter_cons.
  destruct (decide (item.2 = v)); simpl length; lia.
Qed.

Lemma mapped_to_nonneg items v : 0 <= Learner.mapped_to items v.
Proof. unfold Learner.mapped_to. lia. Qed.

(** A map entry counts for one value only. *)
Lemma mapped_to_two items v w :
  v ≠ w →
  Learner.mapped_to items v + Learner.mapped_to items w <= Z.of_nat (length items).
Proof.
  intros Hne. induction items as [|item items IH].
  - unfold Learner.mapped_to; simpl; lia.
  - rewrite !mapped_to_cons. simpl length.
    destruct (decide (item.2 = v)), (decide (item.2 = w)); try congruence; lia.
Qed.

Lemma tally_get vc item v :
  dict_get (Learner.tally vc item) v =
  if decide (item.2 = v) then Some (default 0 (dict_get vc v) + 1)
  else dict_get vc v.
Proof.
  unfold Learner.tally.
  destruct (dict_get vc item.2) as [count|] eqn:Hget;
    rewrite dict_get_set; destruct (decide (item.2 = v)) as [<-|]; try done.
  - by rewrite Hget.
  - by rewrite Hget.
Qed.

(** After the tally loop the count of [v] is the number of map entries
    with value [v], added to the count the loop started with. *)
Lemma tally_fold_get items :
  ∀ vc v,
    dict_get (fold_left Learner.tally items vc) v =
    if decide (Learner.mapped_to items v = 0) then dict_get vc v
    else Some (default 0 (dict_get vc v) + Learner.mapped_to items v).
Proof.
  induction items as [|item items IH]; intros vc v.
  - simpl. by destruct (decide (Learner.mapped_to [] v = 0)).
  - simpl fold_left. rewrite IH, tally_get, mapped_to_cons.
    pose proof (mapped_to_nonneg items v).
    destruct (decide (item.2 = v)) as [Heq|Hne];
      destruct (decide (Learner.mapped_to items v = 0)) as [H0|H0];
      repeat case_decide; simpl; try lia; try done.
    + f_equal. lia.
    + f_equal. lia.
Qed.

Lemma tally_NoDup vc item : NoDup vc.*1 → NoDup (Learner.tally vc item).*1.
Proof.
  intros H. unfold Learner.tally.
  destruct (dict_get vc item.2); by apply dict_set_NoDup.
Qed.

Lemma tally_fold_NoDup items :
  ∀ vc, NoDup vc.*1 → NoDup (fold_left Learner.tally items vc).*1.
Proof.
  induction items as [|item items IH]; intros vc H; [done|].
  simpl. by apply IH, tally_NoDup.
Qed.

Lemma total_dict_set vc v (c : Z) :
  Learner.total (dict_set vc v c) =
  Learner.total vc - default 0 (dict_get vc v) + c.
Proof.
  unfold Learner.total.
  induction vc as [|[w c'] vc IH]; [simpl; lia|].
  cbn [dict_set dict_get].
  destruct (decide (w = v)) as [->|Hne]; rewrite !fmap_cons; cbn [foldr snd].
  - simpl. lia.
  - rewrite IH. lia.
Qed.

Lemma tally_total vc item :
  Learner.total (Learner.tally vc item) = Learner.total vc + 1.
Proof.
  unfold Learner.tally.
  destruct (dict_get vc item.2) as [count|] eqn:Hget;
    rewrite total_dict_set, Hget; simpl; lia.
Qed.

Lemma tally_fold_total items :
  ∀ vc, Learner.total (fold_left Learner.tally items vc) =
        Learner.total vc + Z.of_nat (length items).
Proof.
  induction items as [|item items IH]; intros vc; simpl fold_left.
  - simpl. lia.
  - rewrite IH, tally_total. simpl length. lia.
Qed.

(** The loop that looks for a majority. *)
Lemma first_majority_sound vc thr v :
  Learner.first_majority vc thr = v → v ≠ VNone →
  ∃ c, (v, c) ∈ vc ∧ thr <= c.
Proof.
  induction vc as [|[w c] vc IH]; simpl; [congruence|].
  destruct (Z.geb_spec c thr) as [Hge | Hlt].
  - intros -> _. exists c. split; [apply elem_of_cons; by left | lia].
  - intros H Hv. destruct (IH H Hv) as (c' & Hin & Hc').
    exists c'. split; [apply elem_of_cons; by right | done].
Qed.

Lemma first_majority_none vc thr :
  (∀ v c, (v, c) ∈ vc → c < thr) → Learner.first_majority vc thr = VNone.
Proof.
  induction vc as [|[w c] vc IH]; simpl; [done|]. intros H.
  destruct (Z.geb_spec c thr) as [Hge | Hlt].
  - specialize (H w c). rewrite elem_of_cons in H. specialize (H (or_introl eq_refl)). lia.
  - apply IH. intros v c' Hin. apply (H v c'), elem_of_cons. by right.
Qed.

Lemma first_majority_unique vc thr v c :
  (v, c) ∈ vc → thr <= c →
  (∀ w c', (w, c') ∈ vc → thr <= c' → w = v) →
  Learner.first_majority vc thr = v.
Proof.
  induction vc as [|[w c0] vc IH]; simpl.
  - intros H. by apply elem_of_nil in H.
  - intros Hin Hc Huniq. destruct (Z.geb_spec c0 thr) as [Hge | Hlt].
    + apply (Huniq w c0); [apply elem_of_cons; by left | lia].
    + apply elem_of_cons in Hin as [[= -> ->] | Hin]; [lia|].
      apply IH; [done | done |].
      intros w' c' Hin' Hc'. apply (Huniq w' c'); [|done].
      apply elem_of_cons. by right.
Qed.
End learner_facts.

Section learner_map.
Implicit Types (l : Learner.t) (reports : list (Z * Value)) (v w : Value).

Lemma observe_snoc node_id reports (r : Z * Value) :
  Learner.observe node_id (reports ++ [r]) =
  Learner.learn (Learner.observe node_id reports) r.1 r.2.
Proof. unfold Learner.observe. by rewrite fold_left_app. Qed.

(** The map built by [learn] has one entry for each acceptor. *)
Lemma observe_NoDup node_id reports :
  NoDup (Learner.values (Learner.observe node_id reports)).*1.
Proof.
  induction reports as [|r reports IH] using rev_ind.
  - apply NoDup_nil_2.
  - rewrite observe_snoc. simpl. by apply dict_set_NoDup.
Qed.

(** The map sends an acceptor to the last value it reported. *)
Lemma observe_last node_id reports (k : Z) :
  dict_get (Learner.values (Learner.observe node_id reports)) k =
  snd <$> last (filter (λ r, r.1 = k) reports).
Proof.
  induction reports as [|r reports IH] using rev_ind; [done|].
  rewrite observe_snoc, filter_app. simpl Learner.values.
  rewrite dict_get_set, filter_cons, filter_nil.
  destruct (decide (r.1 = k)) as [Heq|Hne].
  - by rewrite last_snoc.
  - by rewrite app_nil_r.
Qed.

Lemma get_consensus_unfold l (n : Z) :
  Learner.get_consensus l n =
  Learner.first_majority (fold_left Learner.tally (Learner.values l) [])
    (n / 2 + 1).
Proof. unfold Learner.get_consensus. by destruct (Learner.values l). Qed.

(** The entries of the tally are the values with at least one vote, each
    with its number of votes. *)
Lemma tally_entry l v (c : Z) :
  (v, c) ∈ fold_left Learner.tally (Learner.values l) [] ↔
  c = Learner.votes l v ∧ c ≠ 0.
Proof.
  unfold Learner.votes.
  pose proof (tally_fold_get (Learner.values l) [] v) as Hget.
  simpl in Hget. split.
  - intros Hin. apply elem_of_dict_get in Hin.
    + rewrite Hget in Hin.
      destruct (decide (Learner.mapped_to (Learner.values l) v = 0));
        [done|]. injection Hin as <-. lia.
    + apply tally_fold_NoDup. apply NoDup_nil_2.
  - intros [-> Hc]. apply dict_get_elem_of. rewrite Hget.
    by destruct (decide (Learner.mapped_to (Learner.values l) v = 0)).
Qed.

Lemma get_consensus_sound l (n : Z) v :
  v ≠ VNone → Learner.get_consensus l n = v → n / 2 + 1 <= Learner.votes l v.
Proof.
  intros Hv Hget. rewrite get_consensus_unfold in Hget.
  destruct (first_majority_sound _ _ _ Hget Hv) as (c & Hin & Hc).
  apply tally_entry in Hin as [-> _]. done.
Qed.

Lemma get_consensus_none l (n : Z) :
  (∀ v, Learner.votes l v < n / 2 + 1) → Learner.get_consensus l n = VNone.
Proof.
  intros Hlow. rewrite get_consensus_unfold. apply first_majority_none.
  intros v c [-> _]%tally_entry. apply Hlow.
Qed.

Lemma get_consensus_complete l (n : Z) v :
  Z.of_nat (length (Learner.values l)) <= n →
  n / 2 + 1 <= Learner.votes l v → Learner.get_consensus l n = v.
Proof.
  intros Hn Hv. rewrite get_consensus_unfold.
  pose proof (Z.div_mod n 2 ltac:(lia)) as Hdiv.
  pose proof (Z.mod_pos_bound n 2 ltac:(lia)) as Hmod.
  apply first_majority_unique with (c := Learner.votes l v); [|done|].
  - apply tally_entry. split; [done | lia].
  - intros w c [-> _]%tally_entry Hw.
    destruct (decide (w = v)) as [|Hne]; [done|]. exfalso.
    pose proof (mapped_to_two (Learner.values l) w v Hne) as Htwo.
    unfold Learner.votes in *. lia.
Qed.
End learner_map.

(** ** Claim on [Learner.get_consensus] *)

(** C8, as stated, fails: with the acceptors 1 and 2 mapped to ["A"] and
    ["B"] and a total count of 1 the threshold is 1; ["B"] has one vote,
    yet [get_consensus(1)] returns ["A"], the first value of the tally that
    reaches the threshold. *)
Lemma get_consensus_counterexample :
  let l := Learner.observe 20 [(1, VStr "A"); (2, VStr "B")] in
  Learner.values l = [(1, VStr "A"); (2, VStr "B")] ∧
  1 / 2 + 1 = 1 ∧
  Learner.votes l (VStr "B") = 1 ∧
  Learner.get_consensus l 1 = VStr "A" ∧
  Learner.get_consensus l 1 ≠ VStr "B".
Proof. cbv zeta. repeat split. discriminate. Qed.

(** C8, amended: for a learner whose map was built by any sequence of
    [learn] calls, the map has one entry for each acceptor, with the last
    value it reported, and the tally counts each entry once.  For a total
    count [n] not below the number of acceptors in the map,
    [get_consensus(n)] returns a value [v] other than [None] if and only if
    at least [n // 2 + 1] acceptors are mapped to [v]; if no value has that
    many acceptors, the empty map included, it returns [None]. *)
Theorem get_consensus_spec (node_id : Z) (reports : list (Z * Value)) (n : Z) :
  let l := Learner.observe node_id reports in
  (NoDup (Learner.values l).*1 ∧
   ∀ k, dict_get (Learner.values l) k = snd <$> last (filter (λ r, r.1 = k) reports)) ∧
  (Learner.total (fold_left Learner.tally (Learner.values l) []) =
     Z.of_nat (length (Learner.values l)) ∧
   ∀ v w, v ≠ w →
     Learner.votes l v + Learner.votes l w <= Z.of_nat (length (Learner.values l))) ∧
  (Z.of_nat (length (Learner.values l)) <= n →
   ∀ v, v ≠ VNone →
     (Learner.get_consensus l n = v ↔ n / 2 + 1 <= Learner.votes l v)) ∧
  ((∀ v, Learner.votes l v < n / 2 + 1) → Learner.get_consensus l n = VNone) ∧
  (Learner.values l = [] → Learner.get_consensus l n = VNone).
Proof.
  cbv zeta. repeat split.
  - apply observe_NoDup.
  - apply observe_last.
  - rewrite tally_fold_total. unfold Learner.total. simpl. lia.
  - intros v w Hne. by apply mapped_to_two.
  - by apply get_consensus_sound.
  - by apply get_consensus_complete.
  - apply get_consensus_none.
  - intros Hnil. unfold Learner.get_consensus. by rewrite Hnil.
Qed.

Lemma get_consensus_spec_witness :
  let reports := [(10, VStr "A"); (11, VStr "B"); (12, VStr "B");
                  (10, VStr "B"); (13, VStr "A")] in
  let l := Learner.observe 20 reports in
  Learner.values l =
    [(10, VStr "B"); (11, VStr "B"); (12, VStr "B"); (13, VStr "A")] ∧
  Z.of_nat (length (Learner.values l)) <= 5 ∧
  (Learner.get_consensus l 5 = VStr "B" ↔ 5 / 2 + 1 <= Learner.votes l (VStr "B")) ∧
  Learner.get_consensus l 5 = VStr "B".
Proof.
  cbv zeta. split; [reflexivity|]. split; [simpl; lia|]. split; [|reflexivity].
  apply (get_consensus_spec 20
           [(10, VStr "A"); (11, VStr "B"); (12, VStr "B");
            (10, VStr "B"); (13, VStr "A")] 5).
  - simpl. lia.
  - discriminate.
Defined.

(** ** Rounds of [Proposer.propose] keep A1

    [propose] sends [accept(n, _)] to an acceptor only after [prepare(n)] on
    the same acceptor, so the acceptor's promise is at least [n] when the
    accept arrives: every acceptor of the store stays covered, whatever
    the list of acceptors (repeated or shared references included). *)
Section rounds.
Implicit Types (σ : heap) (a : Acceptor.t) (n : ProposalNumber.t).

Lemma covered_A1 a : Acceptor.covered a → Acceptor.A1 a.
Proof.
  intros Hcov p m v Hp Hacc.
  destruct (Hcov m v Hacc) as (q & Hq & Hle). congruence.
Qed.

Lemma init_covered (node_id : Z) (name : string) :
  Acceptor.covered (Acceptor.__init__ node_id name).
Proof. intros m v H. discriminate. Qed.

Lemma prepare_covered a n :
  Acceptor.covered a → Acceptor.covered (Acceptor.prepare a n).2.
Proof.
  intros Hcov. by apply (within_promise_step a (Acceptor.Prepare n)).
Qed.

Lemma prepare_promised_from a n :
  Acceptor.promised_from n (Acceptor.prepare a n).2.
Proof.
  unfold Acceptor.promised_from. rewrite prepare_highest_prepare.
  destruct (Acceptor.may_promise a n) eqn:Hg.
  - exists n. split; [done | apply pn_le_refl].
  - unfold Acceptor.may_promise in Hg.
    destruct (Acceptor.highest_prepare a) as [p|]; [|done].
    exists p. split; [done | by apply gt_false].
Qed.

Lemma prepare_keeps_promised_from a n n' :
  Acceptor.promised_from n a →
  Acceptor.promised_from n (Acceptor.prepare a n').2.
Proof.
  intros (p & Hp & Hle).
  destruct (step_promised_mono a (Acceptor.Prepare n') p Hp) as (q & Hq & Hpq).
  exists q. split; [done | by eapply pn_le_trans].
Qed.

Lemma accept_covered a n (v : Value) :
  Acceptor.covered a → Acceptor.promised_from n a →
  Acceptor.covered (Acceptor.accept a n v).2.
Proof.
  intros Hcov (p & Hp & Hle).
  apply (within_promise_step a (Acceptor.Accept n v)); [done|].
  simpl. rewrite Hp, andb_true_r. by apply le_spec.
Qed.

Lemma accept_keeps_promised_from a n n' (v : Value) :
  Acceptor.promised_from n a →
  Acceptor.promised_from n (Acceptor.accept a n' v).2.
Proof. unfold Acceptor.promised_from. by rewrite accept_highest_prepare. Qed.

(** Phase 1 keeps the store covered and leaves every acceptor of the list
    with a promise of at least [n]. *)
Lemma phase1_covered n (acceptors : list nat) :
  ∀ σ (promises : list Message.t),
    Forall Acceptor.covered σ →
    Forall Acceptor.covered (Proposer.phase1 n acceptors σ promises).2 ∧
    length (Proposer.phase1 n acceptors σ promises).2 = length σ ∧
    ∀ (i : nat) a,
      (Proposer.phase1 n acceptors σ promises).2 !! i = Some a →
      i ∈ acceptors ∨ (∃ a0, σ !! i = Some a0 ∧ Acceptor.promised_from n a0) →
      Acceptor.promised_from n a.
Proof.
  induction acceptors as [|r rest IH]; intros σ promises Hcov; simpl.
  - split; [done|]. split; [done|].
    intros i a Hi [Hin | (a0 & Ha0 & Hb)]; [by apply elem_of_nil in Hin|].
    congruence.
  - destruct (σ !! r) as [acc|] eqn:Hr.
    + destruct (Acceptor.prepare acc n) as [response acc'] eqn:Hprep.
      assert (acc' = (Acceptor.prepare acc n).2) as Hacc' by by rewrite Hprep.
      assert (Forall Acceptor.covered (<[r:=acc']> σ)) as Hcov'.
      { apply Forall_insert; [done|]. rewrite Hacc'.
        apply prepare_covered. by eapply Forall_lookup_1. }
      destruct (IH (<[r:=acc']> σ)
                  (match response with
                   | Some m => promises ++ [m]
                   | None => promises
                   end) Hcov') as (IHcov & IHlen & IHb).
      split; [done|]. split; [by rewrite IHlen, length_insert|].
      intros i a Hi Hor. apply (IHb i a Hi).
      destruct (decide (i = r)) as [->|Hne].
      * right. exists acc'. split.
        -- apply list_lookup_insert_eq. by eapply lookup_lt_Some.
        -- rewrite Hacc'. destruct Hor as [_ | (a0 & Ha0 & Hb)].
           ++ apply prepare_promised_from.
           ++ assert (a0 = acc) as -> by congruence.
              by apply prepare_keeps_promised_from.
      * destruct Hor as [[->|Hin]%elem_of_cons | (a0 & Ha0 & Hb)];
          [done | by left |].
        right. exists a0. split; [|done]. by rewrite list_lookup_insert_ne.
    + destruct (IH σ promises Hcov) as (IHcov & IHlen & IHb).
      split; [done|]. split; [done|].
      intros i a Hi Hor. apply (IHb i a Hi).
      destruct Hor as [[->|Hin]%elem_of_cons | Hb]; [| by left | by right].
      exfalso. apply lookup_ge_None in Hr.
      apply lookup_lt_Some in Hi. lia.
Qed.

(** Phase 2 keeps a store covered once the acceptors of the list have a
    promise of at least [n]. *)
Lemma phase2_covered n (final_value : Value) (promises : list Message.t)
    (acceptors : list nat) :
  ∀ σ (accepts : list Message.t),
    Forall Acceptor.covered σ →
    (∀ (i : nat) a, i ∈ acceptors → σ !! i = Some a →
                    Acceptor.promised_from n a) →
    Forall Acceptor.covered
      (Proposer.phase2 n final_value promises acceptors σ accepts).2.
Proof.
  induction acceptors as [|r rest IH]; intros σ accepts Hcov Hb; simpl; [done|].
  assert (∀ (i : nat) a, i ∈ rest → σ !! i = Some a →
                         Acceptor.promised_from n a) as Hrest.
  { intros i a Hin. apply Hb, elem_of_cons. by right. }
  destruct (σ !! r) as [acc|] eqn:Hr; [|by apply IH].
  destruct (Proposer.promised_by promises acc); [|by apply IH].
  destruct (Acceptor.accept acc n final_value) as [response acc'] eqn:Hacc.
  assert (acc' = (Acceptor.accept acc n final_value).2) as Hacc'
    by by rewrite Hacc.
  assert (Acceptor.promised_from n acc) as Hacc_b.
  { apply (Hb r acc); [apply elem_of_cons; by left | done]. }
  apply IH.
  - apply Forall_insert; [done|]. rewrite Hacc'.
    apply accept_covered; [by eapply Forall_lookup_1 | done].
  - intros i a Hin Hi. destruct (decide (i = r)) as [->|Hne].
    + rewrite list_lookup_insert_eq in Hi by by eapply lookup_lt_Some.
      injection Hi as <-. rewrite Hacc'. by apply accept_keeps_promised_from.
    + rewrite list_lookup_insert_ne in Hi by done. by apply (Hrest i a).
Qed.

(** A round keeps every acceptor of the store covered, hence in A1. *)
Lemma propose_covered (self : Proposer.t) (value : Value)
    (acceptors : list nat) σ :
  Forall Acceptor.covered σ →
  Forall Acceptor.covered (Proposer.propose self value acceptors σ).2.
Proof.
  intros Hcov. unfold Proposer.propose.
  set (n := ProposalNumber.mk (Proposer.seq self + 1) (Proposer.node_id self)).
  simpl Proposer.seq. simpl Proposer.node_id. fold n.
  destruct (phase1_covered n acceptors σ [] Hcov) as (H1 & _ & Hb).
  destruct (Proposer.phase1 n acceptors σ []) as [promises σ1]. simpl in *.
  destruct (Z.of_nat (length promises) <? _); [done|].
  set (final_value :=
         Proposer._choose_value_following_paxos_constraint value promises).
  assert (Forall Acceptor.covered
            (Proposer.phase2 n final_value promises acceptors σ1 []).2) as H2.
  { apply phase2_covered; [done|]. intros i a Hin Hi. apply (Hb i a Hi). by left. }
  destruct (Proposer.phase2 n final_value promises acceptors σ1 [])
    as [accepts σ2]. simpl in *.
  by destruct (Z.of_nat (length accepts) >=? _).
Qed.

Lemma propose_A1 (self : Proposer.t) (value : Value)
    (acceptors : list nat) σ :
  Forall Acceptor.covered σ →
  Forall Acceptor.A1 (Proposer.propose self value acceptors σ).2.
Proof.
  intros Hcov. eapply Forall_impl; [by apply propose_covered|].
  apply covered_A1.
Qed.
End rounds.

(** * Further properties of the code *)

(** ** [ProposalNumber]: the comparison methods *)

Lemma lt_spec (a b : ProposalNumber.t) :
  ProposalNumber.__lt__ a b = true ↔ ProposalNumber.lt a b.
Proof.
  unfold ProposalNumber.__lt__, ProposalNumber.lt, Tuple.lt; simpl.
  destruct (Z.eqb_spec (ProposalNumber.seq a) (ProposalNumber.seq b));
    destruct (Z.eqb_spec (ProposalNumber.node_id a) (ProposalNumber.node_id b));
    simpl; rewrite ?Z.ltb_lt; lia.
Qed.

Lemma eq_spec (a b : ProposalNumber.t) :
  ProposalNumber.__eq__ a b = true ↔
  ProposalNumber.seq a = ProposalNumber.seq b ∧
  ProposalNumber.node_id a = ProposalNumber.node_id b.
Proof.
  unfold ProposalNumber.__eq__, Tuple.eq; simpl.
  rewrite andb_true_iff, !Z.eqb_eq. done.
Qed.

Lemma pn_eq_fields (a b : ProposalNumber.t) :
  a = b ↔
  ProposalNumber.seq a = ProposalNumber.seq b ∧
  ProposalNumber.node_id a = ProposalNumber.node_id b.
Proof.
  destruct a, b; simpl. split; [by intros [= -> ->] | by intros [-> ->]].
Qed.

(** The five comparison methods describe one strict total order on the
    pairs [(seq, node_id)]: of [<], [==] and [>] exactly one holds; [==]
    holds for equal fields only; [<=] and [>=] are [<] or [==] and [>] or
    [==]; [>] and [>=] are [<] and [<=] with the sides exchanged; and [<]
    is transitive. *)
Theorem comparison_total_order (a b c : ProposalNumber.t) :
  ((ProposalNumber.__lt__ a b = true ∧ ProposalNumber.__eq__ a b = false ∧
    ProposalNumber.__gt__ a b = false) ∨
   (ProposalNumber.__lt__ a b = false ∧ ProposalNumber.__eq__ a b = true ∧
    ProposalNumber.__gt__ a b = false) ∨
   (ProposalNumber.__lt__ a b = false ∧ ProposalNumber.__eq__ a b = false ∧
    ProposalNumber.__gt__ a b = true)) ∧
  (ProposalNumber.__eq__ a b = true ↔ a = b) ∧
  ProposalNumber.__le__ a b =
    ProposalNumber.__lt__ a b || ProposalNumber.__eq__ a b ∧
  ProposalNumber.__ge__ a b =
    ProposalNumber.__gt__ a b || ProposalNumber.__eq__ a b ∧
  ProposalNumber.__gt__ a b = ProposalNumber.__lt__ b a ∧
  ProposalNumber.__ge__ a b = ProposalNumber.__le__ b a ∧
  (ProposalNumber.__lt__ a b = true → ProposalNumber.__lt__ b c = true →
   ProposalNumber.__lt__ a c = true).
Proof.
  pose proof (lt_spec a b) as Hlt. pose proof (lt_spec b a) as Hlt'.
  pose proof (eq_spec a b) as Heq. pose proof (gt_spec a b) as Hgt.
  pose proof (le_spec a b) as Hle. pose proof (le_spec b a) as Hle'.
  pose proof (ge_spec a b) as Hge.
  unfold ProposalNumber.lt, ProposalNumber.le in *.
  split; [|split; [|split; [|split; [|split; [|split]]]]].
  - destruct (ProposalNumber.__lt__ a b), (ProposalNumber.__eq__ a b),
      (ProposalNumber.__gt__ a b); intuition (try discriminate; try lia).
  - rewrite pn_eq_fields. done.
  - destruct (ProposalNumber.__lt__ a b), (ProposalNumber.__eq__ a b),
      (ProposalNumber.__le__ a b); simpl; intuition (try discriminate; try lia).
  - destruct (ProposalNumber.__gt__ a b), (ProposalNumber.__eq__ a b),
      (ProposalNumber.__ge__ a b); simpl; intuition (try discriminate; try lia).
  - destruct (ProposalNumber.__gt__ a b), (ProposalNumber.__lt__ b a);
      intuition (try discriminate; try lia).
  - destruct (ProposalNumber.__ge__ a b), (ProposalNumber.__le__ b a);
      intuition (try discriminate; try lia).
  - rewrite !lt_spec. unfold ProposalNumber.lt. lia.
Qed.

(** ** [Acceptor]: a granted [prepare], and what the state records *)

(** [prepare(n)] with no promise set, or with [n] above the promised
    number, sets the promised number to [n], leaves the accepted pair, and
    returns a PROMISE from this acceptor with the sequence number of [n],
    no value, and the accepted pair reduced to the sequence number of its
    proposal and its value ([None] if nothing was accepted). *)
Theorem prepare_spec (a : Acceptor.t) (n : ProposalNumber.t) :
  (Acceptor.highest_prepare a = None ∨
   ∃ p, Acceptor.highest_prepare a = Some p ∧ ProposalNumber.lt p n) →
  Acceptor.prepare a n =
    (Some (Message.mk "PROMISE" (Acceptor.node_id a) 0 (ProposalNumber.seq n)
             VNone
             ((λ mv, (ProposalNumber.seq mv.1, mv.2)) <$> Acceptor.accepted a)),
     Acceptor.mk (Acceptor.node_id a) (Acceptor.name a) (Some n)
       (Acceptor.accepted a)).
Proof.
  intros H. apply may_promise_spec in H.
  unfold Acceptor.prepare. rewrite H. simpl.
  by destruct (Acceptor.accepted a) as [[m v]|].
Qed.

Lemma prepare_spec_witness :
  let a := Acceptor.mk 10 "X" (Some (ProposalNumber.mk 3 2))
             (Some (ProposalNumber.mk 3 1, VStr "A")) in
  Acceptor.prepare a (ProposalNumber.mk 4 1) =
    (Some (Message.mk "PROMISE" 10 0 4 VNone (Some (3, VStr "A"))),
     Acceptor.mk 10 "X" (Some (ProposalNumber.mk 4 1))
       (Some (ProposalNumber.mk 3 1, VStr "A"))).
Proof.
  cbv zeta.
  apply (prepare_spec (Acceptor.mk 10 "X" (Some (ProposalNumber.mk 3 2))
                         (Some (ProposalNumber.mk 3 1, VStr "A")))
           (ProposalNumber.mk 4 1)).
  right. exists (ProposalNumber.mk 3 2). split; [reflexivity|].
  unfold ProposalNumber.lt; simpl; lia.
Defined.

Lemma run_promised_from (n : ProposalNumber.t) (calls : list Acceptor.call) :
  ∀ a, Acceptor.promised_from n a →
       Acceptor.promised_from n (Acceptor.run a calls).
Proof.
  induction calls as [|c calls IH]; intros a Ha; [done|].
  rewrite run_cons. apply IH.
  destruct Ha as (p & Hp & Hle).
  destruct (step_promised_mono a c p Hp) as (q & Hq & Hpq).
  exists q. split; [done | by eapply pn_le_trans].
Qed.

(** The promise is kept: once [prepare(n)] was granted, every
    [accept(m, v)] with [m] below [n] is refused and changes nothing,
    whatever calls the acceptor received in between. *)
Theorem promise_is_kept (a : Acceptor.t) (n m : ProposalNumber.t)
    (calls : list Acceptor.call) (v : Value) :
  Acceptor.may_promise a n = true →
  ProposalNumber.lt m n →
  Acceptor.accept (Acceptor.run (Acceptor.prepare a n).2 calls) m v =
    (None, Acceptor.run (Acceptor.prepare a n).2 calls).
Proof.
  intros Hg Hlt.
  destruct (run_promised_from n calls (Acceptor.prepare a n).2
              (prepare_promised_from a n)) as (p & Hp & Hle).
  unfold Acceptor.accept, Acceptor.may_accept. rewrite Hp.
  assert (ProposalNumber.__ge__ m p = false) as ->; [|done].
  apply ge_false. unfold ProposalNumber.lt, ProposalNumber.le in *. lia.
Qed.

Lemma promise_is_kept_witness :
  let a := Acceptor.__init__ 10 "X" in
  let calls := [Acceptor.Accept (ProposalNumber.mk 5 1) (VStr "A");
                Acceptor.Prepare (ProposalNumber.mk 7 2);
                Acceptor.Prepare (ProposalNumber.mk 6 1)] in
  Acceptor.accept (Acceptor.run (Acceptor.prepare a (ProposalNumber.mk 5 1)).2 calls)
    (ProposalNumber.mk 4 9) (VStr "B") =
  (None, Acceptor.run (Acceptor.prepare a (ProposalNumber.mk 5 1)).2 calls).
Proof.
  cbv zeta.
  apply (promise_is_kept (Acceptor.__init__ 10 "X") (ProposalNumber.mk 5 1)
           (ProposalNumber.mk 4 9)).
  - reflexivity.
  - unfold ProposalNumber.lt; simpl; lia.
Defined.

Lemma run_highest_prepare (node_id : Z) (name : string)
    (calls : list Acceptor.call) :
  match Acceptor.highest_prepare (Acceptor.run (Acceptor.__init__ node_id name) calls) with
  | Some p =>
      Acceptor.Prepare p ∈ calls ∧
      ∀ q, Acceptor.Prepare q ∈ calls → ProposalNumber.le q p
  | None => ∀ q, Acceptor.Prepare q ∉ calls
  end.
Proof.
  induction calls as [|c calls IH] using rev_ind.
  - simpl. intros q H. by apply elem_of_nil in H.
  - rewrite run_snoc.
    set (a := Acceptor.run (Acceptor.__init__ node_id name) calls) in *.
    destruct c as [n | n v]; simpl.
    + rewrite prepare_highest_prepare. unfold Acceptor.may_promise.
      destruct (Acceptor.highest_prepare a) as [p|] eqn:Hp.
      * destruct IH as [Hin Hmax].
        destruct (ProposalNumber.__gt__ n p) eqn:Hg.
        -- apply gt_spec in Hg.
           split; [apply elem_of_app; right; by apply list_elem_of_singleton|].
           intros q [Hq | Hq]%elem_of_app.
           ++ eauto using pn_le_trans, pn_lt_le.
           ++ apply list_elem_of_singleton in Hq as [= ->]. apply pn_le_refl.
        -- apply gt_false in Hg. split; [apply elem_of_app; by left|].
           intros q [Hq | Hq]%elem_of_app; [by apply Hmax|].
           by apply list_elem_of_singleton in Hq as [= ->].
      * split; [apply elem_of_app; right; by apply list_elem_of_singleton|].
        intros q [Hq | Hq]%elem_of_app; [by apply IH in Hq|].
        apply list_elem_of_singleton in Hq as [= ->]. apply pn_le_refl.
    + rewrite accept_highest_prepare.
      destruct (Acceptor.highest_prepare a) as [p|].
      * destruct IH as [Hin Hmax]. split; [apply elem_of_app; by left|].
        intros q [Hq | Hq]%elem_of_app; [by apply Hmax|].
        by apply list_elem_of_singleton in Hq.
      * intros q [Hq | Hq]%elem_of_app; [by apply IH in Hq|].
        by apply list_elem_of_singleton in Hq.
Qed.

(** The promised number of an acceptor is the highest number of the
    [prepare] calls it has received since it was created: it is [p]
    exactly when [prepare(p)] was received and no [prepare] call had a
    higher number, and it is unset exactly when no [prepare] call was
    received. *)
Theorem highest_prepare_is_max (node_id : Z) (name : string)
    (calls : list Acceptor.call) :
  (∀ p, Acceptor.highest_prepare
          (Acceptor.run (Acceptor.__init__ node_id name) calls) = Some p ↔
        Acceptor.Prepare p ∈ calls ∧
        ∀ q, Acceptor.Prepare q ∈ calls → ProposalNumber.le q p) ∧
  (Acceptor.highest_prepare
     (Acceptor.run (Acceptor.__init__ node_id name) calls) = None ↔
   ∀ q, Acceptor.Prepare q ∉ calls).
Proof.
  pose proof (run_highest_prepare node_id name calls) as H.
  destruct (Acceptor.highest_prepare
              (Acceptor.run (Acceptor.__init__ node_id name) calls)) as [p0|].
  - destruct H as [Hin Hmax]. split.
    + intros p. split.
      * by intros [= <-].
      * intros [Hp Hpmax]. f_equal. apply pn_le_antisym; auto.
    + split; [done|]. intros Hno. by apply Hno in Hin.
  - split; [|done]. intros p. split; [done|]. intros [Hp _]. by apply H in Hp.
Qed.

(** An acceptor holds only what it was sent: its accepted pair, when set,
    is the number and the value of one of the [accept] calls it has
    received since it was created, and no [prepare] call received before
    that call had a higher number. *)
Theorem accepted_was_sent (node_id : Z) (name : string)
    (calls : list Acceptor.call) (n : ProposalNumber.t) (v : Value) :
  Acceptor.accepted (Acceptor.run (Acceptor.__init__ node_id name) calls)
    = Some (n, v) →
  ∃ before after,
    calls = before ++ Acceptor.Accept n v :: after ∧
    ∀ q, Acceptor.Prepare q ∈ before → ProposalNumber.le q n.
Proof.
  revert n v. induction calls as [|c calls IH] using rev_ind; intros n v.
  - done.
  - rewrite run_snoc.
    pose proof (run_highest_prepare node_id name calls) as Hmax.
    set (a := Acceptor.run (Acceptor.__init__ node_id name) calls) in *.
    destruct c as [m | m w]; simpl.
    + rewrite prepare_accepted. intros Hacc.
      destruct (IH n v Hacc) as (before & after & -> & Hb).
      exists before, (after ++ [Acceptor.Prepare m]).
      split; [by rewrite <- app_assoc | done].
    + rewrite accept_accepted.
      destruct (Acceptor.may_accept a m) eqn:Hg.
      * intros [= -> ->]. exists calls, []. split; [done|].
        intros q Hq. apply may_accept_spec in Hg as [Hnone | (p & Hp & Hle)].
        -- rewrite Hnone in Hmax. by apply Hmax in Hq.
        -- rewrite Hp in Hmax. destruct Hmax as [_ Hmax].
           eauto using pn_le_trans.
      * intros Hacc. destruct (IH n v Hacc) as (before & after & -> & Hb).
        exists before, (after ++ [Acceptor.Accept m w]).
        split; [by rewrite <- app_assoc | done].
Qed.

Lemma accepted_was_sent_witness :
  let calls := [Acceptor.Prepare (ProposalNumber.mk 1 1);
                Acceptor.Accept (ProposalNumber.mk 2 1) (VStr "A");
                Acceptor.Prepare (ProposalNumber.mk 3 1);
                Acceptor.Accept (ProposalNumber.mk 1 1) (VStr "B")] in
  Acceptor.accepted (Acceptor.run (Acceptor.__init__ 10 "X") calls)
    = Some (ProposalNumber.mk 2 1, VStr "A") ∧
  ∃ before after,
    calls = before ++ Acceptor.Accept (ProposalNumber.mk 2 1) (VStr "A") :: after ∧
    ∀ q, Acceptor.Prepare q ∈ before → ProposalNumber.le q (ProposalNumber.mk 2 1).
Proof.
  cbv zeta. split; [reflexivity|].
  apply (accepted_was_sent 10 "X"). reflexivity.
Defined.

(** ** [Proposer.propose]: what a round does to the store *)

Section store_facts.
Implicit Types (σ : heap) (a : Acceptor.t) (n : ProposalNumber.t).
Implicit Types (R : Acceptor.t → Acceptor.t → Prop).

Lemma insert_related R σ (r : nat) a a' :
  (∀ x, R x x) → σ !! r = Some a → R a a' → Forall2 R σ (<[r:=a']> σ).
Proof.
  intros Hrefl Hr HR. apply Forall2_same_length_lookup.
  split; [by rewrite length_insert|].
  intros i x y Hx Hy. destruct (decide (i = r)) as [->|Hne].
  - rewrite list_lookup_insert_eq in Hy by by eapply lookup_lt_Some.
    congruence.
  - rewrite list_lookup_insert_ne in Hy by done.
    assert (x = y) as -> by congruence. apply Hrefl.
Qed.

Lemma phase1_related R n (acceptors : list nat) :
  (∀ x, R x x) → (∀ x y z, R x y → R y z → R x z) →
  (∀ a, R a (Acceptor.prepare a n).2) →
  ∀ σ (promises : list Message.t),
    Forall2 R σ (Proposer.phase1 n acceptors σ promises).2.
Proof.
  intros Hrefl Htrans Hstep.
  induction acceptors as [|r rest IH]; intros σ promises; simpl.
  - by apply Forall_Forall2_diag, Forall_true.
  - destruct (σ !! r) as [acc|] eqn:Hr; [|apply IH].
    pose proof (Hstep acc) as HR.
    destruct (Acceptor.prepare acc n) as [response acc']. simpl in HR.
    eapply Forall2_trans; [apply Htrans | | apply IH].
    by eapply insert_related.
Qed.

Lemma phase2_related R n (v : Value) (promises : list Message.t)
    (acceptors : list nat) :
  (∀ x, R x x) → (∀ x y z, R x y → R y z → R x z) →
  (∀ a, R a (Acceptor.accept a n v).2) →
  ∀ σ (accepts : list Message.t),
    Forall2 R σ (Proposer.phase2 n v promises acceptors σ accepts).2.
Proof.
  intros Hrefl Htrans Hstep.
  induction acceptors as [|r rest IH]; intros σ accepts; simpl.
  - by apply Forall_Forall2_diag, Forall_true.
  - destruct (σ !! r) as [acc|] eqn:Hr; [|apply IH].
    destruct (Proposer.promised_by promises acc); [|apply IH].
    pose proof (Hstep acc) as HR.
    destruct (Acceptor.accept acc n v) as [response acc']. simpl in HR.
    eapply Forall2_trans; [apply Htrans | | apply IH].
    by eapply insert_related.
Qed.

(** The acceptors that the list does not name are left alone. *)
Lemma phase1_unlisted n (acceptors : list nat) (i : nat) :
  i ∉ acceptors →
  ∀ σ (promises : list Message.t),
    (Proposer.phase1 n acceptors σ promises).2 !! i = σ !! i.
Proof.
  induction acceptors as [|r rest IH]; intros Hi σ promises; simpl; [done|].
  apply not_elem_of_cons in Hi as [Hne Hi].
  destruct (σ !! r) as [acc|] eqn:Hr; [|by apply IH].
  destruct (Acceptor.prepare acc n) as [response acc'].
  rewrite IH by done. by rewrite list_lookup_insert_ne.
Qed.

Lemma phase2_unlisted n (v : Value) (promises : list Message.t)
    (acceptors : list nat) (i : nat) :
  i ∉ acceptors →
  ∀ σ (accepts : list Message.t),
    (Proposer.phase2 n v promises acceptors σ accepts).2 !! i = σ !! i.
Proof.
  induction acceptors as [|r rest IH]; intros Hi σ accepts; simpl; [done|].
  apply not_elem_of_cons in Hi as [Hne Hi].
  destruct (σ !! r) as [acc|] eqn:Hr; [|by apply IH].
  destruct (Proposer.promised_by promises acc); [|by apply IH].
  destruct (Acceptor.accept acc n v) as [response acc'].
  rewrite IH by done. by rewrite list_lookup_insert_ne.
Qed.

Lemma promised_more_refl n a : Proposer.promised_more n a a.
Proof. unfold Proposer.promised_more. auto. Qed.

Lemma promised_more_trans n a1 a2 a3 :
  Proposer.promised_more n a1 a2 → Proposer.promised_more n a2 a3 →
  Proposer.promised_more n a1 a3.
Proof.
  unfold Proposer.promised_more, Acceptor.may_promise.
  intros (Hi & Hn & Ha & Hp) (Hi' & Hn' & Ha' & Hp').
  repeat split; try congruence.
  destruct Hp as [Hp | [Hp Hg]], Hp' as [Hp' | [Hp' Hg']].
  - left. congruence.
  - right. split; [done|]. by rewrite <- Hp.
  - right. split; [congruence | done].
  - right. done.
Qed.

Lemma prepare_promised_more n a :
  Proposer.promised_more n a (Acceptor.prepare a n).2.
Proof.
  unfold Proposer.promised_more, Acceptor.prepare.
  destruct (Acceptor.may_promise a n) eqn:Hg; simpl; auto 6.
Qed.

Lemma accepted_more_refl n (v : Value) a : Proposer.accepted_more n v a a.
Proof. unfold Proposer.accepted_more. auto. Qed.

Lemma accepted_more_trans n (v : Value) a1 a2 a3 :
  Proposer.accepted_more n v a1 a2 → Proposer.accepted_more n v a2 a3 →
  Proposer.accepted_more n v a1 a3.
Proof.
  unfold Proposer.accepted_more.
  intros (Hi & Hn & Hp & Ha) (Hi' & Hn' & Hp' & Ha').
  repeat split; try congruence.
  destruct Ha as [Ha | Ha], Ha' as [Ha' | Ha']; [left | right ..]; congruence.
Qed.

Lemma accept_accepted_more n (v : Value) a :
  Proposer.accepted_more n v a (Acceptor.accept a n v).2.
Proof.
  unfold Proposer.accepted_more, Acceptor.accept.
  destruct (Acceptor.may_accept a n); simpl; auto 6.
Qed.

Lemma phase1_promised_more n (acceptors : list nat) σ
    (promises : list Message.t) :
  Forall2 (Proposer.promised_more n) σ
    (Proposer.phase1 n acceptors σ promises).2.
Proof.
  apply phase1_related;
    eauto using promised_more_refl, promised_more_trans, prepare_promised_more.
Qed.

Lemma phase2_accepted_more n (v : Value) (promises : list Message.t)
    (acceptors : list nat) σ (accepts : list Message.t) :
  Forall2 (Proposer.accepted_more n v) σ
    (Proposer.phase2 n v promises acceptors σ accepts).2.
Proof.
  apply phase2_related;
    eauto using accepted_more_refl, accepted_more_trans, accept_accepted_more.
Qed.
End store_facts.

Section round_counts.
Implicit Types (σ : heap) (a : Acceptor.t) (n : ProposalNumber.t).
Implicit Types (promises accepts : list Message.t) (acceptors : list nat).

(** The PROMISE that an acceptor in state [a] returns for [n]. *)
Let promise_of n a : Message.t :=
  Message.mk "PROMISE" (Acceptor.node_id a) 0 (ProposalNumber.seq n) VNone
    ((λ mv, (ProposalNumber.seq mv.1, mv.2)) <$> Acceptor.accepted a).

Lemma prepare_response n a (m : Message.t) :
  (Acceptor.prepare a n).1 = Some m →
  m = promise_of n a ∧ Acceptor.highest_prepare (Acceptor.prepare a n).2 = Some n.
Proof.
  unfold Acceptor.prepare, promise_of.
  destruct (Acceptor.may_promise a n); simpl; [|done].
  intros [= <-]. by destruct (Acceptor.accepted a) as [[? ?]|].
Qed.

Lemma promised_by_spec promises a :
  Proposer.promised_by promises a = true ↔
  ∃ m, m ∈ promises ∧ Message.sender m = Acceptor.node_id a.
Proof.
  unfold Proposer.promised_by. rewrite existsb_exists. split.
  - intros (s & Hs & Heq). apply Z.eqb_eq in Heq.
    apply in_map_iff in Hs as (m & <- & Hm).
    exists m. split; [by apply list_elem_of_In | done].
  - intros (m & Hm & Heq). exists (Message.sender m). split.
    + apply in_map. by apply list_elem_of_In.
    + by apply Z.eqb_eq.
Qed.

(** The promises that Phase 1 adds come from acceptors of the list, each
    in the state that the acceptor had when the round began, as far as
    its node id and accepted pair go. *)
Lemma phase1_promises n acceptors :
  ∀ σ promises,
    ∃ new,
      (Proposer.phase1 n acceptors σ promises).1 = promises ++ new ∧
      (length new <= length acceptors)%nat ∧
      Forall (λ m, ∃ (r : nat) a, r ∈ acceptors ∧ σ !! r = Some a ∧
                                  m = promise_of n a) new.
Proof.
  induction acceptors as [|r rest IH]; intros σ promises; simpl.
  - exists []. by rewrite app_nil_r.
  - destruct (σ !! r) as [acc|] eqn:Hr.
    + pose proof (prepare_response n acc) as Hresp.
      pose proof (prepare_promised_more n acc) as Hmore.
      destruct (Acceptor.prepare acc n) as [response acc']. simpl in *.
      assert (Forall2 (Proposer.promised_more n) σ (<[r:=acc']> σ)) as Hrel
        by (eapply insert_related; eauto using promised_more_refl).
      assert (∀ new', Forall (λ m, ∃ (r0 : nat) a, r0 ∈ rest ∧
                         <[r:=acc']> σ !! r0 = Some a ∧ m = promise_of n a) new' →
                      Forall (λ m, ∃ (r0 : nat) a, r0 ∈ r :: rest ∧
                         σ !! r0 = Some a ∧ m = promise_of n a) new') as Hback.
      { intros new' Hnew'. eapply Forall_impl; [exact Hnew'|].
        intros m (r0 & a1 & Hin & Hl & ->).
        destruct (Forall2_lookup_r _ _ _ _ _ Hrel Hl) as (a0 & Hl0 & Hm).
        exists r0, a0. split; [apply elem_of_cons; by right|]. split; [done|].
        destruct Hm as (Hid & _ & Hacc & _).
        unfold promise_of. by rewrite Hid, Hacc. }
      destruct response as [m|].
      * destruct (IH (<[r:=acc']> σ) (promises ++ [m])) as (new & Heq & Hlen & Hall).
        exists (m :: new). rewrite Heq, <- app_assoc. split; [done|].
        split; [simpl; lia|]. constructor; [|by apply Hback].
        exists r, acc. split; [apply elem_of_cons; by left|]. split; [done|].
        by destruct (Hresp m eq_refl).
      * destruct (IH (<[r:=acc']> σ) promises) as (new & Heq & Hlen & Hall).
        exists new. split; [done|]. split; [lia | by apply Hback].
    + destruct (IH σ promises) as (new & Heq & Hlen & Hall).
      exists new. split; [done|]. split; [lia|].
      eapply Forall_impl; [done|]. intros m (r0 & a & Hin & Hl & ->).
      exists r0, a. split; [apply elem_of_cons; by right | done].
Qed.

(** An acceptor is ready for [accept(n, _)] when its promise is [n] and
    its node id is the sender of a promise. *)
Let ready n promises σ (r : nat) : bool :=
  match σ !! r with
  | Some a =>
      Proposer.promised_by promises a &&
      bool_decide (Acceptor.highest_prepare a = Some n)
  | None => false
  end.

Let ones (f : nat → bool) acceptors : nat :=
  sum_list_with (λ r, if f r then 1%nat else 0%nat) acceptors.

Lemma ones_ext (f g : nat → bool) acceptors :
  (∀ r, f r = g r) → ones f acceptors = ones g acceptors.
Proof.
  intros H. unfold ones. induction acceptors as [|r rest IH]; simpl; [done|].
  by rewrite H, IH.
Qed.

(** Phase 2 collects an ACCEPTED from every entry that is ready. *)
Lemma phase2_count_ge n (v : Value) promises acceptors :
  ∀ σ accepts,
    (length accepts + ones (ready n promises σ) acceptors <=
     length (Proposer.phase2 n v promises acceptors σ accepts).1)%nat.
Proof.
  induction acceptors as [|r rest IH]; intros σ accepts; simpl.
  - unfold ones; simpl. lia.
  - unfold ones in *; simpl. unfold ready at 1.
    destruct (σ !! r) as [acc|] eqn:Hr; [|specialize (IH σ accepts); lia].
    destruct (Proposer.promised_by promises acc) eqn:Hby; simpl;
      [|specialize (IH σ accepts); lia].
    pose proof (accept_accepted_more n v acc) as Hmore.
    assert (Acceptor.highest_prepare acc = Some n →
            (Acceptor.accept acc n v).1 ≠ None) as Hgrant.
    { intros Hp. rewrite accept_rejects. unfold Acceptor.may_accept.
      by rewrite Hp, ge_refl. }
    destruct (Acceptor.accept acc n v) as [response acc']. simpl in *.
    assert (∀ i, ready n promises (<[r:=acc']> σ) i = ready n promises σ i)
      as Hsame.
    { intros i. unfold ready. destruct (decide (i = r)) as [->|Hne].
      - rewrite list_lookup_insert_eq by by eapply lookup_lt_Some.
        rewrite Hr. destruct Hmore as (Hid & _ & Hp & _).
        unfold Proposer.promised_by. by rewrite Hid, Hp.
      - by rewrite list_lookup_insert_ne. }
    pose proof (ones_ext _ _ rest Hsame) as Hones. unfold ones in Hones.
    case_bool_decide as Hp.
    + destruct response as [m|]; [|by destruct (Hgrant Hp)].
      specialize (IH (<[r:=acc']> σ) (accepts ++ [m])).
      rewrite length_app in IH. simpl in IH. lia.
    + destruct response as [m|].
      * specialize (IH (<[r:=acc']> σ) (accepts ++ [m])).
        rewrite length_app in IH. simpl in IH. lia.
      * specialize (IH (<[r:=acc']> σ) accepts). lia.
Qed.

(** Every promise of Phase 1 comes from an entry that is ready when
    Phase 1 ends. *)
Lemma phase1_count_le n acceptors :
  ∀ σ promises,
    (length (Proposer.phase1 n acceptors σ promises).1 <=
     length promises +
     ones (ready n (Proposer.phase1 n acceptors σ promises).1
             (Proposer.phase1 n acceptors σ promises).2) acceptors)%nat.
Proof.
  induction acceptors as [|r rest IH]; intros σ promises; simpl.
  - unfold ones; simpl. lia.
  - destruct (σ !! r) as [acc|] eqn:Hr.
    + pose proof (prepare_response n acc) as Hresp.
      pose proof (prepare_promised_more n acc) as Hmore.
      destruct (Acceptor.prepare acc n) as [response acc']. simpl in *.
      destruct response as [m|].
      * specialize (IH (<[r:=acc']> σ) (promises ++ [m])).
        destruct (phase1_promises n rest (<[r:=acc']> σ) (promises ++ [m]))
          as (new & Heq & _ & _).
        pose proof (phase1_promised_more n rest (<[r:=acc']> σ) (promises ++ [m]))
          as Hrel.
        destruct (Proposer.phase1 n rest (<[r:=acc']> σ) (promises ++ [m]))
          as [promises' σ']. simpl in *.
        destruct (Hresp m eq_refl) as [-> Hn].
        assert (<[r:=acc']> σ !! r = Some acc') as Hl
          by (apply list_lookup_insert_eq; by eapply lookup_lt_Some).
        destruct (Forall2_lookup_l _ _ _ _ _ Hrel Hl) as (a'' & Hl'' & Hm'').
        assert (ready n promises' σ' r = true) as Hready.
        { unfold ready. rewrite Hl''. apply andb_true_iff. split.
          - apply promised_by_spec. exists (promise_of n acc). split.
            + rewrite Heq. apply elem_of_app. left. apply elem_of_app. right.
              by apply list_elem_of_singleton.
            + destruct Hm'' as (Hid & _). destruct Hmore as (Hid' & _).
              simpl. congruence.
          - apply bool_decide_eq_true.
            destruct Hm'' as (_ & _ & _ & [Hp | [Hp _]]); congruence. }
        unfold ones in *. simpl. rewrite Hready.
        rewrite length_app in IH. simpl in IH. lia.
      * specialize (IH (<[r:=acc']> σ) promises).
        destruct (Proposer.phase1 n rest (<[r:=acc']> σ) promises)
          as [promises' σ']. simpl in *.
        unfold ones in *. simpl. lia.
    + specialize (IH σ promises).
      destruct (Proposer.phase1 n rest σ promises) as [promises' σ'].
      simpl in *. unfold ones in *. simpl. lia.
Qed.

(** The entries that answered ACCEPTED hold [(n, v)] when Phase 2 ends. *)
Lemma phase2_holding n (v : Value) promises acceptors :
  ∀ σ accepts,
    (length (Proposer.phase2 n v promises acceptors σ accepts).1 <=
     length accepts +
     Proposer.holding n v
       (Proposer.phase2 n v promises acceptors σ accepts).2 acceptors)%nat.
Proof.
  unfold Proposer.holding.
  induction acceptors as [|r rest IH]; intros σ accepts; simpl; [lia|].
  rewrite filter_cons.
  destruct (σ !! r) as [acc|] eqn:Hr;
    [|specialize (IH σ accepts); case_decide; simpl; lia].
  destruct (Proposer.promised_by promises acc);
    [|specialize (IH σ accepts); case_decide; simpl; lia].
  pose proof (accept_accepted acc n v) as Hacc.
  pose proof (accept_rejects acc n v) as Hrej.
  destruct (Acceptor.accept acc n v) as [response acc']. simpl in *.
  destruct response as [m|].
  - specialize (IH (<[r:=acc']> σ) (accepts ++ [m])).
    pose proof (phase2_accepted_more n v promises rest (<[r:=acc']> σ)
                  (accepts ++ [m])) as Hrel.
    destruct (Proposer.phase2 n v promises rest (<[r:=acc']> σ) (accepts ++ [m]))
      as [accepts' σ']. simpl in *.
    assert (<[r:=acc']> σ !! r = Some acc') as Hl
      by (apply list_lookup_insert_eq; by eapply lookup_lt_Some).
    destruct (Forall2_lookup_l _ _ _ _ _ Hrel Hl) as (a'' & Hl'' & Hm'').
    assert (Acceptor.accepted acc' = Some (n, v)) as Hset.
    { rewrite Hacc. destruct (Acceptor.may_accept acc n); [done|].
      destruct Hrej as [_ Hrej]. specialize (Hrej eq_refl). discriminate. }
    assert (Acceptor.accepted <$> σ' !! r = Some (Some (n, v))) as Hhold.
    { rewrite Hl''. simpl. f_equal.
      destruct Hm'' as (_ & _ & _ & [Ha | Ha]); congruence. }
    rewrite decide_True by done. rewrite length_app in IH. simpl in *. lia.
  - specialize (IH (<[r:=acc']> σ) accepts).
    destruct (Proposer.phase2 n v promises rest (<[r:=acc']> σ) accepts)
      as [accepts' σ']. simpl in *. case_decide; simpl; lia.
Qed.
(** The value chosen is the candidate or a value that a promise reports. *)
Lemma choose_from (original_value : Value) promises :
  Proposer._choose_value_following_paxos_constraint original_value promises
    = original_value ∨
  ∃ m, (m, Proposer._choose_value_following_paxos_constraint
             original_value promises) ∈ Proposer.reported promises.
Proof.
  rewrite choose_unfold.
  destruct (scan_fold promises (-1, VNone)) as (_ & _ & [Heq | [Hin _]]).
  - rewrite Heq. by left.
  - destruct (fold_left Proposer.scan promises (-1, VNone)) as [h hv].
    simpl. destruct (is_not_None hv); [right; by exists h | by left].
Qed.

(** In this implementation Phase 2 cannot fail once Phase 1 has a
    majority: the round returns [None] when fewer than
    [len(acceptors) // 2 + 1] promises came back, and the value chosen
    from the promises otherwise.  Every acceptor that promised accepts,
    since its promise is then exactly the number of the round. *)
Theorem propose_result (self : Proposer.t) (value : Value) acceptors σ :
  let n := ProposalNumber.mk (Proposer.seq self + 1) (Proposer.node_id self) in
  let promises := (Proposer.phase1 n acceptors σ []).1 in
  (Proposer.propose self value acceptors σ).1.1 =
  if Z.of_nat (length promises) <? Z.of_nat (length acceptors) / 2 + 1
  then VNone
  else Proposer._choose_value_following_paxos_constraint value promises.
Proof.
  cbv zeta. unfold Proposer.propose. simpl Proposer.seq. simpl Proposer.node_id.
  set (n := ProposalNumber.mk (Proposer.seq self + 1) (Proposer.node_id self)).
  pose proof (phase1_count_le n acceptors σ []) as H1.
  destruct (Proposer.phase1 n acceptors σ []) as [promises σ1]. simpl in *.
  destruct (Z.ltb_spec (Z.of_nat (length promises))
              (Z.of_nat (length acceptors) / 2 + 1)) as [Hlt | Hge]; [done|].
  set (final_value :=
         Proposer._choose_value_following_paxos_constraint value promises).
  pose proof (phase2_count_ge n final_value promises acceptors σ1 []) as H2.
  destruct (Proposer.phase2 n final_value promises acceptors σ1 [])
    as [accepts σ2]. simpl in *.
  destruct (Z.geb_spec (Z.of_nat (length accepts))
              (Z.of_nat (length acceptors) / 2 + 1)) as [Hge' | Hlt']; [done|].
  lia.
Qed.

(** When a round returns a value other than [None], at least
    [len(acceptors) // 2 + 1] entries of the list of acceptors hold that
    value, accepted under the number of the round. *)
Theorem propose_majority_holds (self : Proposer.t) (value : Value)
    acceptors σ (v : Value) :
  (Proposer.propose self value acceptors σ).1.1 = v → v ≠ VNone →
  Z.of_nat (length acceptors) / 2 + 1 <=
  Z.of_nat
    (Proposer.holding
       (ProposalNumber.mk (Proposer.seq self + 1) (Proposer.node_id self)) v
       (Proposer.propose self value acceptors σ).2 acceptors).
Proof.
  unfold Proposer.propose. simpl Proposer.seq. simpl Proposer.node_id.
  set (n := ProposalNumber.mk (Proposer.seq self + 1) (Proposer.node_id self)).
  destruct (Proposer.phase1 n acceptors σ []) as [promises σ1].
  destruct (Z.of_nat (length promises) <? _); [simpl; congruence|].
  set (final_value :=
         Proposer._choose_value_following_paxos_constraint value promises).
  pose proof (phase2_holding n final_value promises acceptors σ1 []) as H2.
  destruct (Proposer.phase2 n final_value promises acceptors σ1 [])
    as [accepts σ2]. simpl in H2.
  destruct (Z.geb_spec (Z.of_nat (length accepts))
              (Z.of_nat (length acceptors) / 2 + 1)) as [Hge | Hlt];
    simpl; [|congruence].
  intros <- _. lia.
Qed.

(** A round never invents a value: it returns [None], the candidate, or
    a value that an acceptor of the list held as accepted when the round
    began. *)
Theorem propose_returns_known_value (self : Proposer.t) (value : Value)
    acceptors σ :
  (Proposer.propose self value acceptors σ).1.1 = VNone ∨
  (Proposer.propose self value acceptors σ).1.1 = value ∨
  ∃ (r : nat) a m,
    r ∈ acceptors ∧ σ !! r = Some a ∧
    Acceptor.accepted a =
      Some (m, (Proposer.propose self value acceptors σ).1.1).
Proof.
  unfold Proposer.propose. simpl Proposer.seq. simpl Proposer.node_id.
  set (n := ProposalNumber.mk (Proposer.seq self + 1) (Proposer.node_id self)).
  destruct (phase1_promises n acceptors σ []) as (new & Heq & _ & Hall).
  destruct (Proposer.phase1 n acceptors σ []) as [promises σ1].
  simpl in *. subst promises.
  destruct (Z.of_nat (length new) <? _); [by left|].
  destruct (Proposer.phase2 n _ new acceptors σ1 []) as [accepts σ2].
  destruct (Z.of_nat (length accepts) >=? _); simpl; [|by left].
  destruct (choose_from value new) as [-> | [m Hin]]; [right; by left|].
  right. right.
  unfold Proposer.reported in Hin.
  apply list_elem_of_omap in Hin as (msg & Hmsg & Hprev).
  rewrite Forall_forall in Hall.
  destruct (Hall msg Hmsg) as (r & a & Hr & Hl & ->).
  unfold promise_of in Hprev. simpl in Hprev.
  destruct (Acceptor.accepted a) as [[pn w]|] eqn:Hacc; [|done].
  simpl in Hprev. injection Hprev as _ Hw.
  exists r, a, pn. split; [done|]. split; [done|]. congruence.
Qed.

(** What a round changes: the proposer's counter goes up by one; the
    acceptors that the list does not name are untouched; a named acceptor
    keeps its node id and name, keeps its promise or takes the number of
    the round (which was then above its promise), and keeps its accepted
    pair or takes a pair under the number of the round.  With too few
    promises no accepted pair changes at all. *)
Theorem propose_frame (self : Proposer.t) (value : Value) acceptors σ :
  let n := ProposalNumber.mk (Proposer.seq self + 1) (Proposer.node_id self) in
  let promises := (Proposer.phase1 n acceptors σ []).1 in
  let result := Proposer.propose self value acceptors σ in
  result.1.2 =
    Proposer.mk (Proposer.node_id self) (Proposer.name self)
      (Proposer.seq self + 1) ∧
  (∀ i : nat, i ∉ acceptors → result.2 !! i = σ !! i) ∧
  Forall2 (λ a a',
             Acceptor.node_id a' = Acceptor.node_id a ∧
             Acceptor.name a' = Acceptor.name a ∧
             (Acceptor.highest_prepare a' = Acceptor.highest_prepare a ∨
              (Acceptor.highest_prepare a' = Some n ∧
               Acceptor.may_promise a n = true)) ∧
             (Acceptor.accepted a' = Acceptor.accepted a ∨
              ∃ v, Acceptor.accepted a' = Some (n, v)))
    σ result.2 ∧
  (Z.of_nat (length promises) < Z.of_nat (length acceptors) / 2 + 1 →
   Forall2 (Proposer.promised_more n) σ result.2).
Proof.
  cbv zeta. unfold Proposer.propose. simpl Proposer.seq. simpl Proposer.node_id.
  set (n := ProposalNumber.mk (Proposer.seq self + 1) (Proposer.node_id self)).
  pose proof (phase1_promised_more n acceptors σ []) as Hrel1.
  pose proof (λ i Hi, phase1_unlisted n acceptors i Hi σ []) as Hun1.
  destruct (Proposer.phase1 n acceptors σ []) as [promises σ1]. simpl in *.
  assert (Forall2 (λ a a',
             Acceptor.node_id a' = Acceptor.node_id a ∧
             Acceptor.name a' = Acceptor.name a ∧
             (Acceptor.highest_prepare a' = Acceptor.highest_prepare a ∨
              (Acceptor.highest_prepare a' = Some n ∧
               Acceptor.may_promise a n = true)) ∧
             (Acceptor.accepted a' = Acceptor.accepted a ∨
              ∃ v, Acceptor.accepted a' = Some (n, v))) σ σ1) as Hweak1.
  { eapply Forall2_impl; [exact Hrel1|].
    intros a a' (Hid & Hname & Hacc & Hp). auto. }
  destruct (Z.ltb_spec (Z.of_nat (length promises))
              (Z.of_nat (length acceptors) / 2 + 1)) as [Hlt | Hge]; simpl.
  { done. }
  set (final_value :=
         Proposer._choose_value_following_paxos_constraint value promises).
  pose proof (phase2_accepted_more n final_value promises acceptors σ1 [])
    as Hrel2.
  pose proof (λ i Hi, phase2_unlisted n final_value promises acceptors i Hi σ1 [])
    as Hun2.
  destruct (Proposer.phase2 n final_value promises acceptors σ1 [])
    as [accepts σ2]. simpl in *.
  assert (Forall2 (λ a a',
             Acceptor.node_id a' = Acceptor.node_id a ∧
             Acceptor.name a' = Acceptor.name a ∧
             (Acceptor.highest_prepare a' = Acceptor.highest_prepare a ∨
              (Acceptor.highest_prepare a' = Some n ∧
               Acceptor.may_promise a n = true)) ∧
             (Acceptor.accepted a' = Acceptor.accepted a ∨
              ∃ v, Acceptor.accepted a' = Some (n, v))) σ σ2) as Hboth.
  { eapply Forall2_trans; [|exact Hrel1|exact Hrel2].
    intros a a1 a2 (Hid & Hname & Hacc & Hp) (Hid' & Hname' & Hp' & Hacc').
    split; [congruence|]. split; [congruence|]. split.
    - destruct Hp as [Hp | [Hp Hg]]; [left | right]; [congruence|].
      split; [congruence | done].
    - destruct Hacc' as [Ha | Ha]; [left; congruence | right; by exists final_value]. }
  assert (∀ i : nat, i ∉ acceptors → σ2 !! i = σ !! i) as Hun.
  { intros i Hi. by rewrite Hun2, Hun1. }
  destruct (Z.of_nat (length accepts) >=? _); simpl;
    (split; [done|]); (split; [done|]); (split; [done|]); lia.
Qed.

End round_counts.

Lemma propose_majority_holds_witness :
  let σ0 := [Acceptor.__init__ 10 "X"; Acceptor.__init__ 11 "Y";
             Acceptor.__init__ 12 "Z"] in
  let P := Proposer.__init__ 1 "P1" in
  (Proposer.propose P (VStr "A") [0; 1; 2]%nat σ0).1.1 = VStr "A" ∧
  3 / 2 + 1 <=
  Z.of_nat (Proposer.holding (ProposalNumber.mk 1 1) (VStr "A")
              (Proposer.propose P (VStr "A") [0; 1; 2]%nat σ0).2
              [0; 1; 2]%nat).
Proof.
  cbv zeta. split; [reflexivity|].
  apply (propose_majority_holds (Proposer.__init__ 1 "P1") (VStr "A")
           [0; 1; 2]%nat
           [Acceptor.__init__ 10 "X"; Acceptor.__init__ 11 "Y";
            Acceptor.__init__ 12 "Z"] (VStr "A")).
  - reflexivity.
  - discriminate.
Defined.

(** ** [Learner]: recording reports *)

Section learner_records.
Implicit Types (l : Learner.t) (d : list (Z * Value)) (k : Z) (v w : Value).

Lemma mapped_to_dict_set d k v w :
  Learner.mapped_to (dict_set d k v) w =
  Learner.mapped_to d w
  - (if decide (dict_get d k = Some w) then 1 else 0)
  + (if decide (v = w) then 1 else 0).
Proof.
  induction d as [|[k0 x0] d IH].
  - cbn [dict_set dict_get]. rewrite mapped_to_cons. cbn [snd].
    destruct (decide (None = Some w)); [done|]. lia.
  - cbn [dict_set dict_get]. destruct (decide (k0 = k)) as [->|Hne].
    + rewrite !mapped_to_cons. cbn [snd].
      destruct (decide (Some x0 = Some w)) as [Hs|Hs];
        destruct (decide (x0 = w)) as [Hx|Hx]; try congruence; lia.
    + rewrite !mapped_to_cons, IH. lia.
Qed.

Lemma length_dict_set d k v :
  length (dict_set d k v) =
  (length d + (if dict_get d k is Some _ then 0 else 1))%nat.
Proof.
  induction d as [|[k0 x0] d IH]; cbn [dict_set dict_get]; [done|].
  destruct (decide (k0 = k)); simpl; [lia|]. rewrite IH. lia.
Qed.

(** [learn(k, v)] records the report of acceptor [k] or replaces its
    earlier one: afterwards the map sends [k] to [v] and every other
    acceptor to what it had; the map grows by one entry only if [k] was
    not in it; and the vote of [k] moves from its earlier value, if any,
    to [v]. *)
Theorem learn_records l k v :
  (∀ k', dict_get (Learner.values (Learner.learn l k v)) k' =
         if decide (k = k') then Some v
         else dict_get (Learner.values l) k') ∧
  length (Learner.values (Learner.learn l k v)) =
    (length (Learner.values l) +
     (if dict_get (Learner.values l) k is Some _ then 0 else 1))%nat ∧
  (∀ w, Learner.votes (Learner.learn l k v) w =
        Learner.votes l w
        - (if decide (dict_get (Learner.values l) k = Some w) then 1 else 0)
        + (if decide (v = w) then 1 else 0)).
Proof.
  unfold Learner.votes. simpl. split; [|split].
  - intros k'. apply dict_get_set.
  - apply length_dict_set.
  - intros w. apply mapped_to_dict_set.
Qed.

Lemma mapped_to_Permutation (d1 d2 : list (Z * Value)) v :
  d1 ≡ₚ d2 → Learner.mapped_to d1 v = Learner.mapped_to d2 v.
Proof. intros H. unfold Learner.mapped_to. by rewrite H. Qed.

(** The consensus does not depend on the order of the entries of the
    map, when the total count is not below the number of entries: two
    learners whose maps hold the same entries in any order return the
    same result. *)
Theorem get_consensus_order_independent (l1 l2 : Learner.t) (n : Z) :
  Learner.values l1 ≡ₚ Learner.values l2 →
  Z.of_nat (length (Learner.values l1)) <= n →
  Learner.get_consensus l1 n = Learner.get_consensus l2 n.
Proof.
  intros Hperm Hn.
  assert (∀ v, Learner.votes l1 v = Learner.votes l2 v) as Hvotes
    by (intros v; by apply mapped_to_Permutation).
  assert (Z.of_nat (length (Learner.values l2)) <= n) as Hn2
    by by rewrite <- Hperm.
  destruct (decide (Learner.get_consensus l1 n = VNone)) as [H1 | H1].
  - destruct (decide (Learner.get_consensus l2 n = VNone)) as [H2 | H2];
      [congruence|].
    apply get_consensus_complete; [done|]. rewrite Hvotes.
    by apply get_consensus_sound.
  - symmetry. apply get_consensus_complete; [done|]. rewrite <- Hvotes.
    by apply get_consensus_sound.
Qed.

Lemma get_consensus_order_independent_witness :
  let l1 := Learner.observe 20 [(1, VStr "A"); (2, VStr "B"); (3, VStr "B")] in
  let l2 := Learner.observe 21 [(3, VStr "B"); (1, VStr "A"); (2, VStr "B")] in
  Learner.values l1 ≠ Learner.values l2 ∧
  Learner.get_consensus l1 3 = Learner.get_consensus l2 3 ∧
  Learner.get_consensus l1 3 = VStr "B".
Proof.
  cbv zeta. split; [discriminate|]. split; [|reflexivity].
  apply (get_consensus_order_independent
           (Learner.observe 20 [(1, VStr "A"); (2, VStr "B"); (3, VStr "B")])
           (Learner.observe 21 [(3, VStr "B"); (1, VStr "A"); (2, VStr "B")]) 3).
  - simpl.
    change [(1, VStr "A"); (2, VStr "B"); (3, VStr "B")]
      with ([(1, VStr "A"); (2, VStr "B")] ++ [(3, VStr "B")]).
    apply Permutation_app_comm.
  - simpl. lia.
Defined.

(** Whatever the total count, also below the number of entries or
    negative, a result other than [None] is a value that some acceptor
    of the map reported, with at least [n // 2 + 1] votes. *)
Theorem get_consensus_reported (l : Learner.t) (n : Z) (v : Value) :
  Learner.get_consensus l n = v → v ≠ VNone →
  (∃ k, (k, v) ∈ Learner.values l) ∧ n / 2 + 1 <= Learner.votes l v.
Proof.
  intros Hget Hv. rewrite get_consensus_unfold in Hget.
  destruct (first_majority_sound _ _ _ Hget Hv) as (c & Hin & Hc).
  apply tally_entry in Hin as [-> Hne]. split; [|done].
  unfold Learner.votes, Learner.mapped_to in Hne.
  destruct (filter (λ item, item.2 = v) (Learner.values l))
    as [|[k w] rest] eqn:Hf; [done|].
  assert ((k, w) ∈ filter (λ item, item.2 = v) (Learner.values l)) as Hin
    by (rewrite Hf; apply elem_of_cons; by left).
  apply list_elem_of_filter in Hin as [Hw Hin]. simpl in Hw. subst w.
  by exists k.
Qed.

Lemma get_consensus_reported_witness :
  let l := Learner.observe 20 [(1, VStr "A"); (2, VStr "B")] in
  Learner.get_consensus l (-4) = VStr "A" ∧
  (∃ k, (k, VStr "A") ∈ Learner.values l) ∧
  -4 / 2 + 1 <= Learner.votes l (VStr "A").
Proof.
  cbv zeta. split; [reflexivity|].
  apply (get_consensus_reported
           (Learner.observe 20 [(1, VStr "A"); (2, VStr "B")]) (-4) (VStr "A")).
  - reflexivity.
  - discriminate.
Defined.
End learner_records.

(** ** [Learner.get_consensus]: a total count of at most one *)

Lemma tally_head (v : Value) (c : Z) (vc : list (Value * Z)) (item : Z * Value) :
  ∃ c' vc', Learner.tally ((v, c) :: vc) item = (v, c') :: vc' ∧ c <= c'.
Proof.
  unfold Learner.tally. cbn [dict_get dict_set].
  destruct (decide (v = item.2)) as [Heq|Hne].
  - exists (c + 1), vc. split; [done | lia].
  - destruct (dict_get vc item.2); eexists c, _; (split; [done | lia]).
Qed.

Lemma tally_fold_head (items : list (Z * Value)) :
  ∀ (v : Value) (c : Z) (vc : list (Value * Z)),
    ∃ c' vc', fold_left Learner.tally items ((v, c) :: vc) = (v, c') :: vc' ∧
              c <= c'.
Proof.
  induction items as [|item items IH]; intros v c vc.
  - exists c, vc. split; [done | lia].
  - simpl fold_left.
    destruct (tally_head v c vc item) as (c1 & vc1 & -> & Hc1).
    destruct (IH v c1 vc1) as (c2 & vc2 & -> & Hc2).
    exists c2, vc2. split; [done | lia].
Qed.

(** With a total count of at most 1 the threshold is at most 1, and a
    single report is a consensus: the result is the value of the first
    entry of the map, whatever the other acceptors reported. *)
Theorem get_consensus_small_total (l : Learner.t) (n k : Z) (v : Value)
    (rest : list (Z * Value)) :
  n <= 1 → Learner.values l = (k, v) :: rest →
  Learner.get_consensus l n = v.
Proof.
  intros Hn Hvalues. rewrite get_consensus_unfold, Hvalues.
  simpl fold_left. unfold Learner.tally at 2. cbn [dict_get dict_set snd].
  destruct (tally_fold_head rest v 1 []) as (c & vc & -> & Hc).
  simpl. pose proof (Z.div_mod n 2 ltac:(lia)) as Hdiv.
  pose proof (Z.mod_pos_bound n 2 ltac:(lia)) as Hmod.
  destruct (Z.geb_spec c (n / 2 + 1)); [done | lia].
Qed.

Lemma get_consensus_small_total_witness :
  let l := Learner.observe 20 [(1, VStr "A"); (2, VStr "B"); (3, VStr "B")] in
  Learner.values l = [(1, VStr "A"); (2, VStr "B"); (3, VStr "B")] ∧
  Learner.get_consensus l 1 = VStr "A".
Proof.
  cbv zeta. split; [reflexivity|].
  apply (get_consensus_small_total
           (Learner.observe 20 [(1, VStr "A"); (2, VStr "B"); (3, VStr "B")])
           1 1 (VStr "A") [(2, VStr "B"); (3, VStr "B")]).
  - lia.
  - reflexivity.
Defined.

(** ** The learner agrees with the proposer *)

Section learner_agrees.
Implicit Types (σ : heap) (l : Learner.t) (coordinators : list nat).

Lemma dict_set_fresh {K V : Type} `{!EqDecision K} (d : list (K * V))
    (k : K) (x : V) :
  k ∉ d.*1 → dict_set d k x = d ++ [(k, x)].
Proof.
  induction d as [|[k0 x0] d IH]; cbn [dict_set]; [done|].
  rewrite fmap_cons. cbn [fst]. intros [Hne Hk]%not_elem_of_cons.
  rewrite decide_False by done. by rewrite IH.
Qed.

Lemma node_ids_cons σ (r : nat) coordinators :
  Demo.node_ids σ (r :: coordinators) =
  match σ !! r with
  | Some c => Acceptor.node_id c :: Demo.node_ids σ coordinators
  | None => Demo.node_ids σ coordinators
  end.
Proof. unfold Demo.node_ids. simpl. by destruct (σ !! r). Qed.

Lemma reports_cons σ (r : nat) coordinators :
  omap (Demo.report σ) (r :: coordinators) =
  match σ !! r with
  | Some c =>
      match Acceptor.accepted c with
      | Some (_, v) => (Acceptor.node_id c, v) :: omap (Demo.report σ) coordinators
      | None => omap (Demo.report σ) coordinators
      end
  | None => omap (Demo.report σ) coordinators
  end.
Proof.
  simpl. unfold Demo.report at 1.
  destruct (σ !! r) as [c|]; simpl; [|done].
  by destruct (Acceptor.accepted c) as [[m v]|].
Qed.

Lemma learn_accepted_cons l (r : nat) coordinators σ :
  Demo.learn_accepted l (r :: coordinators) σ =
  Demo.learn_accepted
    (match σ !! r with
     | Some c =>
         match Acceptor.accepted c with
         | Some (_, v) => Learner.learn l (Acceptor.node_id c) v
         | None => l
         end
     | None => l
     end) coordinators σ.
Proof. done. Qed.

(** When the coordinators have different node ids, none of them in the
    map yet, the loop appends one entry for each coordinator that has
    accepted, in the order of the list. *)
Lemma learn_accepted_values σ coordinators :
  ∀ l,
    NoDup (Demo.node_ids σ coordinators) →
    (∀ k, k ∈ (Learner.values l).*1 → k ∉ Demo.node_ids σ coordinators) →
    Learner.values (Demo.learn_accepted l coordinators σ) =
    Learner.values l ++ omap (Demo.report σ) coordinators.
Proof.
  induction coordinators as [|r rest IH]; intros l Hnd Hfresh.
  - simpl. by rewrite app_nil_r.
  - rewrite learn_accepted_cons, reports_cons.
    pose proof (node_ids_cons σ r rest) as Hids.
    destruct (σ !! r) as [c|].
    + rewrite Hids in Hnd. apply NoDup_cons in Hnd as [Hc Hnd].
      assert (∀ k, k ∈ (Learner.values l).*1 → k ∉ Demo.node_ids σ rest)
        as Hfresh'.
      { intros k Hk Hk'. apply (Hfresh k Hk). rewrite Hids.
        apply elem_of_cons. by right. }
      destruct (Acceptor.accepted c) as [[m v]|]; [|by apply IH].
      assert (Acceptor.node_id c ∉ (Learner.values l).*1) as Hnew.
      { intros Hin. apply (Hfresh _ Hin). rewrite Hids.
        apply elem_of_cons. by left. }
      rewrite IH; [| done |].
      * simpl. rewrite dict_set_fresh by done. by rewrite <- app_assoc.
      * intros k Hk. simpl in Hk. rewrite dict_set_fresh in Hk by done.
        rewrite fmap_app in Hk.
        apply elem_of_app in Hk as [Hk | Hk]; [by apply Hfresh'|].
        simpl in Hk. apply list_elem_of_singleton in Hk as ->. done.
    + rewrite Hids in Hnd. apply IH; [done|].
      intros k Hk. rewrite <- Hids. by apply Hfresh.
Qed.

Lemma holding_le_reports (n : ProposalNumber.t) (v : Value) σ coordinators :
  Z.of_nat (Proposer.holding n v σ coordinators) <=
  Learner.mapped_to (omap (Demo.report σ) coordinators) v.
Proof.
  unfold Proposer.holding.
  induction coordinators as [|r rest IH]; [done|].
  rewrite filter_cons, reports_cons.
  destruct (σ !! r) as [c|].
  - destruct (decide (Acceptor.accepted <$> Some c = Some (Some (n, v))))
      as [Heq|Hne].
    + simpl in Heq. injection Heq as Heq. rewrite Heq, mapped_to_cons.
      cbn [snd]. rewrite decide_True by done. simpl length. lia.
    + destruct (Acceptor.accepted c) as [[m w]|]; [|done].
      rewrite mapped_to_cons. cbn [snd]. destruct (decide (w = v)); lia.
  - by destruct (decide (Acceptor.accepted <$> None = Some (Some (n, v)))).
Qed.

Lemma length_reports σ coordinators :
  (length (omap (Demo.report σ) coordinators) <= length coordinators)%nat.
Proof.
  induction coordinators as [|r rest IH]; [done|].
  rewrite reports_cons. simpl length.
  destruct (σ !! r) as [c|]; [|lia].
  destruct (Acceptor.accepted c) as [[m w]|]; simpl; lia.
Qed.

Lemma propose_node_ids (self : Proposer.t) (value : Value) coordinators σ :
  Demo.node_ids (Proposer.propose self value coordinators σ).2 coordinators =
  Demo.node_ids σ coordinators.
Proof.
  assert (Forall2 (λ a a', Acceptor.node_id a' = Acceptor.node_id a) σ
            (Proposer.propose self value coordinators σ).2) as Hrel.
  { unfold Proposer.propose.
    set (n := ProposalNumber.mk _ _).
    pose proof (phase1_promised_more n coordinators σ []) as H1.
    destruct (Proposer.phase1 n coordinators σ []) as [promises σ1].
    simpl in H1.
    assert (Forall2 (λ a a', Acceptor.node_id a' = Acceptor.node_id a) σ σ1)
      as H1' by (eapply Forall2_impl; [exact H1|]; by intros a a' (? & _)).
    destruct (Z.of_nat (length promises) <? _); [done|].
    set (final_value := Proposer._choose_value_following_paxos_constraint _ _).
    pose proof (phase2_accepted_more n final_value promises coordinators σ1 [])
      as H2.
    destruct (Proposer.phase2 n final_value promises coordinators σ1 [])
      as [accepts σ2]. simpl in H2.
    assert (Forall2 (λ a a', Acceptor.node_id a' = Acceptor.node_id a) σ σ2).
    { eapply Forall2_trans; [|exact H1'|exact H2].
      intros a a1 a2 Ha (Hb & _). simpl in *. congruence. }
    by destruct (Z.of_nat (length accepts) >=? _). }
  generalize dependent (Proposer.propose self value coordinators σ).2.
  intros σ' Hrel. clear self value.
  induction coordinators as [|r rest IH]; [done|].
  rewrite !node_ids_cons, IH.
  destruct (σ !! r) as [a|] eqn:Hr.
  - destruct (Forall2_lookup_l _ _ _ _ _ Hrel Hr) as (a' & -> & Hid).
    by rewrite Hid.
  - apply lookup_ge_None in Hr. apply Forall2_length in Hrel.
    by rewrite (proj2 (lookup_ge_None σ' r)) by lia.
Qed.

(** The learner agrees with the proposer: when the acceptors of the list
    have different node ids and a round returns a value other than
    [None], a new learner that is told the accepted value of every
    acceptor of the list, as the demonstration does after its rounds,
    finds that value as the consensus of [len(acceptors)] acceptors. *)
Theorem learner_agrees_with_proposer (self : Proposer.t) (value : Value)
    coordinators σ (v : Value) (learner_id : Z) :
  NoDup (Demo.node_ids σ coordinators) →
  (Proposer.propose self value coordinators σ).1.1 = v → v ≠ VNone →
  Learner.get_consensus
    (Demo.learn_accepted (Learner.__init__ learner_id) coordinators
       (Proposer.propose self value coordinators σ).2)
    (Z.of_nat (length coordinators)) = v.
Proof.
  intros Hnd Hres Hv.
  set (n := ProposalNumber.mk (Proposer.seq self + 1) (Proposer.node_id self)).
  assert (Z.of_nat (length coordinators) / 2 + 1 <=
          Z.of_nat (Proposer.holding n v
                      (Proposer.propose self value coordinators σ).2
                      coordinators)) as Hhold.
  { revert Hres. unfold Proposer.propose.
    simpl Proposer.seq. simpl Proposer.node_id. fold n.
    destruct (Proposer.phase1 n coordinators σ []) as [promises σ1].
    destruct (Z.of_nat (length promises) <? _); [simpl; congruence|].
    set (final_value := Proposer._choose_value_following_paxos_constraint _ _).
    pose proof (phase2_holding n final_value promises coordinators σ1 []) as H2.
    destruct (Proposer.phase2 n final_value promises coordinators σ1 [])
      as [accepts σ2]. simpl in H2.
    destruct (Z.geb_spec (Z.of_nat (length accepts))
                (Z.of_nat (length coordinators) / 2 + 1)) as [Hge | Hlt];
      simpl; [|congruence].
    intros <-. lia. }
  set (σ' := (Proposer.propose self value coordinators σ).2) in *.
  assert (Learner.values
            (Demo.learn_accepted (Learner.__init__ learner_id) coordinators σ')
          = omap (Demo.report σ') coordinators) as Hvalues.
  { rewrite learn_accepted_values; [done | |].
    - unfold σ'. by rewrite propose_node_ids.
    - intros k Hk. simpl in Hk. by apply elem_of_nil in Hk. }
  apply get_consensus_complete.
  - rewrite Hvalues. pose proof (length_reports σ' coordinators). lia.
  - unfold Learner.votes. rewrite Hvalues.
    pose proof (holding_le_reports n v σ' coordinators). lia.
Qed.

Lemma learner_agrees_with_proposer_witness :
  let σ0 := [Acceptor.__init__ 10 "X"; Acceptor.__init__ 11 "Y";
             Acceptor.__init__ 12 "Z"] in
  let P := Proposer.__init__ 1 "P1" in
  NoDup (Demo.node_ids σ0 [0; 1; 2]%nat) ∧
  (Proposer.propose P (VStr "A") [0; 1; 2]%nat σ0).1.1 = VStr "A" ∧
  Learner.get_consensus
    (Demo.learn_accepted (Learner.__init__ 20) [0; 1; 2]%nat
       (Proposer.propose P (VStr "A") [0; 1; 2]%nat σ0).2)
    (Z.of_nat (length [0; 1; 2]%nat)) = VStr "A".
Proof.
  cbv zeta.
  assert (NoDup (Demo.node_ids
                   [Acceptor.__init__ 10 "X"; Acceptor.__init__ 11 "Y";
                    Acceptor.__init__ 12 "Z"] [0; 1; 2]%nat)) as Hnd.
  { unfold Demo.node_ids. simpl.
    repeat (apply NoDup_cons; split;
            [rewrite ?elem_of_cons, elem_of_nil; lia|]).
    apply NoDup_nil_2. }
  split; [exact Hnd|]. split; [reflexivity|].
  apply (learner_agrees_with_proposer (Proposer.__init__ 1 "P1") (VStr "A")
           [0; 1; 2]%nat _ (VStr "A") 20 Hnd).
  - reflexivity.
  - discriminate.
Defined.
End learner_agrees.

(** ** Rounds one after another agree *)

Section sequential_rounds.
Implicit Types (σ : heap) (a : Acceptor.t) (n : ProposalNumber.t).
Implicit Types (promises accepts : list Message.t) (acceptors : list nat).

Lemma omap_cons_match {A B : Type} (f : A → option B) (x : A) (l : list A) :
  omap f (x :: l) =
  match f x with
  | Some y => y :: omap f l
  | None => omap f l
  end.
Proof. done. Qed.

Lemma omap_ext_elem {A B : Type} (f g : A → option B) (l : list A) :
  (∀ x, x ∈ l → f x = g x) → omap f l = omap g l.
Proof.
  induction l as [|x l IH]; intros H; [done|].
  rewrite !omap_cons_match, (H x) by (apply elem_of_cons; by left).
  rewrite IH; [done|]. intros y Hy. apply H, elem_of_cons. by right.
Qed.

(** With no acceptor listed twice, Phase 1 sends one [prepare] to each
    acceptor of the list. *)
Lemma phase1_exact n acceptors :
  NoDup acceptors →
  ∀ σ promises,
    (Proposer.phase1 n acceptors σ promises).1 =
      promises ++ omap (Proposer.promise_from n σ) acceptors ∧
    ∀ (r : nat) a, r ∈ acceptors → σ !! r = Some a →
      (Proposer.phase1 n acceptors σ promises).2 !! r
      = Some (Acceptor.prepare a n).2.
Proof.
  induction acceptors as [|r rest IH]; intros Hnd σ promises.
  - simpl. split; [by rewrite app_nil_r|]. intros r a H. by apply elem_of_nil in H.
  - apply NoDup_cons in Hnd as [Hr Hnd]. specialize (IH Hnd).
    cbn [Proposer.phase1]. rewrite omap_cons_match.
    unfold Proposer.promise_from at 1.
    destruct (σ !! r) as [acc|] eqn:Hl; simpl.
    + destruct (Acceptor.prepare acc n) as [response acc'] eqn:Hprep. simpl.
      set (promises1 := match response with
                        | Some m => promises ++ [m]
                        | None => promises
                        end).
      destruct (IH (<[r:=acc']> σ) promises1) as [IH1 IH2].
      assert (omap (Proposer.promise_from n (<[r:=acc']> σ)) rest =
              omap (Proposer.promise_from n σ) rest) as Hsame.
      { apply omap_ext_elem. intros x Hx. unfold Proposer.promise_from.
        rewrite list_lookup_insert_ne; [done|]. by intros ->. }
      split.
      * rewrite IH1, Hsame. unfold promises1.
        destruct response; [by rewrite <- app_assoc | done].
      * intros r0 a [-> | Hin]%elem_of_cons Ha.
        -- rewrite phase1_unlisted by done.
           rewrite list_lookup_insert_eq by by eapply lookup_lt_Some.
           assert (a = acc) as -> by congruence. by rewrite Hprep.
        -- apply IH2; [done|]. rewrite list_lookup_insert_ne; [done|].
           by intros ->.
    + destruct (IH σ promises) as [IH1 IH2]. split; [done|].
      intros r0 a [-> | Hin]%elem_of_cons Ha; [congruence | by apply IH2].
Qed.

(** With no acceptor listed twice, Phase 2 sends one [accept] to each
    acceptor of the list whose node id sent a promise. *)
Lemma phase2_exact n (v : Value) promises acceptors :
  NoDup acceptors →
  ∀ σ accepts,
    (Proposer.phase2 n v promises acceptors σ accepts).1 =
      accepts ++ omap (Proposer.accepted_from n v promises σ) acceptors ∧
    ∀ (r : nat) a, r ∈ acceptors → σ !! r = Some a →
      (Proposer.phase2 n v promises acceptors σ accepts).2 !! r
      = Some (if Proposer.promised_by promises a
              then (Acceptor.accept a n v).2 else a).
Proof.
  induction acceptors as [|r rest IH]; intros Hnd σ accepts.
  - simpl. split; [by rewrite app_nil_r|]. intros r a H. by apply elem_of_nil in H.
  - apply NoDup_cons in Hnd as [Hr Hnd]. specialize (IH Hnd).
    cbn [Proposer.phase2]. rewrite omap_cons_match.
    unfold Proposer.accepted_from at 1.
    destruct (σ !! r) as [acc|] eqn:Hl; simpl.
    + destruct (Proposer.promised_by promises acc) eqn:Hby.
      * destruct (Acceptor.accept acc n v) as [response acc'] eqn:Hacc. simpl.
        set (accepts1 := match response with
                         | Some m => accepts ++ [m]
                         | None => accepts
                         end).
        destruct (IH (<[r:=acc']> σ) accepts1) as [IH1 IH2].
        assert (omap (Proposer.accepted_from n v promises (<[r:=acc']> σ)) rest =
                omap (Proposer.accepted_from n v promises σ) rest) as Hsame.
        { apply omap_ext_elem. intros x Hx. unfold Proposer.accepted_from.
          rewrite list_lookup_insert_ne; [done|]. by intros ->. }
        split.
        -- rewrite IH1, Hsame. unfold accepts1.
           destruct response; [by rewrite <- app_assoc | done].
        -- intros r0 a [-> | Hin]%elem_of_cons Ha.
           ++ rewrite phase2_unlisted by done.
              rewrite list_lookup_insert_eq by by eapply lookup_lt_Some.
              assert (a = acc) as -> by congruence. by rewrite Hby, Hacc.
           ++ apply IH2; [done|]. rewrite list_lookup_insert_ne; [done|].
              by intros ->.
      * destruct (IH σ accepts) as [IH1 IH2]. split; [done|].
        intros r0 a [-> | Hin]%elem_of_cons Ha; [|by apply IH2].
        rewrite phase2_unlisted by done.
        assert (a = acc) as -> by congruence. by rewrite Hby.
    + destruct (IH σ accepts) as [IH1 IH2]. split; [done|].
      intros r0 a [-> | Hin]%elem_of_cons Ha; [congruence | by apply IH2].
Qed.
(** All the acceptors of the list have the promise [h] and the accepted
    pair [c]. *)
Let uniform σ acceptors (h : option ProposalNumber.t)
    (c : option (ProposalNumber.t * Value)) : Prop :=
  ∀ r : nat, r ∈ acceptors →
    ∃ a, σ !! r = Some a ∧ Acceptor.highest_prepare a = h ∧
         Acceptor.accepted a = c.

Lemma length_omap_all {A B : Type} (f : A → option B) (l : list A) :
  (∀ x, x ∈ l → is_Some (f x)) → length (omap f l) = length l.
Proof.
  induction l as [|x l IH]; intros H; [done|].
  rewrite omap_cons_match.
  destruct (H x) as [y ->]; [apply elem_of_cons; by left|].
  simpl. rewrite IH; [done|]. intros z Hz. apply H, elem_of_cons. by right.
Qed.

Lemma majority_le_length acceptors :
  acceptors ≠ [] →
  Z.of_nat (length acceptors) / 2 + 1 <= Z.of_nat (length acceptors).
Proof.
  intros Hne. destruct acceptors as [|r rest]; [done|]. simpl length.
  pose proof (Z.div_mod (Z.of_nat (S (length rest))) 2 ltac:(lia)).
  pose proof (Z.mod_pos_bound (Z.of_nat (S (length rest))) 2 ltac:(lia)).
  lia.
Qed.

(** The value that a round sends when every promise reports [c]. *)
Let sent (c : option (ProposalNumber.t * Value)) (value : Value) : Value :=
  match c with
  | Some (_, w) => if is_not_None w then w else value
  | None => value
  end.

Lemma choose_uniform (value : Value) promises
    (c : option (ProposalNumber.t * Value)) :
  promises ≠ [] →
  (∀ msg, msg ∈ promises →
     Message.prev_accepted msg =
     (λ mv, (ProposalNumber.seq mv.1, mv.2)) <$> c) →
  (∀ m w, c = Some (m, w) → 0 <= ProposalNumber.seq m) →
  Proposer._choose_value_following_paxos_constraint value promises
  = sent c value.
Proof.
  intros Hne Hall Hseq. rewrite choose_unfold. unfold sent.
  destruct c as [[m w]|]; simpl in Hall.
  - rewrite (scan_selects promises (ProposalNumber.seq m) w).
    + done.
    + destruct promises as [|msg promises]; [done|].
      apply list_elem_of_omap. exists msg.
      split; [apply elem_of_cons; by left|]. apply Hall, elem_of_cons. by left.
    + intros m' v' (msg & Hmsg & Hprev)%list_elem_of_omap.
      rewrite (Hall msg Hmsg) in Hprev. injection Hprev as <- <-. by right.
    + specialize (Hseq m w eq_refl). lia.
  - rewrite scan_none_above; [done|].
    intros m v (msg & Hmsg & Hprev)%list_elem_of_omap.
    by rewrite (Hall msg Hmsg) in Hprev.
Qed.

(** A round that every acceptor of the list grants. *)
Lemma round_granted (self : Proposer.t) (value : Value) acceptors σ
    (h : option ProposalNumber.t) (c : option (ProposalNumber.t * Value)) :
  let n := ProposalNumber.mk (Proposer.seq self + 1) (Proposer.node_id self) in
  NoDup acceptors → acceptors ≠ [] → uniform σ acceptors h c →
  match h with Some p => ProposalNumber.__gt__ n p | None => true end = true →
  (∀ m w, c = Some (m, w) → 0 <= ProposalNumber.seq m) →
  (Proposer.propose self value acceptors σ).1.1 = sent c value ∧
  uniform (Proposer.propose self value acceptors σ).2 acceptors
    (Some n) (Some (n, sent c value)).
Proof.
  intros n Hnd Hne Hu Hgrant Hseq.
  unfold Proposer.propose. simpl Proposer.seq. simpl Proposer.node_id. fold n.
  destruct (phase1_exact n acceptors Hnd σ []) as [Hp1 Hs1].
  destruct (Proposer.phase1 n acceptors σ []) as [promises σ1].
  simpl in Hp1, Hs1.
  assert (∀ r : nat, r ∈ acceptors →
            ∃ a, σ !! r = Some a ∧
                 Proposer.promise_from n σ r =
                   Some (Message.mk "PROMISE" (Acceptor.node_id a) 0
                           (ProposalNumber.seq n) VNone
                           ((λ mv, (ProposalNumber.seq mv.1, mv.2)) <$> c)) ∧
                 σ1 !! r = Some (Acceptor.mk (Acceptor.node_id a)
                                   (Acceptor.name a) (Some n) c)) as Hone.
  { intros r Hr. destruct (Hu r Hr) as (a & Ha & Hh & Hc).
    assert (Acceptor.prepare a n =
              (Some (Message.mk "PROMISE" (Acceptor.node_id a) 0
                       (ProposalNumber.seq n) VNone
                       ((λ mv, (ProposalNumber.seq mv.1, mv.2)) <$> c)),
               Acceptor.mk (Acceptor.node_id a) (Acceptor.name a) (Some n) c))
      as Hprep.
    { unfold Acceptor.prepare, Acceptor.may_promise. rewrite Hh, Hgrant.
      simpl. rewrite Hc. by destruct c as [[? ?]|]. }
    exists a. split; [done|]. split.
    - unfold Proposer.promise_from. rewrite Ha. simpl. by rewrite Hprep.
    - rewrite (Hs1 r a Hr Ha). by rewrite Hprep. }
  assert (length promises = length acceptors) as Hlen.
  { rewrite Hp1. apply length_omap_all. intros r Hr.
    destruct (Hone r Hr) as (a & _ & -> & _). by eexists. }
  assert (∀ msg, msg ∈ promises →
            Message.prev_accepted msg =
            (λ mv, (ProposalNumber.seq mv.1, mv.2)) <$> c) as Hprev.
  { intros msg. rewrite Hp1. intros (r & Hr & Hmsg)%list_elem_of_omap.
    destruct (Hone r Hr) as (a & _ & Hf & _). rewrite Hf in Hmsg.
    by injection Hmsg as <-. }
  assert (promises ≠ []) as Hpne.
  { intros ->. destruct acceptors; [done | discriminate]. }
  rewrite (choose_uniform value promises c Hpne Hprev Hseq).
  pose proof (majority_le_length acceptors Hne) as Hmaj.
  destruct (Z.ltb_spec (Z.of_nat (length promises))
              (Z.of_nat (length acceptors) / 2 + 1)) as [Hlt | _]; [lia|].
  destruct (phase2_exact n (sent c value) promises acceptors Hnd σ1 [])
    as [Hp2 Hs2].
  destruct (Proposer.phase2 n (sent c value) promises acceptors σ1 [])
    as [accepts σ2]. simpl in Hp2, Hs2.
  assert (∀ r : nat, r ∈ acceptors →
            ∃ a1, σ1 !! r = Some a1 ∧
                  Proposer.promised_by promises a1 = true ∧
                  Acceptor.accept a1 n (sent c value) =
                    (Some (Message.mk "ACCEPTED" (Acceptor.node_id a1) 0
                             (ProposalNumber.seq n) (sent c value) None),
                     Acceptor.mk (Acceptor.node_id a1) (Acceptor.name a1)
                       (Some n) (Some (n, sent c value)))) as Htwo.
  { intros r Hr. destruct (Hone r Hr) as (a & Ha & Hf & Ha1).
    eexists. split; [exact Ha1|]. split.
    - apply promised_by_spec. eexists. split.
      + rewrite Hp1. apply list_elem_of_omap. exists r. split; [done | exact Hf].
      + done.
    - unfold Acceptor.accept, Acceptor.may_accept. simpl. by rewrite ge_refl. }
  assert (length accepts = length acceptors) as Hlen2.
  { rewrite Hp2. apply length_omap_all. intros r Hr.
    destruct (Htwo r Hr) as (a1 & Ha1 & Hby & Hacc).
    unfold Proposer.accepted_from. rewrite Ha1. simpl. rewrite Hby, Hacc.
    by eexists. }
  destruct (Z.geb_spec (Z.of_nat (length accepts))
              (Z.of_nat (length acceptors) / 2 + 1)) as [_ | Hlt]; [|lia].
  simpl. split; [done|].
  intros r Hr. destruct (Htwo r Hr) as (a1 & Ha1 & Hby & Hacc).
  eexists. split; [|split].
  - rewrite (Hs2 r a1 Hr Ha1), Hby, Hacc. done.
  - done.
  - done.
Qed.

(** A round that every acceptor of the list refuses. *)
Lemma round_refused (self : Proposer.t) (value : Value) acceptors σ
    (p : ProposalNumber.t) (c : option (ProposalNumber.t * Value)) :
  let n := ProposalNumber.mk (Proposer.seq self + 1) (Proposer.node_id self) in
  NoDup acceptors → acceptors ≠ [] → uniform σ acceptors (Some p) c →
  ProposalNumber.__gt__ n p = false →
  (Proposer.propose self value acceptors σ).1.1 = VNone ∧
  uniform (Proposer.propose self value acceptors σ).2 acceptors (Some p) c.
Proof.
  intros n Hnd Hne Hu Hrefuse.
  unfold Proposer.propose. simpl Proposer.seq. simpl Proposer.node_id. fold n.
  destruct (phase1_exact n acceptors Hnd σ []) as [Hp1 Hs1].
  destruct (Proposer.phase1 n acceptors σ []) as [promises σ1].
  simpl in Hp1, Hs1.
  assert (∀ r : nat, r ∈ acceptors →
            ∃ a, σ !! r = Some a ∧ Acceptor.highest_prepare a = Some p ∧
                 Acceptor.accepted a = c ∧ Acceptor.prepare a n = (None, a))
    as Hone.
  { intros r Hr. destruct (Hu r Hr) as (a & Ha & Hh & Hc).
    exists a. split; [done|]. split; [done|]. split; [done|].
    unfold Acceptor.prepare, Acceptor.may_promise. by rewrite Hh, Hrefuse. }
  assert (promises = []) as ->.
  { rewrite Hp1. clear Hp1 Hs1 Hu Hnd Hne.
    induction acceptors as [|r rest IH]; [done|].
    rewrite omap_cons_match. unfold Proposer.promise_from at 1.
    destruct (Hone r) as (a & -> & _ & _ & Hprep); [apply elem_of_cons; by left|].
    simpl. rewrite Hprep. simpl. apply IH.
    intros r' Hr'. apply Hone, elem_of_cons. by right. }
  pose proof (majority_le_length acceptors Hne) as Hmaj.
  destruct (Z.ltb_spec (Z.of_nat (length (@nil Message.t)))
              (Z.of_nat (length acceptors) / 2 + 1)) as [_ | Hge].
  - simpl. split; [done|]. intros r Hr.
    destruct (Hone r Hr) as (a & Ha & Hh & Hc & Hprep).
    exists a. split; [|done]. rewrite (Hs1 r a Hr Ha). by rewrite Hprep.
  - simpl in Hge.
    pose proof (Z.div_mod (Z.of_nat (length acceptors)) 2 ltac:(lia)).
    pose proof (Z.mod_pos_bound (Z.of_nat (length acceptors)) 2 ltac:(lia)).
    lia.
Qed.

Lemma rounds_cons (self : Proposer.t) (value : Value)
    (calls : list (Proposer.t * Value)) acceptors σ :
  Proposer.rounds ((self, value) :: calls) acceptors σ =
  ((Proposer.propose self value acceptors σ).1.1 ::
     (Proposer.rounds calls acceptors
        (Proposer.propose self value acceptors σ).2).1,
   (Proposer.rounds calls acceptors
      (Proposer.propose self value acceptors σ).2).2).
Proof.
  cbn [Proposer.rounds].
  destruct (Proposer.propose self value acceptors σ) as [[result self'] σ'].
  simpl. by destruct (Proposer.rounds calls acceptors σ').
Qed.

(** One round on acceptors that all have the same promise and accepted
    pair: it is granted by all or refused by all. *)
Lemma round_uniform (self : Proposer.t) (value : Value) acceptors σ
    (h : option ProposalNumber.t) (c : option (ProposalNumber.t * Value)) :
  NoDup acceptors → acceptors ≠ [] → uniform σ acceptors h c →
  0 <= Proposer.seq self →
  (∀ m w, c = Some (m, w) → 0 <= ProposalNumber.seq m) →
  ((Proposer.propose self value acceptors σ).1.1 = sent c value ∧
   ∃ n, 0 <= ProposalNumber.seq n ∧
        uniform (Proposer.propose self value acceptors σ).2 acceptors
          (Some n) (Some (n, sent c value))) ∨
  ((Proposer.propose self value acceptors σ).1.1 = VNone ∧
   uniform (Proposer.propose self value acceptors σ).2 acceptors h c).
Proof.
  intros Hnd Hne Hu Hself Hseq.
  set (n := ProposalNumber.mk (Proposer.seq self + 1) (Proposer.node_id self)).
  destruct (match h with
            | Some p => ProposalNumber.__gt__ n p
            | None => true
            end) eqn:Hg.
  - left. destruct (round_granted self value acceptors σ h c Hnd Hne Hu Hg Hseq)
      as [Hres Hu'].
    split; [done|]. exists n. split; [simpl; lia | done].
  - right. destruct h as [p|]; [|done].
    by apply round_refused.
Qed.

(** Once all the acceptors hold a value [w] other than [None], every
    later round returns [w] or [None]. *)
Lemma rounds_decided (calls : list (Proposer.t * Value)) acceptors (w : Value) :
  NoDup acceptors → acceptors ≠ [] → w ≠ VNone →
  Forall (λ call, 0 <= Proposer.seq call.1) calls →
  ∀ σ h m,
    uniform σ acceptors h (Some (m, w)) → 0 <= ProposalNumber.seq m →
    ∀ v, v ∈ (Proposer.rounds calls acceptors σ).1 → v = VNone ∨ v = w.
Proof.
  intros Hnd Hne Hw. induction calls as [|[self value] calls IH];
    intros Hcalls σ h m Hu Hm v Hv.
  - simpl in Hv. by apply elem_of_nil in Hv.
  - apply Forall_cons in Hcalls as [Hself Hcalls]. simpl in Hself.
    rewrite rounds_cons in Hv. simpl in Hv.
    assert (sent (Some (m, w)) value = w) as Hsent
      by (unfold sent; by rewrite is_not_None_true).
    destruct (round_uniform self value acceptors σ h (Some (m, w)))
      as [[Hres (n & Hn & Hu')] | [Hres Hu']]; try done.
    + by intros m' w' [= <- <-].
    + rewrite Hsent in Hres, Hu'.
      apply elem_of_cons in Hv as [-> | Hv]; [by right|].
      by eapply (IH Hcalls _ (Some n) n).
    + apply elem_of_cons in Hv as [-> | Hv]; [by left|].
      by eapply (IH Hcalls _ h m).
Qed.

Lemma rounds_agree (calls : list (Proposer.t * Value)) acceptors :
  NoDup acceptors → acceptors ≠ [] →
  Forall (λ call, 0 <= Proposer.seq call.1) calls →
  ∀ σ h c,
    uniform σ acceptors h c →
    (∀ m w, c = Some (m, w) → 0 <= ProposalNumber.seq m) →
    ∀ v w, v ∈ (Proposer.rounds calls acceptors σ).1 →
           w ∈ (Proposer.rounds calls acceptors σ).1 →
           v ≠ VNone → w ≠ VNone → v = w.
Proof.
  intros Hnd Hne. induction calls as [|[self value] calls IH];
    intros Hcalls σ h c Hu Hc v w Hv Hw Hvn Hwn.
  - simpl in Hv. by apply elem_of_nil in Hv.
  - pose proof Hcalls as Hcalls0.
    apply Forall_cons in Hcalls as [Hself Hcalls]. simpl in Hself.
    rewrite rounds_cons in Hv, Hw. simpl in Hv, Hw.
    destruct (round_uniform self value acceptors σ h c Hnd Hne Hu Hself Hc)
      as [[Hres (n & Hn & Hu')] | [Hres Hu']].
    + destruct (decide (sent c value = VNone)) as [Hnone | Hsome].
      * rewrite Hnone in Hres.
        apply elem_of_cons in Hv as [-> | Hv]; [congruence|].
        apply elem_of_cons in Hw as [-> | Hw]; [congruence|].
        eapply (IH Hcalls _ (Some n) (Some (n, sent c value))); try done.
        by intros m' w' [= <- <-].
      * assert (∀ x, x ∈ ((Proposer.propose self value acceptors σ).1.1 ::
                       (Proposer.rounds calls acceptors
                          (Proposer.propose self value acceptors σ).2).1) →
                     x ≠ VNone → x = sent c value) as Hall.
        { intros x [-> | Hx]%elem_of_cons Hxn; [done|].
          destruct (rounds_decided calls acceptors (sent c value) Hnd Hne Hsome
                      Hcalls _ (Some n) n Hu' Hn x Hx); [done | done]. }
        rewrite (Hall v Hv Hvn), (Hall w Hw Hwn). done.
    + apply elem_of_cons in Hv as [-> | Hv]; [congruence|].
      apply elem_of_cons in Hw as [-> | Hw]; [congruence|].
      by eapply (IH Hcalls _ h c).
Qed.

(** Agreement: when rounds are run one after another against the same
    acceptors, all new at the start and none listed twice, by proposers
    whose counters are not negative, any two rounds that return a value
    other than [None] return the same value. *)
Theorem sequential_rounds_agree (calls : list (Proposer.t * Value))
    acceptors σ (v w : Value) :
  NoDup acceptors → acceptors ≠ [] →
  (∀ r : nat, r ∈ acceptors →
     ∃ a, σ !! r = Some a ∧ Acceptor.highest_prepare a = None ∧
          Acceptor.accepted a = None) →
  Forall (λ call, 0 <= Proposer.seq call.1) calls →
  v ∈ (Proposer.rounds calls acceptors σ).1 →
  w ∈ (Proposer.rounds calls acceptors σ).1 →
  v ≠ VNone → w ≠ VNone → v = w.
Proof.
  intros Hnd Hne Hnew Hcalls. apply (rounds_agree calls acceptors Hnd Hne Hcalls σ None None).
  - exact Hnew.
  - done.
Qed.

End sequential_rounds.

Lemma sequential_rounds_agree_witness :
  let σ0 := [Acceptor.__init__ 10 "X"; Acceptor.__init__ 11 "Y";
             Acceptor.__init__ 12 "Z"] in
  let calls := [(Proposer.__init__ 2 "P2", VStr "B");
                (Proposer.__init__ 1 "P1", VStr "A");
                (Proposer.mk 1 "P1" 1, VStr "C")] in
  (Proposer.rounds calls [0; 1; 2]%nat σ0).1 = [VStr "B"; VNone; VStr "B"] ∧
  VStr "B" = VStr "B".
Proof.
  cbv zeta. split; [reflexivity|].
  apply (sequential_rounds_agree
           [(Proposer.__init__ 2 "P2", VStr "B");
            (Proposer.__init__ 1 "P1", VStr "A");
            (Proposer.mk 1 "P1" 1, VStr "C")]
           [0; 1; 2]%nat
           [Acceptor.__init__ 10 "X"; Acceptor.__init__ 11 "Y";
            Acceptor.__init__ 12 "Z"]).
  - repeat (apply NoDup_cons; split;
            [rewrite ?elem_of_cons, elem_of_nil; lia|]).
    apply NoDup_nil_2.
  - discriminate.
  - intros r Hr.
    rewrite !elem_of_cons, elem_of_nil in Hr.
    destruct Hr as [-> | [-> | [-> | []]]]; eexists; (split; [reflexivity|]);
      split; reflexivity.
  - repeat constructor; simpl; lia.
  - apply list_elem_of_In. simpl. tauto.
  - apply list_elem_of_In. simpl. tauto.
  - discriminate.
  - discriminate.
Defined.

Lemma propose_A1_witness :
  let σ0 := [Acceptor.__init__ 10 "X"; Acceptor.__init__ 11 "Y";
             Acceptor.__init__ 12 "Z"] in
  Forall Acceptor.covered σ0 ∧
  Forall Acceptor.A1
    (Proposer.propose (Proposer.__init__ 1 "P1") (VStr "A") [0; 2; 2]%nat σ0).2.
Proof.
  cbv zeta.
  assert (Forall Acceptor.covered
            [Acceptor.__init__ 10 "X"; Acceptor.__init__ 11 "Y";
             Acceptor.__init__ 12 "Z"]) as Hcov
    by (repeat constructor; apply init_covered).
  split; [exact Hcov|].
  apply (propose_A1 (Proposer.__init__ 1 "P1") (VStr "A") [0; 2; 2]%nat _ Hcov).
Defined.

(** * The hash ring *)

(** ** Sorted lists of positions *)

Section positions.
Import ConsistentHashing.
Implicit Types (a : list Z) (x y h p : Z).

Lemma insort_cons y a x :
  insort (y :: a) x = if x <? y then x :: y :: a else y :: insort a x.
Proof. unfold insort. simpl. by destruct (x <? y). Qed.

Lemma insort_elem a x y : y ∈ insort a x ↔ y = x ∨ y ∈ a.
Proof.
  induction a as [|z a IH].
  - unfold insort; simpl. by rewrite elem_of_cons.
  - rewrite insort_cons. destruct (x <? z).
    + by rewrite elem_of_cons.
    + rewrite !elem_of_cons, IH. tauto.
Qed.

Lemma insort_sorted a x :
  StronglySorted Z.le a → StronglySorted Z.le (insort a x).
Proof.
  induction 1 as [|y a Hs IH Hall].
  - unfold insort; simpl. repeat constructor.
  - rewrite insort_cons. destruct (Z.ltb_spec x y) as [Hlt | Hge].
    + constructor; [by constructor|]. constructor; [lia|].
      eapply Forall_impl; [exact Hall|]. simpl. intros; lia.
    + constructor; [done|]. apply Forall_forall. intros z Hz.
      apply insort_elem in Hz as [-> | Hz]; [done|].
      by eapply Forall_forall in Hall.
Qed.

Lemma remove_None a x : remove a x = None ↔ x ∉ a.
Proof.
  induction a as [|y a IH]; simpl.
  - split; [intros _ H; by apply elem_of_nil in H | done].
  - destruct (decide (y = x)) as [->|Hne].
    + split; [done|]. intros H. destruct H. apply elem_of_cons. by left.
    + rewrite not_elem_of_cons, fmap_None, IH. split; [intros; split; auto | tauto].
Qed.

Lemma remove_Some a x a' :
  remove a x = Some a' →
  (∀ y, y ∈ a' → y ∈ a) ∧ (∀ y, y ∈ a → y ≠ x → y ∈ a') ∧
  (StronglySorted Z.le a → StronglySorted Z.le a').
Proof.
  revert a'. induction a as [|y a IH]; intros a'; simpl; [done|].
  destruct (decide (y = x)) as [->|Hne].
  - intros [= <-]. split; [|split].
    + intros z Hz. apply elem_of_cons. by right.
    + intros z [-> | Hz]%elem_of_cons Hzx; done.
    + by intros [? ?]%StronglySorted_inv.
  - intros (a0 & Hrem & ->)%fmap_Some.
    destruct (IH a0 Hrem) as (Hsub & Hkeep & Hsorted). split; [|split].
    + intros z [-> | Hz]%elem_of_cons; apply elem_of_cons; auto.
    + intros z [-> | Hz]%elem_of_cons Hzx; apply elem_of_cons; auto.
    + intros [Hs Hall]%StronglySorted_inv. constructor; [auto|].
      apply Forall_forall. intros z Hz.
      eapply Forall_forall in Hall; [done|]. auto.
Qed.

(** The entry at the index that [get_node] computes is the successor. *)
Lemma bisect_first_above a h :
  match first_above a h with
  | Some y => (bisect_right a h < length a)%nat ∧ a !! bisect_right a h = Some y
  | None => bisect_right a h = length a
  end.
Proof.
  induction a as [|y a IH]; simpl; [done|].
  destruct (h <? y); simpl; [split; [lia | done]|].
  destruct (first_above a h); [|lia]. destruct IH. split; [lia | done].
Qed.

Lemma lookup_successor a h :
  a !! (if decide (bisect_right a h = length a) then 0%nat
        else bisect_right a h) = successor a h.
Proof.
  unfold successor. pose proof (bisect_first_above a h) as H.
  destruct (first_above a h) as [y|].
  - destruct H as [Hlt Hl]. rewrite decide_False by lia. done.
  - rewrite decide_True by done. by rewrite head_lookup.
Qed.

Lemma first_above_Some a h y :
  StronglySorted Z.le a → first_above a h = Some y →
  y ∈ a ∧ h < y ∧ ∀ q, q ∈ a → h < q → y <= q.
Proof.
  induction 1 as [|z a Hs IH Hall]; simpl; [done|].
  destruct (Z.ltb_spec h z) as [Hlt | Hge].
  - intros [= <-]. split; [apply elem_of_cons; by left|]. split; [done|].
    intros q [-> | Hq]%elem_of_cons _; [done|].
    by eapply Forall_forall in Hall.
  - intros Hf. destruct (IH Hf) as (Hin & Hy & Hmin).
    split; [apply elem_of_cons; by right|]. split; [done|].
    intros q [-> | Hq]%elem_of_cons Hhq; [lia | auto].
Qed.

Lemma first_above_None a h : first_above a h = None → ∀ q, q ∈ a → q <= h.
Proof.
  induction a as [|z a IH]; simpl.
  - intros _ q H. by apply elem_of_nil in H.
  - destruct (Z.ltb_spec h z) as [Hlt | Hge]; [done|].
    intros Hf q [-> | Hq]%elem_of_cons; [done | auto].
Qed.

Lemma successor_serves a h p :
  StronglySorted Z.le a → successor a h = Some p → serves a h p.
Proof.
  intros Hs. unfold successor, serves.
  destruct (first_above a h) as [y|] eqn:Hf.
  - intros [= <-]. destruct (first_above_Some a h y Hs Hf) as (? & ? & ?).
    split; [done|]. left. done.
  - pose proof (first_above_None a h Hf) as Hle.
    destruct Hs as [|z a Hs Hall]; simpl; [done|]. intros [= <-].
    split; [apply elem_of_cons; by left|]. right. split; [done|].
    intros q [-> | Hq]%elem_of_cons; [done|].
    by eapply Forall_forall in Hall.
Qed.

Lemma successor_is_Some a h : a ≠ [] → is_Some (successor a h).
Proof.
  unfold successor. destruct (first_above a h); [by eexists|].
  destruct a; [done | by eexists].
Qed.

Lemma serves_unique a h p p' : serves a h p → serves a h p' → p = p'.
Proof.
  intros [Hp [[Hhp Hmin] | [Hall Hmin]]] [Hp' [[Hhp' Hmin'] | [Hall' Hmin']]].
  - specialize (Hmin p' Hp' Hhp'). specialize (Hmin' p Hp Hhp). lia.
  - specialize (Hall' p Hp). lia.
  - specialize (Hall p' Hp'). lia.
  - specialize (Hmin p' Hp'). specialize (Hmin' p Hp). lia.
Qed.

(** Serving is kept on a sublist that keeps the position, and pulled
    back from a larger list for a position of the smaller one. *)
Lemma serves_subset a a' h p :
  (∀ q, q ∈ a' → q ∈ a) → p ∈ a' → serves a h p → serves a' h p.
Proof.
  intros Hsub Hp [_ [[Hhp Hmin] | [Hall Hmin]]]; (split; [done|]).
  - left. auto.
  - right. auto.
Qed.
End positions.

(** ** The loops of [add_node] and [remove_node] *)

Section ring_loops.
Import ConsistentHashing.
Variable _hash : string → Z.
Implicit Types (s : t) (node : string) (l : list nat) (q : Z).

Lemma positions_cons node i l :
  positions _hash node (i :: l) = _hash (virtual_key node i) :: positions _hash node l.
Proof. done. Qed.

Lemma add_fold_fields node l s :
  replicas (fold_left (add_replica _hash node) l s) = replicas s ∧
  nodes (fold_left (add_replica _hash node) l s) = nodes s.
Proof.
  revert s. induction l as [|i l IH]; intros s; [done|].
  cbn [fold_left]. by destruct (IH (add_replica _hash node s i)).
Qed.

Lemma add_fold_sorted node l s :
  StronglySorted Z.le (sorted_hashes s) →
  StronglySorted Z.le (sorted_hashes (fold_left (add_replica _hash node) l s)).
Proof.
  revert s. induction l as [|i l IH]; intros s Hs; [done|].
  cbn [fold_left]. apply IH. by apply insort_sorted.
Qed.

Lemma add_fold_elem node l s q :
  q ∈ sorted_hashes (fold_left (add_replica _hash node) l s) ↔
  q ∈ sorted_hashes s ∨ q ∈ positions _hash node l.
Proof.
  revert s. induction l as [|i l IH]; intros s.
  - cbn. rewrite elem_of_nil. tauto.
  - cbn [fold_left]. rewrite IH, positions_cons, elem_of_cons.
    cbn [add_replica sorted_hashes]. rewrite insort_elem. tauto.
Qed.

Lemma add_fold_ring node l s q :
  ring (fold_left (add_replica _hash node) l s) !! q =
  if decide (q ∈ positions _hash node l) then Some node else ring s !! q.
Proof.
  revert s. induction l as [|i l IH]; intros s.
  - cbn. rewrite decide_False; [done|]. apply not_elem_of_nil.
  - cbn [fold_left]. rewrite IH, positions_cons.
    cbn [add_replica ring].
    destruct (decide (q ∈ positions _hash node l)) as [Hin|Hout].
    + rewrite decide_True; [done|]. apply elem_of_cons. by right.
    + destruct (decide (q = _hash (virtual_key node i))) as [->|Hne].
      * rewrite lookup_insert_eq. rewrite decide_True; [done|].
        apply elem_of_cons. by left.
      * rewrite lookup_insert_ne by done. rewrite decide_False; [done|].
        rewrite elem_of_cons. tauto.
Qed.

Lemma remove_loop_None node l : remove_loop _hash node None l = None.
Proof. induction l as [|i l IH]; [done|]. exact IH. Qed.

Lemma remove_replica_Some node s i s' :
  remove_replica _hash node s i = Some s' →
  replicas s' = replicas s ∧ nodes s' = nodes s ∧
  (StronglySorted Z.le (sorted_hashes s) → StronglySorted Z.le (sorted_hashes s')) ∧
  (∀ q, q ∈ sorted_hashes s' → q ∈ sorted_hashes s) ∧
  (∀ q, q ∈ sorted_hashes s → q ≠ _hash (virtual_key node i) → q ∈ sorted_hashes s') ∧
  (∀ q, ring s' !! q =
        if decide (q = _hash (virtual_key node i)) then None else ring s !! q).
Proof.
  unfold remove_replica. cbn zeta.
  destruct (decide (is_Some (ring s !! _hash (virtual_key node i)))) as [Hin|Hout].
  - destruct (remove (sorted_hashes s) (_hash (virtual_key node i))) as [a'|] eqn:Hrem;
      [|done].
    cbn. intros [= <-]. cbn.
    destruct (remove_Some _ _ _ Hrem) as (Hsub & Hkeep & Hsorted).
    repeat split; try done.
    intros q. destruct (decide (q = _hash (virtual_key node i))) as [->|Hne].
    + apply lookup_delete_eq.
    + by apply lookup_delete_ne.
  - intros [= <-]. repeat split; try done.
    intros q. destruct (decide (q = _hash (virtual_key node i))) as [->|Hne]; [|done].
    by apply eq_None_not_Some.
Qed.

Lemma remove_replica_total node s i :
  (∀ q, is_Some (ring s !! q) → q ∈ sorted_hashes s) →
  is_Some (remove_replica _hash node s i).
Proof.
  intros Hdom. unfold remove_replica. cbn zeta.
  destruct (decide (is_Some (ring s !! _hash (virtual_key node i)))) as [Hin|Hout];
    [|by eexists].
  destruct (remove (sorted_hashes s) (_hash (virtual_key node i))) as [a'|] eqn:Hrem.
  - by eexists.
  - apply remove_None in Hrem. destruct Hrem. auto.
Qed.

Lemma remove_loop_Some node l s s' :
  remove_loop _hash node (Some s) l = Some s' →
  replicas s' = replicas s ∧ nodes s' = nodes s ∧
  (StronglySorted Z.le (sorted_hashes s) → StronglySorted Z.le (sorted_hashes s')) ∧
  (∀ q, q ∈ sorted_hashes s' → q ∈ sorted_hashes s) ∧
  (∀ q, q ∈ sorted_hashes s → q ∉ positions _hash node l → q ∈ sorted_hashes s') ∧
  (∀ q, ring s' !! q =
        if decide (q ∈ positions _hash node l) then None else ring s !! q).
Proof.
  revert s. induction l as [|i l IH]; intros s.
  - cbn. intros [= <-]. repeat split; done.
  - unfold remove_loop. cbn [fold_left]. cbn [mbind option_bind].
    destruct (remove_replica _hash node s i) as [s1|] eqn:Hstep.
    + intros Hloop. apply IH in Hloop as (Hr & Hn & Hs & Hsub & Hkeep & Hring).
      apply remove_replica_Some in Hstep as (Hr1 & Hn1 & Hs1 & Hsub1 & Hkeep1 & Hring1).
      split; [congruence|]. split; [congruence|]. split; [auto|]. split; [auto|].
      split.
      * intros q Hq Hout. rewrite positions_cons, not_elem_of_cons in Hout.
        destruct Hout. auto.
      * intros q. rewrite Hring, Hring1, positions_cons.
        destruct (decide (q ∈ positions _hash node l)) as [Hin|Hout].
        -- rewrite decide_True; [done|]. apply elem_of_cons. by right.
        -- destruct (decide (q = _hash (virtual_key node i))) as [->|Hne].
           ++ rewrite decide_True; [done|]. apply elem_of_cons. by left.
           ++ rewrite decide_False; [done|]. rewrite elem_of_cons. tauto.
    + intros Hloop. fold (remove_loop _hash node None l) in Hloop.
      by rewrite remove_loop_None in Hloop.
Qed.

Lemma remove_loop_total node l s :
  (∀ q, is_Some (ring s !! q) → q ∈ sorted_hashes s) →
  is_Some (remove_loop _hash node (Some s) l).
Proof.
  revert s. induction l as [|i l IH]; intros s Hdom; [by eexists|].
  unfold remove_loop. cbn [fold_left]. cbn [mbind option_bind].
  destruct (remove_replica_total node s i Hdom) as [s1 Hstep]. rewrite Hstep.
  apply IH. intros q Hq.
  apply remove_replica_Some in Hstep as (_ & _ & _ & _ & Hkeep & Hring).
  rewrite Hring in Hq.
  destruct (decide (q = _hash (virtual_key node i))); [by destruct Hq|]. auto.
Qed.
End ring_loops.

(** ** What the methods keep of a ring *)

Section ring_invariant.
Import ConsistentHashing.
Variable _hash : string → Z.
Implicit Types (s : t) (node : string) (q : Z).

Lemma add_node_fields s node :
  replicas (add_node _hash s node) = replicas s ∧
  nodes (add_node _hash s node) = {[node]} ∪ nodes s.
Proof. unfold add_node. by destruct (add_fold_fields _hash node (replica_indices s) (mk (replicas s) (ring s) (sorted_hashes s) ({[node]} ∪ nodes s))). Qed.

Lemma add_node_sorted s node :
  StronglySorted Z.le (sorted_hashes s) →
  StronglySorted Z.le (sorted_hashes (add_node _hash s node)).
Proof. intros Hs. unfold add_node. by apply add_fold_sorted. Qed.

Lemma add_node_elem s node q :
  q ∈ sorted_hashes (add_node _hash s node) ↔
  q ∈ sorted_hashes s ∨ q ∈ positions _hash node (replica_indices s).
Proof. unfold add_node. by rewrite add_fold_elem. Qed.

Lemma add_node_ring s node q :
  ring (add_node _hash s node) !! q =
  if decide (q ∈ positions _hash node (replica_indices s)) then Some node
  else ring s !! q.
Proof. unfold add_node. by rewrite add_fold_ring. Qed.

Lemma replica_indices_eq s s' :
  replicas s' = replicas s → replica_indices s' = replica_indices s.
Proof. unfold replica_indices. by intros ->. Qed.

Lemma add_node_well_formed s node :
  well_formed _hash s → well_formed _hash (add_node _hash s node).
Proof.
  intros [Hs Hring]. split; [by apply add_node_sorted|].
  destruct (add_node_fields s node) as [Hr Hn].
  intros h m. rewrite add_node_ring, add_node_elem, Hn, (replica_indices_eq _ _ Hr).
  destruct (decide (h ∈ positions _hash node (replica_indices s))) as [Hin|Hout].
  - intros [= <-]. split; [by right|]. split; [|done].
    apply elem_of_union_l. by apply elem_of_singleton.
  - intros Hm. destruct (Hring h m Hm) as (? & ? & ?).
    split; [by left|]. split; [|done]. by apply elem_of_union_r.
Qed.

(** What a call of [remove_node] that returns has done. *)
Lemma remove_node_Some s node s' :
  remove_node _hash s node = Some s' →
  (¬ node ∈ nodes s ∧ s' = s) ∨
  (node ∈ nodes s ∧ replicas s' = replicas s ∧ nodes s' = nodes s ∖ {[node]} ∧
   (StronglySorted Z.le (sorted_hashes s) → StronglySorted Z.le (sorted_hashes s')) ∧
   (∀ q, q ∈ sorted_hashes s' → q ∈ sorted_hashes s) ∧
   (∀ q, q ∈ sorted_hashes s → q ∉ positions _hash node (replica_indices s) →
         q ∈ sorted_hashes s') ∧
   (∀ q, ring s' !! q =
         if decide (q ∈ positions _hash node (replica_indices s)) then None
         else ring s !! q)).
Proof.
  unfold remove_node. destruct (decide (node ∈ nodes s)) as [Hin|Hout].
  - intros Hloop. right. split; [done|].
    by apply remove_loop_Some in Hloop.
  - intros [= <-]. by left.
Qed.

Lemma remove_node_well_formed s node :
  well_formed _hash s →
  ∃ s', remove_node _hash s node = Some s' ∧ well_formed _hash s'.
Proof.
  intros [Hs Hring].
  assert (is_Some (remove_node _hash s node)) as [s' Hrem].
  { unfold remove_node. destruct (decide (node ∈ nodes s)); [|by eexists].
    apply remove_loop_total. cbn. intros q [m Hm]. by destruct (Hring q m Hm). }
  exists s'. split; [done|].
  destruct (remove_node_Some s node s' Hrem)
    as [[_ ->] | (Hin & Hr & Hn & Hsorted & Hsub & Hkeep & Hlook)]; [by split|].
  split; [auto|]. intros h m. rewrite Hlook, Hn, (replica_indices_eq _ _ Hr).
  destruct (decide (h ∈ positions _hash node (replica_indices s))) as [Hpos|Hpos];
    [done|].
  intros Hm. destruct (Hring h m Hm) as (Hh & Hnode & Hidx).
  split; [auto|]. split; [|done].
  apply elem_of_difference. split; [done|].
  intros ->%elem_of_singleton. contradiction.
Qed.

Lemma init_snoc nodes node replicas :
  __init__ _hash (nodes ++ [node]) replicas =
  add_node _hash (__init__ _hash nodes replicas) node.
Proof. unfold __init__. by rewrite fold_left_app. Qed.

Lemma init_fields nodes replicas :
  ConsistentHashing.replicas (__init__ _hash nodes replicas) = replicas ∧
  ∀ node, node ∈ ConsistentHashing.nodes (__init__ _hash nodes replicas) ↔ node ∈ nodes.
Proof.
  induction nodes as [|n nodes IH] using rev_ind.
  - split; [done|]. intros node. cbn. rewrite elem_of_nil.
    split; [|done]. apply not_elem_of_empty.
  - rewrite init_snoc. destruct IH as [Hr Hn].
    destruct (add_node_fields (__init__ _hash nodes replicas) n) as [Hr' Hn'].
    split; [congruence|]. intros node.
    rewrite Hn', elem_of_union, elem_of_singleton, Hn, elem_of_app,
      list_elem_of_singleton. tauto.
Qed.

Lemma init_well_formed nodes replicas :
  well_formed _hash (__init__ _hash nodes replicas).
Proof.
  induction nodes as [|n nodes IH] using rev_ind.
  - split; [constructor|]. intros h m. cbn. by rewrite lookup_empty.
  - rewrite init_snoc. by apply add_node_well_formed.
Qed.

Lemma run_cons_call s c calls :
  run _hash s (c :: calls) =
  match step _hash s c with
  | Some s1 => run _hash s1 calls
  | None => None
  end.
Proof.
  unfold run. cbn [fold_left]. cbn [mbind option_bind].
  destruct (step _hash s c); [done|].
  induction calls as [|c' calls IH]; [done|]. exact IH.
Qed.

Lemma run_well_formed calls s :
  well_formed _hash s →
  ∃ s', run _hash s calls = Some s' ∧ well_formed _hash s' ∧
        replicas s' = replicas s.
Proof.
  revert s. induction calls as [|c calls IH]; intros s Hwf.
  - exists s. by split.
  - rewrite run_cons_call. destruct c as [node|node]; cbn [step].
    + destruct (IH _ (add_node_well_formed s node Hwf)) as (s' & Hrun & Hwf' & Hr).
      exists s'. split; [done|]. split; [done|].
      rewrite Hr. by destruct (add_node_fields s node).
    + destruct (remove_node_well_formed s node Hwf) as (s1 & Hrem & Hwf1).
      rewrite Hrem. destruct (IH _ Hwf1) as (s' & Hrun & Hwf' & Hr).
      exists s'. split; [done|]. split; [done|]. rewrite Hr.
      destruct (remove_node_Some s node s1 Hrem) as [[_ ->] | (_ & ? & _)]; done.
Qed.

(** [get_node] in terms of the successor of the key's hash. *)
Lemma get_node_unfold s key :
  get_node _hash s key =
  if decide (ring s = ∅) then Some None
  else p ← successor (sorted_hashes s) (_hash key);
       node ← ring s !! p;
       Some (Some node).
Proof. unfold get_node. cbn zeta. by rewrite lookup_successor. Qed.

Lemma successor_of_serves a h p :
  StronglySorted Z.le a → serves a h p → successor a h = Some p.
Proof.
  intros Hs Hp. destruct (successor_is_Some a h) as [p' Hp'].
  { intros ->. destruct Hp as [Hp _]. by apply elem_of_nil in Hp. }
  rewrite Hp'. f_equal. eapply serves_unique; [|exact Hp].
  by apply successor_serves.
Qed.

Lemma get_node_Some s key node :
  StronglySorted Z.le (sorted_hashes s) →
  get_node _hash s key = Some (Some node) ↔
  ∃ p, serves (sorted_hashes s) (_hash key) p ∧ ring s !! p = Some node.
Proof.
  intros Hs. rewrite get_node_unfold. split.
  - destruct (decide (ring s = ∅)); [done|].
    destruct (successor (sorted_hashes s) (_hash key)) as [p|] eqn:Hp; [|done].
    cbn. destruct (ring s !! p) as [m|] eqn:Hm; [|done]. cbn. intros [= <-].
    exists p. split; [by apply successor_serves | done].
  - intros (p & Hp & Hm). rewrite decide_False.
    + rewrite (successor_of_serves _ _ _ Hs Hp). cbn. by rewrite Hm.
    + intros Hempty. by rewrite Hempty, lookup_empty in Hm.
Qed.
End ring_invariant.

(** ** Rings and their keys *)

Section ring_theorems.
Import ConsistentHashing.
Variable _hash : string → Z.
Implicit Types (s : t) (node : string) (q : Z).

(** X17 ([__init__], [add_node], [remove_node]): whatever servers are
    added to and removed from a new ring, in whatever order and with
    whatever hash function, no call raises ([remove_node] always finds
    in [sorted_hashes] the position it deletes from [ring]), [replicas]
    stays as given, [sorted_hashes] stays in order, every position of
    [ring] is in [sorted_hashes], and every server of [ring] is in
    [nodes]. *)
Theorem ring_calls_keep_ring (nodes : list string) (replicas : Z)
    (calls : list call) :
  ∃ s, run _hash (__init__ _hash nodes replicas) calls = Some s ∧
       ConsistentHashing.replicas s = replicas ∧
       StronglySorted Z.le (sorted_hashes s) ∧
       ∀ h node, ring s !! h = Some node →
         h ∈ sorted_hashes s ∧ node ∈ ConsistentHashing.nodes s.
Proof.
  destruct (run_well_formed _hash calls _ (init_well_formed _hash nodes replicas))
    as (s & Hrun & [Hs Hring] & Hr).
  exists s. split; [done|]. split.
  { rewrite Hr. by destruct (init_fields _hash nodes replicas). }
  split; [done|]. intros h node Hnode.
  by destruct (Hring h node Hnode) as (? & ? & _).
Qed.

(** X18 ([get_node]): on a ring whose [sorted_hashes] is in order,
    [get_node] returns [None] exactly when [ring] is empty, and returns
    a server exactly when that server is the entry of [ring] at the
    position that serves the hash of the key: the least position
    strictly above the hash, or the least position of all when no
    position is above it.  A position equal to the hash of the key does
    not serve it. *)
Theorem get_node_spec (s : t) (key : string) :
  StronglySorted Z.le (sorted_hashes s) →
  (get_node _hash s key = Some None ↔ ring s = ∅) ∧
  (∀ node, get_node _hash s key = Some (Some node) ↔
     ∃ p, ring s !! p = Some node ∧ p ∈ sorted_hashes s ∧
          ((_hash key < p ∧ ∀ q, q ∈ sorted_hashes s → _hash key < q → p <= q) ∨
           ((∀ q, q ∈ sorted_hashes s → q <= _hash key) ∧
            ∀ q, q ∈ sorted_hashes s → p <= q))).
Proof.
  intros Hs. split.
  - rewrite get_node_unfold. destruct (decide (ring s = ∅)) as [He|Hne]; [done|].
    split; [|done].
    destruct (successor (sorted_hashes s) (_hash key)) as [p|]; [|done].
    cbn. by destruct (ring s !! p).
  - intros node. rewrite (get_node_Some _hash s key node Hs). unfold serves.
    split; intros (p & ? & ?); exists p; tauto.
Qed.
End ring_theorems.

Lemma get_node_spec_witness :
  let s := ConsistentHashing.__init__ ConsistentHashing.sample_hash ["A"; "B"] 2 in
  StronglySorted Z.le (ConsistentHashing.sorted_hashes s) ∧
  ConsistentHashing.get_node ConsistentHashing.sample_hash s "user" = Some (Some "B").
Proof.
  cbv zeta.
  pose proof (proj1 (init_well_formed ConsistentHashing.sample_hash ["A"; "B"] 2))
    as Hsorted.
  split; [exact Hsorted|].
  apply (proj2 (get_node_spec ConsistentHashing.sample_hash _ "user" Hsorted) "B").
  assert (ConsistentHashing.sorted_hashes
            (ConsistentHashing.__init__ ConsistentHashing.sample_hash ["A"; "B"] 2)
          = [272; 273; 736; 737]) as -> by (vm_compute; reflexivity).
  assert (ConsistentHashing.sample_hash "user" = 882) as -> by (vm_compute; reflexivity).
  exists 272. split; [vm_compute; reflexivity|].
  split; [apply elem_of_cons; by left|]. right.
  split; intros q Hq; rewrite !elem_of_cons, elem_of_nil in Hq; lia.
Defined.

Section ring_keys.
Import ConsistentHashing.
Variable _hash : string → Z.
Implicit Types (s : t) (node : string) (q : Z).

(** On a ring that only [add_node] has built, every listed position has
    its entry in [ring]. *)
Lemma init_full nodes replicas q :
  q ∈ sorted_hashes (__init__ _hash nodes replicas) →
  is_Some (ring (__init__ _hash nodes replicas) !! q).
Proof.
  induction nodes as [|n nodes IH] using rev_ind.
  - cbn. by intros ?%elem_of_nil.
  - rewrite init_snoc, add_node_elem, add_node_ring.
    destruct (decide (q ∈ positions _hash n
                (replica_indices (__init__ _hash nodes replicas)))); [by eexists|].
    intros [Hq | Hq]; [auto | done].
Qed.

Lemma init_ring_empty nodes replicas :
  ring (__init__ _hash nodes replicas) = ∅ ↔ nodes = [] ∨ replicas <= 0.
Proof.
  induction nodes as [|n nodes IH] using rev_ind.
  - split; [by left | done].
  - rewrite init_snoc. split.
    + intros Hempty. right. destruct (Z_lt_le_dec 0 replicas) as [Hpos|]; [|done].
      pose proof (add_node_ring _hash (__init__ _hash nodes replicas) n
                    (_hash (virtual_key n 0))) as Hlook.
      rewrite Hempty, lookup_empty in Hlook.
      rewrite decide_True in Hlook; [done|].
      unfold replica_indices.
      destruct (init_fields _hash nodes replicas) as [-> _].
      destruct (Z.to_nat replicas) as [|k] eqn:Hk; [lia|].
      cbn. apply elem_of_cons. by left.
    + intros [Hnil | Hle]; [by destruct nodes|].
      apply map_eq. intros q. rewrite add_node_ring.
      unfold replica_indices.
      destruct (init_fields _hash nodes replicas) as [-> _].
      replace (Z.to_nat replicas) with 0%nat by lia. cbn.
      rewrite decide_False by apply not_elem_of_nil.
      rewrite (proj2 IH); [done|]. by right.
Qed.

(** X19 ([__init__], [get_node]): on a ring as [__init__] builds it,
    [get_node] never raises, whatever the hash function; it returns
    [None] exactly when no server was given or [replicas] is not
    positive, and otherwise one of the servers given. *)
Theorem get_node_new_ring (nodes : list string) (replicas : Z) (key : string) :
  ∃ r, get_node _hash (__init__ _hash nodes replicas) key = Some r ∧
       (r = None ↔ nodes = [] ∨ replicas <= 0) ∧
       ∀ node, r = Some node → node ∈ nodes.
Proof.
  destruct (init_well_formed _hash nodes replicas) as [Hs Hring].
  rewrite get_node_unfold.
  destruct (decide (ring (__init__ _hash nodes replicas) = ∅)) as [He|Hne].
  - exists None. split; [done|]. split; [|done].
    split; [intros _; by apply init_ring_empty | done].
  - destruct (map_choose _ Hne) as (h & m & Hm).
    destruct (Hring h m Hm) as (Hh & _ & _).
    destruct (successor_is_Some (sorted_hashes (__init__ _hash nodes replicas))
                (_hash key)) as [p Hp].
    { intros Hnil. rewrite Hnil in Hh. by apply elem_of_nil in Hh. }
    rewrite Hp. cbn.
    destruct (successor_serves _ _ _ Hs Hp) as [Hin _].
    destruct (init_full _ _ _ Hin) as [node Hnode]. rewrite Hnode. cbn.
    exists (Some node). split; [done|]. split.
    + split; [done|]. intros Hempty%init_ring_empty. done.
    + intros ? [= <-]. destruct (Hring p node Hnode) as (_ & Hn & _).
      by apply init_fields in Hn.
Qed.

(** The position that serves a hash once a server is added: a position
    of the new server, or the one that served it before. *)
Lemma serving_add_node (s : t) (node : string) (h p : Z) :
  StronglySorted Z.le (sorted_hashes s) →
  serves (sorted_hashes s) h p →
  ∃ p', serves (sorted_hashes (add_node _hash s node)) h p' ∧
        (p' ∈ positions _hash node (replica_indices s) ∨ p' = p).
Proof.
  intros Hs Hp.
  pose proof (add_node_sorted _hash s node Hs) as Hs'.
  assert (p ∈ sorted_hashes (add_node _hash s node)) as Hin.
  { apply add_node_elem. left. by destruct Hp. }
  destruct (successor_is_Some (sorted_hashes (add_node _hash s node)) h)
    as [p' Hp'].
  { intros Hnil. rewrite Hnil in Hin. by apply elem_of_nil in Hin. }
  apply (successor_serves _ _ _ Hs') in Hp'.
  exists p'. split; [done|].
  destruct (decide (p' ∈ positions _hash node (replica_indices s))) as [Hnew|Hold];
    [by left|]. right.
  assert (p' ∈ sorted_hashes s) as Hin'.
  { destruct Hp' as [Hp' _]. apply add_node_elem in Hp' as [?|?]; done. }
  eapply serves_unique; [|exact Hp].
  eapply serves_subset; [|exact Hin'|exact Hp'].
  intros q Hq. apply add_node_elem. by left.
Qed.

(** X20 ([add_node], [get_node]): adding a server moves a key to the new
    server or leaves it where it was; no key moves between two servers
    that were there before. *)
Theorem add_node_moves_to_new_only (s : t) (node key server : string) :
  StronglySorted Z.le (sorted_hashes s) →
  get_node _hash s key = Some (Some server) →
  get_node _hash (add_node _hash s node) key = Some (Some server) ∨
  get_node _hash (add_node _hash s node) key = Some (Some node).
Proof.
  intros Hs Hget.
  pose proof (add_node_sorted _hash s node Hs) as Hs'.
  apply (get_node_Some _hash s key server Hs) in Hget as (p & Hp & Hserver).
  destruct (serving_add_node s node _ p Hs Hp) as (p' & Hp' & Hcase).
  destruct (decide (p' ∈ positions _hash node (replica_indices s))) as [Hnew|Hold].
  - right. apply (get_node_Some _hash _ key node Hs'). exists p'.
    split; [done|]. rewrite add_node_ring. by rewrite decide_True.
  - left. destruct Hcase as [?| ->]; [done|].
    apply (get_node_Some _hash _ key server Hs'). exists p.
    split; [done|]. rewrite add_node_ring. by rewrite decide_False.
Qed.

(** X21 ([remove_node], [get_node]): when no position of the removed
    server is held in [ring] by another server (two virtual nodes with
    one hash), removing it leaves every key of another server with that
    server. *)
Theorem remove_node_keeps_others (s s' : t) (node key server : string) :
  StronglySorted Z.le (sorted_hashes s) →
  (∀ h other, h ∈ positions _hash node (replica_indices s) →
              ring s !! h = Some other → other = node) →
  remove_node _hash s node = Some s' →
  get_node _hash s key = Some (Some server) →
  server ≠ node →
  get_node _hash s' key = Some (Some server).
Proof.
  intros Hs Hown Hrem Hget Hne.
  destruct (remove_node_Some _hash s node s' Hrem)
    as [[_ ->] | (_ & _ & _ & Hsorted & Hsub & Hkeep & Hlook)]; [done|].
  apply (get_node_Some _hash s key server Hs) in Hget as (p & Hp & Hserver).
  assert (p ∉ positions _hash node (replica_indices s)) as Hout.
  { intros Hin. apply Hne. eauto. }
  apply (get_node_Some _hash s' key server (Hsorted Hs)). exists p. split.
  - apply (serves_subset (sorted_hashes s)); [done| |done].
    apply Hkeep; [by destruct Hp | done].
  - rewrite Hlook. by rewrite decide_False.
Qed.

(** X22 ([remove_node], [get_node]): on a ring reached from [__init__]
    by calls of [add_node] and [remove_node], once [remove_node] has
    removed a server, [get_node] returns it for no key. *)
Theorem removed_node_gets_no_key (nodes : list string) (replicas : Z)
    (calls : list call) (s s' : t) (node key : string) :
  run _hash (__init__ _hash nodes replicas) calls = Some s →
  remove_node _hash s node = Some s' →
  get_node _hash s' key ≠ Some (Some node).
Proof.
  intros Hrun Hrem Hget.
  destruct (run_well_formed _hash calls _ (init_well_formed _hash nodes replicas))
    as (s0 & Hrun0 & Hwf & _).
  rewrite Hrun in Hrun0. injection Hrun0 as <-.
  destruct (remove_node_well_formed _hash s node Hwf) as (s1 & Hrem1 & [Hs' Hring']).
  rewrite Hrem in Hrem1. injection Hrem1 as <-.
  apply (get_node_Some _hash s' key node Hs') in Hget as (p & _ & Hp).
  destruct (Hring' p node Hp) as (_ & Hin & _).
  destruct (remove_node_Some _hash s node s' Hrem)
    as [[Hout ->] | (_ & _ & Hn & _)]; [done|].
  rewrite Hn in Hin. apply elem_of_difference in Hin as [_ Hin].
  apply Hin. by apply elem_of_singleton.
Qed.
End ring_keys.

Lemma add_node_moves_to_new_only_witness :
  let s := ConsistentHashing.__init__ ConsistentHashing.sample_hash ["A"] 2 in
  StronglySorted Z.le (ConsistentHashing.sorted_hashes s) ∧
  ConsistentHashing.get_node ConsistentHashing.sample_hash s "user" = Some (Some "A") ∧
  (ConsistentHashing.get_node ConsistentHashing.sample_hash
     (ConsistentHashing.add_node ConsistentHashing.sample_hash s "B") "user"
   = Some (Some "A") ∨
   ConsistentHashing.get_node ConsistentHashing.sample_hash
     (ConsistentHashing.add_node ConsistentHashing.sample_hash s "B") "user"
   = Some (Some "B")).
Proof.
  cbv zeta.
  pose proof (proj1 (init_well_formed ConsistentHashing.sample_hash ["A"] 2))
    as Hsorted.
  split; [exact Hsorted|]. split; [vm_compute; reflexivity|].
  apply (add_node_moves_to_new_only ConsistentHashing.sample_hash _ "B" "user" "A"
           Hsorted).
  vm_compute; reflexivity.
Defined.

Lemma remove_node_keeps_others_witness :
  let s := ConsistentHashing.__init__ ConsistentHashing.sample_hash ["A"; "B"] 2 in
  let s' := default s (ConsistentHashing.remove_node ConsistentHashing.sample_hash s "A") in
  ConsistentHashing.remove_node ConsistentHashing.sample_hash s "A" = Some s' ∧
  ConsistentHashing.get_node ConsistentHashing.sample_hash s "user" = Some (Some "B") ∧
  ConsistentHashing.get_node ConsistentHashing.sample_hash s' "user" = Some (Some "B").
Proof.
  cbv zeta. split; [vm_compute; reflexivity|]. split; [vm_compute; reflexivity|].
  apply (remove_node_keeps_others ConsistentHashing.sample_hash
           (ConsistentHashing.__init__ ConsistentHashing.sample_hash ["A"; "B"] 2)
           _ "A" "user" "B").
  - exact (proj1 (init_well_formed ConsistentHashing.sample_hash ["A"; "B"] 2)).
  - assert (ConsistentHashing.positions ConsistentHashing.sample_hash "A"
              (ConsistentHashing.replica_indices
                 (ConsistentHashing.__init__ ConsistentHashing.sample_hash
                    ["A"; "B"] 2)) = [736; 737]) as ->
      by (vm_compute; reflexivity).
    intros h other Hh Hother.
    rewrite !elem_of_cons, elem_of_nil in Hh.
    destruct Hh as [-> | [-> | []]]; vm_compute in Hother; by injection Hother.
  - vm_compute; reflexivity.
  - vm_compute; reflexivity.
  - discriminate.
Defined.

Lemma removed_node_gets_no_key_witness :
  let s := ConsistentHashing.add_node ConsistentHashing.sample_hash
             (ConsistentHashing.__init__ ConsistentHashing.sample_hash ["A"] 2) "B" in
  let s' := default s (ConsistentHashing.remove_node ConsistentHashing.sample_hash s "A") in
  ConsistentHashing.run ConsistentHashing.sample_hash
    (ConsistentHashing.__init__ ConsistentHashing.sample_hash ["A"] 2)
    [ConsistentHashing.AddNode "B"] = Some s ∧
  ConsistentHashing.remove_node ConsistentHashing.sample_hash s "A" = Some s' ∧
  ConsistentHashing.get_node ConsistentHashing.sample_hash s' "k1" ≠ Some (Some "A").
Proof.
  cbv zeta. split; [reflexivity|]. split; [vm_compute; reflexivity|].
  apply (removed_node_gets_no_key ConsistentHashing.sample_hash ["A"] 2
           [ConsistentHashing.AddNode "B"]
           (ConsistentHashing.add_node ConsistentHashing.sample_hash
              (ConsistentHashing.__init__ ConsistentHashing.sample_hash ["A"] 2) "B")
           _ "A" "k1").
  - reflexivity.
  - vm_compute; reflexivity.
Defined.

(** ** A server added twice *)

Section ring_counts.
Import ConsistentHashing.
Variable _hash : string → Z.
Implicit Types (s : t) (node : string) (a : list Z) (q x : Z).

Local Abbreviation count a q := (count_occ Z.eq_dec a q).

Lemma count_insort a x q :
  count (insort a x) q = (count a q + if decide (q = x) then 1 else 0)%nat.
Proof.
  induction a as [|y a IH].
  - unfold insort. cbn. destruct (Z.eq_dec x q), (decide (q = x)); congruence.
  - rewrite insort_cons. destruct (x <? y).
    + cbn [count_occ].
      destruct (Z.eq_dec x q), (Z.eq_dec y q), (decide (q = x));
        try congruence; lia.
    + cbn [count_occ]. rewrite IH. destruct (Z.eq_dec y q); lia.
Qed.

Lemma count_remove a x a' q :
  remove a x = Some a' →
  count a q = (count a' q + if decide (q = x) then 1 else 0)%nat.
Proof.
  revert a'. induction a as [|y a IH]; intros a'; cbn; [done|].
  destruct (decide (y = x)) as [->|Hne].
  - intros [= <-]. destruct (Z.eq_dec x q), (decide (q = x)); try congruence; lia.
  - intros (a0 & Hrem & ->)%fmap_Some. cbn. rewrite (IH a0 Hrem).
    destruct (Z.eq_dec y q), (decide (q = x)); try congruence; lia.
Qed.

Lemma count_positive a q : (0 < count a q)%nat → q ∈ a.
Proof. intros H. apply list_elem_of_In. by apply (count_occ_In Z.eq_dec). Qed.

Lemma positive_count a q : q ∈ a → (0 < count a q)%nat.
Proof. intros H. apply (count_occ_In Z.eq_dec). by apply list_elem_of_In. Qed.

Lemma count_add_fold node l s q :
  count (sorted_hashes (fold_left (add_replica _hash node) l s)) q =
  (count (sorted_hashes s) q + count (positions _hash node l) q)%nat.
Proof.
  revert s. induction l as [|i l IH]; intros s.
  - cbn. lia.
  - cbn [fold_left]. rewrite IH, positions_cons. cbn [add_replica sorted_hashes].
    rewrite count_insort. cbn.
    destruct (Z.eq_dec (_hash (virtual_key node i)) q),
      (decide (q = _hash (virtual_key node i))); try congruence; lia.
Qed.

Lemma count_remove_loop node l s s' q :
  remove_loop _hash node (Some s) l = Some s' →
  (count (sorted_hashes s) q <=
   count (sorted_hashes s') q + if decide (is_Some (ring s !! q)) then 1 else 0)%nat.
Proof.
  revert s. induction l as [|i l IH]; intros s.
  - cbn. intros [= <-]. lia.
  - unfold remove_loop. cbn [fold_left]. cbn [mbind option_bind].
    destruct (remove_replica _hash node s i) as [s1|] eqn:Hstep.
    + intros Hloop. apply IH in Hloop. revert Hstep Hloop.
      unfold remove_replica. cbn zeta.
      destruct (decide (is_Some (ring s !! _hash (virtual_key node i)))) as [Hin|Hout].
      * destruct (remove (sorted_hashes s) (_hash (virtual_key node i)))
          as [a'|] eqn:Hrem; [|done].
        cbn. intros [= <-]. cbn. rewrite (count_remove _ _ _ q Hrem).
        destruct (decide (q = _hash (virtual_key node i))) as [->|Hne].
        -- rewrite lookup_delete_eq. rewrite decide_False by (by intros [? ?]).
           rewrite decide_True by done. lia.
        -- rewrite lookup_delete_ne by done. lia.
      * intros [= <-]. done.
    + intros Hloop. fold (remove_loop _hash node None l) in Hloop.
      by rewrite remove_loop_None in Hloop.
Qed.

(** X23 ([add_node], [remove_node], [get_node]): [add_node] of a server
    that is on the ring lists its positions a second time, and
    [remove_node] takes one of the two away.  After a server was added
    twice and removed, its positions are still in [sorted_hashes] and no
    longer in [ring]; while other servers are on the ring, [get_node]
    raises a [KeyError] for every key that such a position serves. *)
Theorem readded_node_stays_listed (s s' : t) (node : string) :
  StronglySorted Z.le (sorted_hashes s) →
  remove_node _hash (add_node _hash (add_node _hash s node) node) node = Some s' →
  ∀ p, p ∈ positions _hash node (replica_indices s) →
    p ∈ sorted_hashes s' ∧ ring s' !! p = None ∧
    ∀ key, ring s' ≠ ∅ → serves (sorted_hashes s') (_hash key) p →
           get_node _hash s' key = None.
Proof.
  intros Hs Hrem p Hp.
  destruct (add_node_fields _hash s node) as [Hr1 Hn1].
  destruct (add_node_fields _hash (add_node _hash s node) node) as [Hr2 Hn2].
  pose proof (replica_indices_eq _ _ Hr1) as Hi1.
  pose proof (replica_indices_eq _ _ Hr2) as Hi2.
  assert (StronglySorted Z.le (sorted_hashes s')) as Hs'.
  { destruct (remove_node_Some _hash _ node s' Hrem)
      as [[_ ->] | (_ & _ & _ & Hsorted & _)].
    - by do 2 apply add_node_sorted.
    - apply Hsorted. by do 2 apply add_node_sorted. }
  assert (ring s' !! p = None) as Hnone.
  { destruct (remove_node_Some _hash _ node s' Hrem)
      as [[Hout _] | (_ & _ & _ & _ & _ & _ & Hlook)].
    - destruct Hout. rewrite Hn2. apply elem_of_union_l. by apply elem_of_singleton.
    - rewrite Hlook, Hi2, Hi1. by rewrite decide_True. }
  assert (p ∈ sorted_hashes s') as Hin.
  { apply count_positive.
    assert (2 <= count (sorted_hashes (add_node _hash (add_node _hash s node) node)) p)%nat
      as Htwo.
    { unfold add_node at 1. rewrite count_add_fold. cbn [sorted_hashes].
      unfold add_node at 1. rewrite count_add_fold. cbn [sorted_hashes].
      rewrite Hi1. pose proof (positive_count _ _ Hp). lia. }
    revert Hrem. unfold remove_node.
    destruct (decide (node ∈ nodes (add_node _hash (add_node _hash s node) node)));
      [|intros [= <-]; lia].
    intros Hloop. apply (count_remove_loop _ _ _ _ p) in Hloop. cbn in Hloop.
    destruct (decide (is_Some
      (ring (add_node _hash (add_node _hash s node) node) !! p))); lia. }
  split; [done|]. split; [done|].
  intros key Hne Hserves. rewrite get_node_unfold. rewrite decide_False by done.
  rewrite (successor_of_serves _ _ _ Hs' Hserves). cbn. by rewrite Hnone.
Qed.
End ring_counts.

Lemma readded_node_stays_listed_witness :
  let s := ConsistentHashing.__init__ ConsistentHashing.sample_hash ["B"] 2 in
  let s2 := ConsistentHashing.add_node ConsistentHashing.sample_hash
              (ConsistentHashing.add_node ConsistentHashing.sample_hash s "A") "A" in
  let s' := default s
              (ConsistentHashing.remove_node ConsistentHashing.sample_hash s2 "A") in
  ConsistentHashing.remove_node ConsistentHashing.sample_hash s2 "A" = Some s' ∧
  ConsistentHashing.get_node ConsistentHashing.sample_hash s' "k1" = None.
Proof.
  cbv zeta. split; [vm_compute; reflexivity|].
  destruct (readded_node_stays_listed ConsistentHashing.sample_hash
              (ConsistentHashing.__init__ ConsistentHashing.sample_hash ["B"] 2)
              _ "A"
              (proj1 (init_well_formed ConsistentHashing.sample_hash ["B"] 2))
              ltac:(vm_compute; reflexivity) 736) as (_ & _ & Hraise).
  - vm_compute. apply elem_of_cons. by left.
  - apply Hraise.
    + intros Hempty. apply (f_equal (λ m, m !! 272)) in Hempty.
      vm_compute in Hempty. discriminate.
    + assert (ConsistentHashing.sample_hash "k1" = 441) as ->
        by (vm_compute; reflexivity).
      match goal with |- ConsistentHashing.serves ?a _ _ =>
        assert (a = [272; 273; 736; 737]) as -> by (vm_compute; reflexivity)
      end.
      split; [rewrite !elem_of_cons; auto|]. left. split; [lia|].
      intros q Hq. rewrite !elem_of_cons, elem_of_nil in Hq. lia.
Defined.

(** * The distributed cache *)

Section cache_facts.
Import ConsistentHashing.
Variable _hash : string → Z.
Implicit Types (s : ConsistentHashing.t) (c : DistributedCache.t)
  (node server key value : string) (q : Z).

Lemma add_node_full s node :
  (∀ q, q ∈ sorted_hashes s → is_Some (ring s !! q)) →
  ∀ q, q ∈ sorted_hashes (add_node _hash s node) →
       is_Some (ring (add_node _hash s node) !! q).
Proof.
  intros Hfull q. rewrite add_node_elem, add_node_ring.
  destruct (decide (q ∈ positions _hash node (replica_indices s))); [by eexists|].
  intros [Hq | Hq]; [auto | done].
Qed.

Lemma get_node_total s key :
  well_formed _hash s →
  (∀ q, q ∈ sorted_hashes s → is_Some (ring s !! q)) →
  ∃ r, get_node _hash s key = Some r ∧ ∀ node, r = Some node → node ∈ nodes s.
Proof.
  intros [Hs Hring] Hfull. rewrite get_node_unfold.
  destruct (decide (ring s = ∅)) as [He|Hne]; [by exists None|].
  destruct (map_choose _ Hne) as (h & m & Hm).
  destruct (Hring h m Hm) as (Hh & _ & _).
  destruct (successor_is_Some (sorted_hashes s) (_hash key)) as [p Hp].
  { intros Hnil. rewrite Hnil in Hh. by apply elem_of_nil in Hh. }
  rewrite Hp. cbn. destruct (successor_serves _ _ _ Hs Hp) as [Hin _].
  destruct (Hfull _ Hin) as [node Hnode]. rewrite Hnode. cbn.
  exists (Some node). split; [done|]. intros ? [= <-].
  by destruct (Hring p node Hnode) as (_ & ? & _).
Qed.

Lemma init_caches (cache_servers : list string) node :
  node ∈ cache_servers →
  is_Some (fold_left (λ caches server, <[server := (∅ : gmap string string)]> caches)
             cache_servers (∅ : gmap string (gmap string string)) !! node).
Proof.
  induction cache_servers as [|n l IH] using rev_ind; [by intros ?%elem_of_nil|].
  rewrite fold_left_app. cbn. intros [Hin | ->%list_elem_of_singleton]%elem_of_app.
  - destruct (decide (node = n)) as [->|Hne].
    + rewrite lookup_insert_eq. by eexists.
    + rewrite lookup_insert_ne by done. auto.
  - rewrite lookup_insert_eq. by eexists.
Qed.

Lemma init_cache_ok cache_servers :
  DistributedCache.well_formed _hash (DistributedCache.__init__ _hash cache_servers).
Proof.
  split; [apply init_well_formed|]. split; [apply init_full|].
  cbn. intros node Hnode. apply init_caches. by apply init_fields in Hnode.
Qed.

Lemma put_total c key value :
  DistributedCache.well_formed _hash c → is_Some (DistributedCache.put _hash c key value).
Proof.
  intros (Hwf & Hfull & Hcaches). unfold DistributedCache.put.
  destruct (get_node_total _ key Hwf Hfull) as (r & -> & Hr). cbn.
  destruct r as [name|]; cbn; [|by eexists].
  destruct (decide (name = EmptyString)); [by eexists|].
  destruct (Hcaches name (Hr name eq_refl)) as [cache ->]. by eexists.
Qed.

Lemma get_total c key :
  DistributedCache.well_formed _hash c → is_Some (DistributedCache.get _hash c key).
Proof.
  intros (Hwf & Hfull & Hcaches). unfold DistributedCache.get.
  destruct (get_node_total _ key Hwf Hfull) as (r & -> & Hr). cbn.
  destruct r as [name|]; cbn; [|by eexists].
  destruct (decide (name = EmptyString)); [by eexists|].
  destruct (Hcaches name (Hr name eq_refl)) as [cache ->]. by eexists.
Qed.

Lemma put_cache_ok c key value b c' :
  DistributedCache.well_formed _hash c → DistributedCache.put _hash c key value = Some (b, c') → DistributedCache.well_formed _hash c'.
Proof.
  intros (Hwf & Hfull & Hcaches). unfold DistributedCache.put.
  destruct (get_node _hash (DistributedCache.ch c) key) as [r|]; [|done]. cbn.
  destruct (DistributedCache.truthy r) as [name|]; [|by intros [= <- <-]].
  destruct (DistributedCache.local_caches c !! name) as [cache|]; [|done].
  cbn. intros [= <- <-]. split; [done|]. split; [done|]. cbn.
  intros node Hnode. destruct (decide (node = name)) as [->|Hne].
  - rewrite lookup_insert_eq. by eexists.
  - rewrite lookup_insert_ne by done. auto.
Qed.

Lemma add_cache_server_ok c server :
  DistributedCache.well_formed _hash c → DistributedCache.well_formed _hash (DistributedCache.add_cache_server _hash c server).
Proof.
  intros (Hwf & Hfull & Hcaches). split; [by apply add_node_well_formed|].
  split; [by apply add_node_full|]. cbn. intros node.
  destruct (add_node_fields _hash (DistributedCache.ch c) server) as [_ ->].
  destruct (decide (node = server)) as [->|Hne].
  - rewrite lookup_insert_eq. by eexists.
  - rewrite lookup_insert_ne by done.
    intros [?%elem_of_singleton | ?]%elem_of_union; [done | auto].
Qed.

Lemma cache_run_ok calls c :
  DistributedCache.well_formed _hash c → ∃ c', DistributedCache.run _hash c calls = Some c' ∧ DistributedCache.well_formed _hash c'.
Proof.
  revert c. induction calls as [|call calls IH]; intros c Hok; [by exists c|].
  unfold DistributedCache.run. cbn [fold_left]. cbn [mbind option_bind].
  destruct call as [key value | server]; cbn [DistributedCache.step].
  - destruct (put_total c key value Hok) as [[b c1] Hput]. rewrite Hput. cbn.
    apply IH. by eapply put_cache_ok.
  - apply IH. by apply add_cache_server_ok.
Qed.
End cache_facts.

Section cache_theorems.
Import ConsistentHashing.
Variable _hash : string → Z.
Implicit Types (c : DistributedCache.t) (server key value : string).

(** X24 ([DistributedCache]): on a cache as the constructor builds it,
    after whatever calls of [put] and [add_cache_server], no call has
    raised and neither [put] nor [get] raises, for any key and any hash
    function: the ring always has a server with a dictionary for the
    key, or no server at all. *)
Theorem cache_never_raises (cache_servers : list string)
    (calls : list DistributedCache.call) :
  ∃ c, DistributedCache.run _hash (DistributedCache.__init__ _hash cache_servers)
         calls = Some c ∧
       ∀ key value, is_Some (DistributedCache.get _hash c key) ∧
                    is_Some (DistributedCache.put _hash c key value).
Proof.
  destruct (cache_run_ok _hash calls _ (init_cache_ok _hash cache_servers))
    as (c & Hrun & Hok).
  exists c. split; [done|]. intros key value.
  split; [by apply get_total | by apply put_total].
Qed.

(** X25 ([put], [get]): a [put] that returns [False] leaves the cache as
    it was; after a [put] that returns [True], [get] of the same key
    returns the value stored, and [get] of any other key does what it
    did before. *)
Theorem put_then_get c key value (b : bool) c' :
  DistributedCache.put _hash c key value = Some (b, c') →
  (b = false → c' = c) ∧
  (b = true → ∀ key',
     DistributedCache.get _hash c' key' =
     if decide (key' = key) then Some (Some value)
     else DistributedCache.get _hash c key').
Proof.
  unfold DistributedCache.put.
  destruct (get_node _hash (DistributedCache.ch c) key) as [r|] eqn:Hget; [|done].
  cbn. destruct (DistributedCache.truthy r) as [name|] eqn:Hname;
    [|by intros [= <- <-]].
  destruct (DistributedCache.local_caches c !! name) as [cache|] eqn:Hcache; [|done].
  cbn. intros [= <- <-]. split; [done|]. intros _ key'.
  unfold DistributedCache.get. cbn [DistributedCache.ch DistributedCache.local_caches].
  destruct (decide (key' = key)) as [->|Hne].
  - rewrite Hget. cbn. rewrite Hname. rewrite lookup_insert_eq. cbn.
    by rewrite lookup_insert_eq.
  - destruct (get_node _hash (DistributedCache.ch c) key') as [r'|]; [|done].
    cbn. destruct (DistributedCache.truthy r') as [name'|]; [|done].
    destruct (decide (name' = name)) as [->|Hname'].
    + rewrite lookup_insert_eq, Hcache. cbn. by rewrite lookup_insert_ne.
    + by rewrite lookup_insert_ne.
Qed.

(** X26 ([put], [add_cache_server], [get]): after a value was stored and
    a server was then added, the key has a server, and [get] returns the
    value unless that server is the one added; then it returns [None],
    because [add_cache_server] gives the server an empty dictionary and
    moves nothing. *)
Theorem get_after_add_cache_server c key value c' server :
  StronglySorted Z.le (sorted_hashes (DistributedCache.ch c)) →
  DistributedCache.put _hash c key value = Some (true, c') →
  ∃ holder,
    get_node _hash (DistributedCache.ch (DistributedCache.add_cache_server _hash c' server))
      key = Some (Some holder) ∧
    DistributedCache.get _hash (DistributedCache.add_cache_server _hash c' server) key =
    Some (if decide (holder = server) then None else Some value).
Proof.
  intros Hs. unfold DistributedCache.put.
  destruct (get_node _hash (DistributedCache.ch c) key) as [r|] eqn:Hget; [|done].
  cbn. destruct (DistributedCache.truthy r) as [name|] eqn:Hname; [|done].
  destruct (DistributedCache.local_caches c !! name) as [cache|] eqn:Hcache; [|done].
  cbn. intros [= <-].
  unfold DistributedCache.get, DistributedCache.add_cache_server.
  cbn [DistributedCache.ch DistributedCache.local_caches].
  assert (r = Some name ∧ name ≠ EmptyString) as [-> Hne].
  { destruct r as [n|]; [|done]. cbn in Hname.
    destruct (decide (n = EmptyString)); [done|]. by injection Hname as ->. }
  assert (get_node _hash (add_node _hash (DistributedCache.ch c) server) key
            = Some (Some name) ∨
          get_node _hash (add_node _hash (DistributedCache.ch c) server) key
            = Some (Some server)) as [-> | ->].
  { pose proof (add_node_sorted _hash _ server Hs) as Hs'.
    apply (get_node_Some _hash _ key name Hs) in Hget as (p & Hp & Hserver).
    destruct (serving_add_node _hash _ server _ p Hs Hp) as (p' & Hp' & Hcase).
    destruct (decide (p' ∈ positions _hash server
                (replica_indices (DistributedCache.ch c)))) as [Hnew|Hold].
    - right. apply (get_node_Some _hash _ key server Hs'). exists p'.
      split; [done|]. rewrite add_node_ring. by rewrite decide_True.
    - left. destruct Hcase as [?| ->]; [done|].
      apply (get_node_Some _hash _ key name Hs'). exists p.
      split; [done|]. rewrite add_node_ring. by rewrite decide_False. }
  all: cbn [mbind option_bind].
  - exists name. split; [done|]. rewrite Hname.
    destruct (decide (name = server)) as [->|Hneq].
    + rewrite lookup_insert_eq. cbn. by rewrite lookup_empty.
    + rewrite lookup_insert_ne by done. rewrite lookup_insert_eq. cbn.
      by rewrite lookup_insert_eq.
  - exists server. split; [done|]. rewrite decide_True by done.
    cbn [DistributedCache.truthy].
    destruct (decide (server = EmptyString)); [done|].
    rewrite lookup_insert_eq. cbn. by rewrite lookup_empty.
Qed.
End cache_theorems.

Lemma put_then_get_witness :
  let c := DistributedCache.__init__ ConsistentHashing.sample_hash ["A"; "B"] in
  let c' := default c (snd <$> DistributedCache.put ConsistentHashing.sample_hash
                                 c "user" "v") in
  DistributedCache.put ConsistentHashing.sample_hash c "user" "v" = Some (true, c') ∧
  DistributedCache.get ConsistentHashing.sample_hash c' "user" = Some (Some "v").
Proof.
  cbv zeta. split; [vm_compute; reflexivity|].
  apply (proj2 (put_then_get ConsistentHashing.sample_hash
                  (DistributedCache.__init__ ConsistentHashing.sample_hash ["A"; "B"])
                  "user" "v" true _ ltac:(vm_compute; reflexivity))
               eq_refl "user").
Defined.

Lemma get_after_add_cache_server_witness :
  let c := DistributedCache.__init__ ConsistentHashing.sample_hash ["A"; "B"] in
  let c' := default c (snd <$> DistributedCache.put ConsistentHashing.sample_hash
                                 c "hu" "v") in
  StronglySorted Z.le (ConsistentHashing.sorted_hashes (DistributedCache.ch c)) ∧
  DistributedCache.put ConsistentHashing.sample_hash c "hu" "v" = Some (true, c') ∧
  DistributedCache.get ConsistentHashing.sample_hash
    (DistributedCache.add_cache_server ConsistentHashing.sample_hash c' "C") "hu"
  = Some None.
Proof.
  cbv zeta.
  pose proof (proj1 (init_well_formed ConsistentHashing.sample_hash ["A"; "B"] 5))
    as Hsorted.
  split; [exact Hsorted|]. split; [vm_compute; reflexivity|].
  destruct (get_after_add_cache_server ConsistentHashing.sample_hash
              (DistributedCache.__init__ ConsistentHashing.sample_hash ["A"; "B"])
              "hu" "v" _ "C" Hsorted ltac:(vm_compute; reflexivity))
    as (holder & Hholder & Hget).
  vm_compute in Hholder. injection Hholder as <-. exact Hget.
Defined.

(** ** Adding a server and removing it again *)

Section ring_round_trip.
Import ConsistentHashing.
Variable _hash : string → Z.
Implicit Types (s : t) (node : string) (a : list Z) (q x : Z).

Lemma insort_Permutation a x : insort a x ≡ₚ x :: a.
Proof.
  unfold insort. rewrite <- Permutation_middle.
  by rewrite take_drop.
Qed.

Lemma remove_Permutation a x a' : remove a x = Some a' → a ≡ₚ x :: a'.
Proof.
  revert a'. induction a as [|y a IH]; intros a'; cbn; [done|].
  destruct (decide (y = x)) as [->|Hne]; [by intros [= <-]|].
  intros (a0 & Hrem & ->)%fmap_Some. rewrite (IH a0 Hrem). apply perm_swap.
Qed.

Lemma add_fold_Permutation node l s :
  sorted_hashes (fold_left (add_replica _hash node) l s) ≡ₚ
  positions _hash node l ++ sorted_hashes s.
Proof.
  revert s. induction l as [|i l IH]; intros s; [done|].
  cbn [fold_left]. rewrite IH, positions_cons. cbn [add_replica sorted_hashes].
  rewrite insort_Permutation. by rewrite <- Permutation_middle.
Qed.

Lemma remove_loop_exact node l s :
  NoDup (positions _hash node l) →
  (∀ q, q ∈ positions _hash node l →
        is_Some (ring s !! q) ∧ q ∈ sorted_hashes s) →
  ∃ s', remove_loop _hash node (Some s) l = Some s' ∧
        positions _hash node l ++ sorted_hashes s' ≡ₚ sorted_hashes s.
Proof.
  revert s. induction l as [|i l IH]; intros s Hnd Hall; [by exists s|].
  rewrite positions_cons in Hnd. apply NoDup_cons in Hnd as [Hfresh Hnd].
  destruct (Hall (_hash (virtual_key node i))) as [Hring Hlisted].
  { rewrite positions_cons. apply elem_of_cons. by left. }
  unfold remove_loop. cbn [fold_left]. cbn [mbind option_bind].
  unfold remove_replica at 2. cbn zeta. rewrite decide_True by done.
  destruct (remove (sorted_hashes s) (_hash (virtual_key node i))) as [a'|] eqn:Hrem.
  - cbn [mbind option_bind].
    destruct (remove_Some _ _ _ Hrem) as (_ & Hkeep & _).
    destruct (IH (mk (replicas s) (delete (_hash (virtual_key node i)) (ring s))
                     a' (nodes s)) Hnd) as (s' & Hloop & Hperm).
    { intros q Hq. cbn.
      assert (q ≠ _hash (virtual_key node i)) as Hne by (by intros ->).
      destruct (Hall q) as [? ?].
      { rewrite positions_cons. apply elem_of_cons. by right. }
      rewrite lookup_delete_ne by done. auto. }
    exists s'. split; [exact Hloop|]. rewrite positions_cons. cbn in Hperm.
    cbn [app]. rewrite Hperm. symmetry. by apply remove_Permutation.
  - apply remove_None in Hrem. done.
Qed.

(** X27 ([add_node], [remove_node]): on a ring with [sorted_hashes] in
    order, adding a server that is not in [nodes] and removing it again
    gives the ring back, field by field, when the positions of its
    virtual nodes are distinct and none of them is a key of [ring]. *)
Theorem add_then_remove_node (s : t) (node : string) :
  StronglySorted Z.le (sorted_hashes s) →
  node ∉ nodes s →
  NoDup (positions _hash node (replica_indices s)) →
  (∀ q, q ∈ positions _hash node (replica_indices s) → ring s !! q = None) →
  remove_node _hash (add_node _hash s node) node = Some s.
Proof.
  intros Hs Hnew Hnd Hfree.
  destruct (add_node_fields _hash s node) as [Hr Hn].
  pose proof (replica_indices_eq _ _ Hr) as Hi.
  unfold remove_node. rewrite decide_True.
  2:{ rewrite Hn. apply elem_of_union_l. by apply elem_of_singleton. }
  rewrite Hi.
  destruct (remove_loop_exact node (replica_indices s)
              (mk (replicas (add_node _hash s node)) (ring (add_node _hash s node))
                  (sorted_hashes (add_node _hash s node))
                  (nodes (add_node _hash s node) ∖ {[node]})) Hnd)
    as (s' & Hloop & Hperm).
  { intros q Hq. cbn. rewrite add_node_ring, add_node_elem.
    rewrite decide_True by done. split; [by eexists | by right]. }
  rewrite Hloop. f_equal.
  destruct (remove_loop_Some _hash _ _ _ _ Hloop)
    as (Hr' & Hn' & Hsorted & _ & _ & Hlook).
  cbn in Hr', Hn', Hsorted, Hlook, Hperm.
  destruct s as [r m a n], s' as [r' m' a' n']. cbn in *. f_equal.
  - congruence.
  - apply map_eq. intros q. rewrite Hlook, add_node_ring. cbn.
    destruct (decide (q ∈ positions _hash node
                (replica_indices (mk r m a n)))) as [Hq|Hq]; [|done].
    symmetry. by apply Hfree.
  - apply (StronglySorted_unique Z.le).
    + apply Hsorted. by apply add_node_sorted.
    + done.
    + unfold add_node in Hperm. rewrite add_fold_Permutation in Hperm.
      cbn in Hperm. by apply Permutation_app_inv_l in Hperm.
  - rewrite Hn', Hn. apply set_eq. intros x.
    rewrite elem_of_difference, elem_of_union, elem_of_singleton.
    split; [by intros [[-> | ?] ?] | intros ?; split; [by right | by intros ->]].
Qed.
End ring_round_trip.

Lemma add_then_remove_node_witness :
  let s := ConsistentHashing.__init__ ConsistentHashing.sample_hash ["B"] 2 in
  ("A" ∉ ConsistentHashing.nodes s) ∧
  ConsistentHashing.positions ConsistentHashing.sample_hash "A"
    (ConsistentHashing.replica_indices s) = [736; 737] ∧
  ConsistentHashing.remove_node ConsistentHashing.sample_hash
    (ConsistentHashing.add_node ConsistentHashing.sample_hash s "A") "A" = Some s.
Proof.
  cbv zeta.
  assert ("A" ∉ ConsistentHashing.nodes
            (ConsistentHashing.__init__ ConsistentHashing.sample_hash ["B"] 2))
    as Hnew.
  { intros Hin%init_fields. apply list_elem_of_singleton in Hin. discriminate. }
  assert (ConsistentHashing.positions ConsistentHashing.sample_hash "A"
            (ConsistentHashing.replica_indices
               (ConsistentHashing.__init__ ConsistentHashing.sample_hash ["B"] 2))
          = [736; 737]) as Hpos by (vm_compute; reflexivity).
  split; [exact Hnew|]. split; [exact Hpos|].
  apply (add_then_remove_node ConsistentHashing.sample_hash).
  - exact (proj1 (init_well_formed ConsistentHashing.sample_hash ["B"] 2)).
  - exact Hnew.
  - rewrite Hpos.
    repeat (apply NoDup_cons; split;
              [rewrite ?elem_of_cons, elem_of_nil; lia|]).
    apply NoDup_nil_2.
  - rewrite Hpos. intros q Hq. rewrite !elem_of_cons, elem_of_nil in Hq.
    destruct Hq as [-> | [-> | []]]; vm_compute; reflexivity.
Defined.
